(** * Transfinite surfaces: a model of [Surface] (src/transfinite/surface.cc)

    The development embeds the member functions of [Surface] as Rocq
    functions and proves the properties the specification states about them.

    Conventions of the embedding.
    - [double] is modelled by the real numbers [R]: arithmetic is exact, and
      inputs on which the C++ would produce an infinity or a NaN (a division
      by zero) are outside the statements.  This reading carries the
      statements about structure and about the value an expression of the
      source denotes.  Where rounding decides a property (a sum that is 1, an
      order, a range), the scalar functions are read a second time with every
      operation rounded ([Rounding], the functions [..._fl]), and [gamma] and
      [blendHermite] a third time on binary64 itself ([float], the functions
      [..._b64]) to run them on concrete doubles.
    - [size_t] is modelled by [N]; the one place where the source computes a
      new index from an arbitrary caller-supplied one ([setCurve]) has the
      64-bit wrap-around written out.
    - [std::vector] is a [list]; [v[i]] is the lookup [at_ v i], which is
      [None] out of range, where the C++ has undefined behaviour.  A member
      function whose C++ may run into undefined behaviour (an index out of
      range, a null pointer) returns [option].
    - [std::shared_ptr<BSCurve>] is an address into a store of curve objects
      ([CurveStore]); curves are mutated in place by [setupLoop], and two
      ribbons may hold the same address. *)

From Stdlib Require Import Reals Lra Lia ZArith NArith.
From Stdlib Require Floats.
From stdpp Require Import base option list.

#[global] Instance Rlt_decision (x y : R) : Decision (x < y)%R := Rlt_dec x y.

(** ** Machine integers and vectors *)

Abbreviation size_t := N.

Definition SIZE_MOD : N := 2 ^ 64.

(** Arithmetic on [size_t] is modulo 2^64. *)
Definition wrap (x : N) : size_t := (x mod SIZE_MOD)%N.

(** [v[i]] for a [std::vector] and an index of type [size_t]. *)
Definition at_ {A : Type} (v : list A) (i : size_t) : option A := v !! N.to_nat i.

(** A loop [for (x : l) body], threading the state and stopping at the first
    undefined step. *)
Fixpoint for_each {A S : Type} (body : A → S → option S) (l : list A) (σ : S)
  : option S :=
  match l with
  | [] => Some σ
  | x :: l' => σ' ← body x σ; for_each body l' σ'
  end.

(** The index values a loop [for (size_t i = 0; i < n; ++i)] runs through. *)
Definition iota (n : size_t) : list size_t := N.of_nat <$> seq 0 (N.to_nat n).

(** [std::vector::resize(n)]: truncates, or appends value-initialised
    elements [d]. *)
Definition resize_vec {A : Type} (n : size_t) (d : A) (v : list A) : list A :=
  take (N.to_nat n) v ++ replicate (N.to_nat n - length v) d.

(** [v[i] = x] for an index in range (and [None] otherwise). *)
Definition assign {A : Type} (v : list A) (i : size_t) (x : A) : option (list A) :=
  if decide (N.to_nat i < length v) then Some (<[N.to_nat i := x]> v) else None.

Module Geometry.

(** Modelled from the spec: geometry.hh is not among the sources; [Point2D]
    is a pair indexed by 0 and 1, [Vector3D] a triple of doubles with the
    componentwise operations and the Euclidean [norm] the specification
    names ("distances use Euclidean norm"). *)
Abbreviation Point2D := (R * R)%type.

Record Vector3D : Type := V3 { vx : R; vy : R; vz : R }.

Abbreviation Point3D := Vector3D.

Definition vzero : Vector3D := V3 0 0 0.

Definition vadd (a b : Vector3D) : Vector3D :=
  V3 (vx a + vx b) (vy a + vy b) (vz a + vz b).

Definition vsub (a b : Vector3D) : Vector3D :=
  V3 (vx a - vx b) (vy a - vy b) (vz a - vz b).

Definition vneg (a : Vector3D) : Vector3D := V3 (- vx a) (- vy a) (- vz a).

Definition vscale (a : Vector3D) (k : R) : Vector3D :=
  V3 (vx a * k) (vy a * k) (vz a * k).

Definition vdiv (a : Vector3D) (k : R) : Vector3D :=
  V3 (vx a / k) (vy a / k) (vz a / k).

Definition norm (a : Vector3D) : R :=
  sqrt (vx a * vx a + vy a * vy a + vz a * vz a).

(** The mesh container of trimesh-impl.hh, reduced to what [Surface] uses:
    [setPoints] replaces the point array by a copy of its argument and
    leaves the triangles alone. *)
Record TriMesh : Type := Mesh {
  mesh_points : list Point3D;
  mesh_triangles : list (size_t * size_t * size_t)
}.

Definition setPoints (pv : list Point3D) (m : TriMesh) : TriMesh :=
  {| mesh_points := (fun p => V3 (vx p) (vy p) (vz p)) <$> pv;
     mesh_triangles := mesh_triangles m |}.

(** [TriMeshImpl::points]: the point array, copied back coordinate by
    coordinate. *)
Definition points (m : TriMesh) : list Point3D :=
  (fun p => V3 (vx p) (vy p) (vz p)) <$> mesh_points m.

End Geometry.

Export Geometry.

Declare Scope vec_scope.
Delimit Scope vec_scope with V.
Infix "+" := vadd : vec_scope.
Infix "-" := vsub : vec_scope.
Infix "*" := vscale : vec_scope.
Infix "/" := vdiv : vec_scope.
Notation "- a" := (vneg a) : vec_scope.

(** ** The data of a surface *)

(** A [std::shared_ptr<BSCurve>]: [None] is the null pointer, [Some a] the
    address of a curve object in the store. *)
Abbreviation CurvePtr := (option nat).

(** Modelled from the spec: ribbon.hh is not among the sources.  A ribbon
    "owns/refers to one Curve" and "holds weak references to previous/next
    ribbon"; the neighbours are handles into the surface's ribbon sequence.
    [RD] is whatever else the ribbon keeps between [update] and [eval]. *)
Record Ribbon (RD : Type) : Type := mkRibbon {
  r_curve : CurvePtr;
  r_neighbors : option (size_t * size_t);
  r_data : RD
}.

Arguments mkRibbon {RD} _ _ _.
Arguments r_curve {RD} _.
Arguments r_neighbors {RD} _.
Arguments r_data {RD} _.

(** Modelled from the spec: [CornerData] is declared in surface.hh, which is
    not among the sources; the fields are the five that [updateCorner] and
    [cornerCorrection] access. *)
Record CornerData : Type := mkCorner {
  point : Point3D;
  tangent1 : Vector3D;
  tangent2 : Vector3D;
  twist1 : Vector3D;
  twist2 : Vector3D
}.

(** The data members of [Surface]. *)
Record Surface (RD Dom Par : Type) : Type := mkSurface {
  n_ : size_t;
  use_gamma_ : bool;
  ribbons_ : list (option (Ribbon RD));
  corner_data_ : list CornerData;
  domain_ : Dom;
  param_ : Par
}.

Arguments mkSurface {RD Dom Par} _ _ _ _ _ _.
Arguments n_ {RD Dom Par} _.
Arguments use_gamma_ {RD Dom Par} _.
Arguments ribbons_ {RD Dom Par} _.
Arguments corner_data_ {RD Dom Par} _.
Arguments domain_ {RD Dom Par} _.
Arguments param_ {RD Dom Par} _.

(** ** The collaborators of [Surface]

    Curves, ribbons, the domain and the parameterization are used by
    surface.cc through their interfaces only (their sources are elsewhere);
    so are the virtual members [newRibbon] and [eval(uv)] of [Surface] and
    the constant [epsilon] of surface.hh.  The class collects these
    interfaces; everything below is parametric in an instance. *)
Class Collaborators : Type := {
  (** the tolerance constant [Surface::epsilon] *)
  epsilon : R;
  (** [BSCurve] *)
  BSCurve : Type;
  curve_eval : BSCurve → R → Point3D;
  (** [eval(t, order, der)]: the value of [der] afterwards *)
  curve_eval_der : BSCurve → R → size_t → list Vector3D;
  curve_normalize : BSCurve → BSCurve;
  curve_reverse : BSCurve → BSCurve;
  (** [Ribbon]: the state of a fresh ribbon, [update()] and [eval(sd)]; both
      may read the curves and the other ribbons *)
  RibbonData : Type;
  ribbon_fresh : RibbonData;
  ribbon_update :
    list BSCurve → list (option (Ribbon RibbonData)) →
    Ribbon RibbonData → RibbonData;
  ribbon_eval :
    list BSCurve → list (option (Ribbon RibbonData)) →
    Ribbon RibbonData → Point2D → Point3D;
  (** [Domain] and [Parameterization] *)
  Domain : Type;
  Parameterization : Type;
  domain_setSide : size_t → CurvePtr → Domain → Domain;
  domain_setSides : list CurvePtr → Domain → Domain;
  domain_update : list BSCurve → Domain → Domain * bool;
  domain_meshTopology : Domain → size_t → TriMesh;
  domain_parameters : Domain → size_t → list Point2D;
  param_update : Domain → Parameterization → Parameterization;
  (** the value a default-constructed [CornerData] holds *)
  corner_default : CornerData;
  (** the virtual [Surface::eval(const Point2D &)] *)
  eval_uv :
    list BSCurve → Surface RibbonData Domain Parameterization →
    Point2D → Point3D
}.

(** The store of curve objects, and ribbons and surfaces over the
    collaborators' types. *)
Abbreviation CurveStore := (list BSCurve).

Abbreviation RibbonT := (Ribbon RibbonData).

Abbreviation SurfaceT := (Surface RibbonData Domain Parameterization).

Section SurfaceModel.

Context `{Collaborators}.

(** Modelled from the spec: [next] and [prev] are defined in surface.hh,
    which is not among the sources: "indices are cyclic modulo N
    (next(i) = (i+1)%N, prev(i) = (i+N-1)%N)". *)
Definition next (s : SurfaceT) (i : size_t) : size_t := ((i + 1) mod n_ s)%N.

Definition prev (s : SurfaceT) (i : size_t) : size_t :=
  ((i + n_ s - 1) mod n_ s)%N.

(** [Surface::Surface()] *)
Definition Surface_new (d : Domain) (p : Parameterization) : SurfaceT :=
  mkSurface 0%N true [] [] d p.

(** [Surface::setGamma] *)
Definition setGamma (use_gamma : bool) (s : SurfaceT) : SurfaceT :=
  mkSurface (n_ s) use_gamma (ribbons_ s) (corner_data_ s) (domain_ s) (param_ s).

(** [Surface::gamma] *)
Definition gamma (s : SurfaceT) (d : R) : R :=
  if use_gamma_ s then (d / (2 * d + 1))%R else d.

(** [Surface::rationalTwist] *)
Definition rationalTwist (u v : R) (f g : Vector3D) : Vector3D :=
  if bool_decide (Rabs (u + v) < epsilon)%R then V3 0 0 0
  else ((f * u + g * v) / (u + v)%R)%V.

(** [Surface::blendHermite] *)
Definition blendHermite (x : R) : R :=
  let x2 := (x * x)%R in (2 * x * x2 - 3 * x2 + 1)%R.

(** The test [sd[1] < epsilon] of the two blend functions. *)
Definition near_boundary (sd : Point2D) : bool := bool_decide (sd.2 < epsilon)%R.

(** The counting loop that opens both blend functions. *)
Definition close_to_boundary (sds : list Point2D) : size_t :=
  fold_left (fun c sd => if near_boundary sd then N.succ c else c) sds 0%N.

(** [std::pow(x, -2)] *)
Definition pow_m2 (x : R) : R := powerRZ x (-2).

(** [x / denominator] for every [x], with [denominator] accumulated from
    0.0 in the order of the vector. *)
Definition normalized (blf : list R) : list R :=
  let denominator := fold_left Rplus blf 0%R in
  (fun x => (x / denominator)%R) <$> blf.

(** [Surface::blendCorner] *)
Definition blendCorner (s : SurfaceT) (sds : list Point2D) : option (list R) :=
  let close := close_to_boundary sds in
  if (0 <? close)%N then
    mapM (fun i =>
      let ip := next s i in
      sd_i ← at_ sds i;
      if (1 <? close)%N then
        if near_boundary sd_i then
          sd_ip ← at_ sds ip;
          Some (if near_boundary sd_ip then 1%R else 0%R)
        else Some 0%R
      else if near_boundary sd_i then
        sd_ip ← at_ sds ip;
        let tmp := pow_m2 sd_ip.2 in
        sd_pr ← at_ sds (prev s i);
        Some (tmp / (tmp + pow_m2 sd_pr.2))%R
      else
        sd_ip ← at_ sds ip;
        if near_boundary sd_ip then
          let tmp := pow_m2 sd_i.2 in
          sd_nn ← at_ sds (next s ip);
          Some (tmp / (tmp + pow_m2 sd_nn.2))%R
        else Some 0%R) (iota (n_ s))
  else
    blf ← mapM (fun i =>
      sd_i ← at_ sds i;
      sd_ip ← at_ sds (next s i);
      Some (pow_m2 (sd_i.2 * sd_ip.2))) (iota (n_ s));
    Some (normalized blf).

(** [Surface::blendSideSingular] *)
Definition blendSideSingular (s : SurfaceT) (sds : list Point2D) : list R :=
  let close := close_to_boundary sds in
  if (0 <? close)%N then
    let blend_val := (1 / IZR (Z.of_N close))%R in
    (fun sd => if near_boundary sd then blend_val else 0%R) <$> sds
  else
    normalized ((fun sd => pow_m2 sd.2) <$> sds).

(** *** Field updates *)

Definition with_ribbons (rs : list (option RibbonT)) (s : SurfaceT) : SurfaceT :=
  mkSurface (n_ s) (use_gamma_ s) rs (corner_data_ s) (domain_ s) (param_ s).

Definition with_corner_data (cds : list CornerData) (s : SurfaceT) : SurfaceT :=
  mkSurface (n_ s) (use_gamma_ s) (ribbons_ s) cds (domain_ s) (param_ s).

Definition with_domain (d : Domain) (p : Parameterization) (s : SurfaceT)
  : SurfaceT :=
  mkSurface (n_ s) (use_gamma_ s) (ribbons_ s) (corner_data_ s) d p.

Definition set_point (p : Point3D) (c : CornerData) : CornerData :=
  mkCorner p (tangent1 c) (tangent2 c) (twist1 c) (twist2 c).

Definition set_tangent1 (v : Vector3D) (c : CornerData) : CornerData :=
  mkCorner (point c) v (tangent2 c) (twist1 c) (twist2 c).

Definition set_tangent2 (v : Vector3D) (c : CornerData) : CornerData :=
  mkCorner (point c) (tangent1 c) v (twist1 c) (twist2 c).

Definition set_twist1 (v : Vector3D) (c : CornerData) : CornerData :=
  mkCorner (point c) (tangent1 c) (tangent2 c) v (twist2 c).

(** *** Ribbons and their curves *)

(** [newRibbon()]: a ribbon without a curve and without neighbours;
    [Ribbon::setCurve] and [Ribbon::setNeighbors] fill them in. *)
Definition newRibbon : RibbonT := mkRibbon None None ribbon_fresh.

Definition Ribbon_setCurve (curve : CurvePtr) (r : RibbonT) : RibbonT :=
  mkRibbon curve (r_neighbors r) (r_data r).

Definition Ribbon_setNeighbors (p n : size_t) (r : RibbonT) : RibbonT :=
  mkRibbon (r_curve r) (Some (p, n)) (r_data r).

(** [ribbons_[i]->...]: the ribbon behind the pointer in slot [i]; undefined
    when [i] is out of range or the pointer is null. *)
Definition ribbon_at (rs : list (option RibbonT)) (i : size_t) : option RibbonT :=
  mjoin (at_ rs i).

(** [r->curve()->...]: the address and the curve object of a ribbon. *)
Definition curve_of (cs : CurveStore) (r : RibbonT) : option (nat * BSCurve) :=
  a ← r_curve r; c ← cs !! a; Some (a, c).

(** [ribbons_[i]->curve()->...] *)
Definition curve_at (cs : CurveStore) (rs : list (option RibbonT)) (i : size_t)
  : option (nat * BSCurve) :=
  r ← ribbon_at rs i; curve_of cs r.

(** *** Setting the curves *)

(** [Surface::setCurve] *)
Definition setCurve (i : size_t) (curve : CurvePtr) (s : SurfaceT)
  : option SurfaceT :=
  let s1 :=
    if (n_ s <=? i)%N then
      mkSurface (wrap (i + 1)) (use_gamma_ s)
        (resize_vec (wrap (i + 1)) None (ribbons_ s))
        (corner_data_ s) (domain_ s) (param_ s)
    else s in
  rs ← assign (ribbons_ s1) i (Some (Ribbon_setCurve curve newRibbon));
  Some (with_domain (domain_setSide i curve (domain_ s1)) (param_ s1)
          (with_ribbons rs s1)).

(** [Surface::setCurves] *)
Definition setCurves (curves : list CurvePtr) (s : SurfaceT) : SurfaceT :=
  mkSurface (N.of_nat (length curves)) (use_gamma_ s)
    ((fun c => Some (Ribbon_setCurve c newRibbon)) <$> curves)
    (corner_data_ s) (domain_setSides curves (domain_ s)) (param_ s).

(** *** [Surface::setupLoop] *)

(** The state [setupLoop] works on: the curve objects and the surface. *)
Record State : Type := mkState { store : CurveStore; surf : SurfaceT }.

(** First loop: [ribbons_[i]->curve()->normalize()]. *)
Definition normalize_step (i : size_t) (σ : State) : option State :=
  '(a, c) ← curve_at (store σ) (ribbons_ (surf σ)) i;
  Some (mkState (<[a := curve_normalize c]> (store σ)) (surf σ)).

(** The condition under which the second loop reverses the curve of
    ribbon [i]: the [if] of the branch [i == 0], and the [if] of the branch
    for the other indices. *)
Definition must_reverse (cs : CurveStore) (s : SurfaceT) (i : size_t)
  : option bool :=
  if (i =? 0)%N then
    '(_, c) ← curve_at cs (ribbons_ s) i;
    let r_start := curve_eval c 0 in
    let r_end := curve_eval c 1 in
    '(_, cn) ← curve_at cs (ribbons_ s) (next s i);
    let rn_start := curve_eval cn 0 in
    let rn_end := curve_eval cn 1 in
    let end_to_start := norm (r_end - rn_start)%V in
    let end_to_end := norm (r_end - rn_end)%V in
    let start_to_start := norm (r_start - rn_start)%V in
    let start_to_end := norm (r_start - rn_end)%V in
    Some (bool_decide
            (Rmin start_to_start start_to_end < Rmin end_to_start end_to_end)%R)
  else
    '(_, c) ← curve_at cs (ribbons_ s) i;
    let r_start := curve_eval c 0 in
    let r_end := curve_eval c 1 in
    '(_, cp) ← curve_at cs (ribbons_ s) (prev s i);
    let rp_end := curve_eval cp 1 in
    Some (bool_decide (norm (r_end - rp_end)%V < norm (r_start - rp_end)%V)%R).

(** [ribbons_[i]->curve()->reverse(); ribbons_[i]->curve()->normalize();] *)
Definition reverse_curve (i : size_t) (σ : State) : option State :=
  '(a, c) ← curve_at (store σ) (ribbons_ (surf σ)) i;
  Some (mkState (<[a := curve_normalize (curve_reverse c)]> (store σ)) (surf σ)).

(** Body of the second loop. *)
Definition orient_step (i : size_t) (σ : State) : option State :=
  let s := surf σ in
  _ ← at_ (ribbons_ s) (prev s i);
  _ ← at_ (ribbons_ s) (next s i);
  r ← ribbon_at (ribbons_ s) i;
  rs ← assign (ribbons_ s) i
         (Some (Ribbon_setNeighbors (prev s i) (next s i) r));
  let σ1 := mkState (store σ) (with_ribbons rs s) in
  b ← must_reverse (store σ1) (surf σ1) i;
  if b : bool then reverse_curve i σ1 else Some σ1.

(** The two loops of [setupLoop]. *)
Definition normalize_curves (σ : State) : option State :=
  for_each normalize_step (iota (n_ (surf σ))) σ.

Definition orient_curves (σ : State) : option State :=
  for_each orient_step (iota (n_ (surf σ))) σ.

Definition setupLoop (σ : State) : option State :=
  σ1 ← normalize_curves σ; orient_curves σ1.

(** *** Corner data *)

Definition step : R := 1 / 10000.

(** [Surface::updateCorner]: the assignments to [corner_data_[i]], in the
    order of the source.  [next(i)] divides by [n_], so that the call is
    undefined on a surface without sides. *)
Definition updateCorner (cs : CurveStore) (i : size_t) (s : SurfaceT)
  : option SurfaceT :=
  if (n_ s =? 0)%N then None else
  let ip := next s i in
  r ← ribbon_at (ribbons_ s) i;
  '(_, c) ← curve_of cs r;
  let der := curve_eval_der c 1 1%N in
  cd ← at_ (corner_data_ s) i;
  der0 ← der !! 0%nat;
  let cd := set_point der0 cd in
  der1 ← der !! 1%nat;
  let cd := set_tangent1 (- der1)%V cd in
  rip ← ribbon_at (ribbons_ s) ip;
  '(_, cip) ← curve_of cs rip;
  let der := curve_eval_der cip 0 1%N in
  der1 ← der !! 1%nat;
  let cd := set_tangent2 der1 cd in
  let d1 := ribbon_eval cs (ribbons_ s) r (1, 1)%R in
  let d2 := ribbon_eval cs (ribbons_ s) r (1 - step, 1)%R in
  let cd := set_twist1 ((d2 - d1) / step)%V cd in
  let d1 := ribbon_eval cs (ribbons_ s) rip (0, 1)%R in
  let d2 := ribbon_eval cs (ribbons_ s) rip (step, 1)%R in
  let cd := set_twist1 ((d2 - d1) / step)%V cd in
  cds ← assign (corner_data_ s) i cd;
  Some (with_corner_data cds s).

(** [Surface::updateCorners] *)
Definition updateCorners (cs : CurveStore) (s : SurfaceT) : option SurfaceT :=
  let s1 := with_corner_data (resize_vec (n_ s) corner_default (corner_data_ s)) s in
  for_each (updateCorner cs) (iota (n_ s1)) s1.

(** [if (domain_->update()) param_->update();] *)
Definition refresh_domain (cs : CurveStore) (s : SurfaceT) : SurfaceT :=
  let '(d, changed) := domain_update cs (domain_ s) in
  with_domain d (if changed : bool then param_update d (param_ s) else param_ s) s.

(** [ribbons_[k]->update()] *)
Definition update_ribbon (cs : CurveStore) (k : size_t) (s : SurfaceT)
  : option SurfaceT :=
  r ← ribbon_at (ribbons_ s) k;
  rs ← assign (ribbons_ s) k
         (Some (mkRibbon (r_curve r) (r_neighbors r)
                  (ribbon_update cs (ribbons_ s) r)));
  Some (with_ribbons rs s).

(** [Surface::update(size_t)] *)
Definition update_one (cs : CurveStore) (i : size_t) (s : SurfaceT)
  : option SurfaceT :=
  let s := refresh_domain cs s in
  s ← update_ribbon cs i s;
  if (n_ s =? 0)%N then None else
  s ← updateCorner cs (prev s i) s;
  updateCorner cs i s.

(** [Surface::update()] *)
Definition update (cs : CurveStore) (s : SurfaceT) : option SurfaceT :=
  let s := refresh_domain cs s in
  s ← for_each (update_ribbon cs)
        (iota (N.of_nat (length (ribbons_ s)))) s;
  updateCorners cs s.

(** [Surface::ribbon] *)
Definition ribbon (s : SurfaceT) (i : size_t) : option (option RibbonT) :=
  at_ (ribbons_ s) i.

(** *** Evaluation *)

(** [Surface::eval(size_t)] *)
Definition eval (cs : CurveStore) (s : SurfaceT) (resolution : size_t)
  : TriMesh :=
  let mesh := domain_meshTopology (domain_ s) resolution in
  let uvs := domain_parameters (domain_ s) resolution in
  let points := eval_uv cs s <$> uvs in
  setPoints points mesh.

(** [std::min(std::max(x, 0.0), 1.0)] *)
Definition clamp01 (x : R) : R := Rmin (Rmax x 0) 1.

(** [Surface::cornerCorrection] *)
Definition cornerCorrection (s : SurfaceT) (i : size_t) (si si1 : R)
  : option Point3D :=
  let si := clamp01 si in
  let si1 := clamp01 si1 in
  cd ← at_ (corner_data_ s) i;
  Some (point cd
        + tangent1 cd * gamma s si
        + tangent2 cd * gamma s si1
        + rationalTwist si si1 (twist1 cd) (twist2 cd)
          * gamma s si * gamma s si1)%V.

(** [Surface::sideInterpolant] *)
Definition sideInterpolant (cs : CurveStore) (s : SurfaceT) (i : size_t)
  (si di : R) : option Point3D :=
  let si := clamp01 si in
  let di := Rmax (gamma s di) 0 in
  r ← ribbon_at (ribbons_ s) i;
  Some (ribbon_eval cs (ribbons_ s) r (si, di)).

End SurfaceModel.

(** ** Arithmetic on [double]

    A [double] operation returns the exact result rounded to the nearest
    double.  [Rounding] names that rounding and the constants of the
    format.  [rounding_error] is the usual model of one rounding: the
    result is off by at most [roundoff] times the exact one, or by half a
    subnormal step.  [rounding_order] collects the order that
    round-to-nearest keeps and the results that are exact.  Binary64 with
    round-to-nearest-even satisfies both below its overflow threshold, with
    [roundoff = 2^-53], [min_normal = 2^-1022] and [max_finite] the largest
    double; [rnd] stands for the rounding of a format without overflow,
    and the error bound is asked of results up to [max_finite] only.
    [std::pow] is a library function: [pow_m2_rnd x] is the double it
    returns for [std::pow(x, -2)]. *)
Class Rounding : Type := {
  rnd : R → R;
  roundoff : R;
  min_normal : R;
  max_finite : R;
  pow_m2_rnd : R → R
}.

Record rounding_error `{Rounding} : Prop := {
  (** the constants of the format *)
  roundoff_nonneg : (0 <= roundoff)%R;
  min_normal_range : (0 < min_normal ∧ min_normal <= 1 / 4)%R;
  max_finite_range : (4 <= max_finite)%R;
  (** zero is a double *)
  rnd_of_zero : rnd 0 = 0%R;
  (** the error of one rounding: relative for a normal result, at most
      half a subnormal step below *)
  rnd_error : ∀ x : R,
    (Rabs x <= max_finite →
     Rabs (rnd x - x) <= roundoff * Rmax (Rabs x) min_normal)%R
}.

Record rounding_order `{Rounding} : Prop := {
  (** rounding keeps the order and leaves a double as it is *)
  rnd_mono : ∀ x y : R, (x <= y → rnd x <= rnd y)%R;
  rnd_idem : ∀ x : R, rnd (rnd x) = rnd x;
  (** doubling a double, the integers up to 2^53 and 1/2 are exact *)
  rnd_double : ∀ x : R, rnd (2 * rnd x) = (2 * rnd x)%R;
  rnd_int : ∀ z : Z, (Z.abs z <= 2 ^ 53)%Z → rnd (IZR z) = IZR z;
  rnd_half : rnd (1 / 2) = (1 / 2)%R;
  (** [std::pow] returns a double *)
  pow_m2_double : ∀ x : R, rnd (pow_m2_rnd x) = pow_m2_rnd x
}.

Section RoundedModel.

Context `{Collaborators} `{Rounding}.

(** [Surface::gamma], with every operation rounded. *)
Definition gamma_fl (s : SurfaceT) (d : R) : R :=
  if use_gamma_ s then rnd (d / rnd (rnd (2 * d) + 1))%R else d.

(** [Surface::blendHermite], with every operation rounded. *)
Definition blendHermite_fl (x : R) : R :=
  let x2 := rnd (x * x)%R in
  rnd (rnd (rnd (rnd (2 * x) * x2) - rnd (3 * x2)) + 1)%R.

(** [x / denominator] for every [x], with [denominator] accumulated from
    0.0 in the order of the vector, every operation rounded. *)
Definition normalized_fl (blf : list R) : list R :=
  let denominator := fold_left (fun acc x => rnd (acc + x)%R) blf 0%R in
  (fun x => rnd (x / denominator)%R) <$> blf.

(** [Surface::blendCorner], with every operation rounded. *)
Definition blendCorner_fl (s : SurfaceT) (sds : list Point2D)
  : option (list R) :=
  let close := close_to_boundary sds in
  if (0 <? close)%N then
    mapM (fun i =>
      let ip := next s i in
      sd_i ← at_ sds i;
      if (1 <? close)%N then
        if near_boundary sd_i then
          sd_ip ← at_ sds ip;
          Some (if near_boundary sd_ip then 1%R else 0%R)
        else Some 0%R
      else if near_boundary sd_i then
        sd_ip ← at_ sds ip;
        let tmp := pow_m2_rnd sd_ip.2 in
        sd_pr ← at_ sds (prev s i);
        Some (rnd (tmp / rnd (tmp + pow_m2_rnd sd_pr.2)))%R
      else
        sd_ip ← at_ sds ip;
        if near_boundary sd_ip then
          let tmp := pow_m2_rnd sd_i.2 in
          sd_nn ← at_ sds (next s ip);
          Some (rnd (tmp / rnd (tmp + pow_m2_rnd sd_nn.2)))%R
        else Some 0%R) (iota (n_ s))
  else
    blf ← mapM (fun i =>
      sd_i ← at_ sds i;
      sd_ip ← at_ sds (next s i);
      Some (pow_m2_rnd (rnd (sd_i.2 * sd_ip.2)%R))) (iota (n_ s));
    Some (normalized_fl blf).

(** [Surface::blendSideSingular], with every operation rounded (the count
    [close_to_boundary] converts to [double] without rounding). *)
Definition blendSideSingular_fl (s : SurfaceT) (sds : list Point2D) : list R :=
  let close := close_to_boundary sds in
  if (0 <? close)%N then
    let blend_val := rnd (1 / IZR (Z.of_N close))%R in
    (fun sd => if near_boundary sd then blend_val else 0%R) <$> sds
  else
    normalized_fl ((fun sd => pow_m2_rnd sd.2) <$> sds).

End RoundedModel.

(** ** Binary64

    The scalar functions on binary64 itself, to run them on concrete
    doubles. *)
Module Binary64.

Import PrimFloat.

Section Scalar.

Context `{Collaborators}.

(** [Surface::gamma] *)
Definition gamma_b64 (s : SurfaceT) (d : float) : float :=
  if use_gamma_ s then (d / (2 * d + 1))%float else d.

End Scalar.

(** [Surface::blendHermite] *)
Definition blendHermite_b64 (x : float) : float :=
  let x2 := (x * x)%float in (2 * x * x2 - 3 * x2 + 1)%float.

(** Two adjacent doubles just above 3/4, and a double just below 1. *)
Definition above_three_quarters : float := 0x1.8000000000009p-1%float.
Definition next_above_three_quarters : float := 0x1.800000000000ap-1%float.
Definition below_one : float := 0x1.ffffffffffffdp-1%float.

(** Two adjacent doubles just above 9/10; the doubles nearest to 1/5 and to
    4/5, whose sum is the double 1. *)
Definition above_nine_tenths : float := 0x1.cccccccccccd2p-1%float.
Definition next_above_nine_tenths : float := 0x1.cccccccccccd3p-1%float.
Definition one_fifth : float := 0x1.999999999999ap-3%float.
Definition four_fifths : float := 0x1.999999999999ap-1%float.

(** The two doubles just below 1/2, and 2^53. *)
Definition below_half : float := 0x1.ffffffffffffep-2%float.
Definition next_below_half : float := 0x1.fffffffffffffp-2%float.
Definition two_pow_53 : float := 0x1p+53%float.

End Binary64.

(** ** Notions the statements use *)

(** The sum of a weight vector. *)
Definition Rsum (ws : list R) : R := foldr Rplus 0%R ws.

Section Notions.

Context `{Collaborators}.

(** The number of sides whose distance passes the test [sd[1] < epsilon]. *)
Definition boundary_sides (sds : list Point2D) : nat :=
  length (filter (fun sd => near_boundary sd = true) sds).

(** Corner [i] lies between two sides that both pass the test. *)
Definition boundary_corner (s : SurfaceT) (sds : list Point2D) (i : size_t) : bool :=
  match at_ sds i, at_ sds (next s i) with
  | Some sd_i, Some sd_ip => near_boundary sd_i && near_boundary sd_ip
  | _, _ => false
  end.

Definition boundary_corners (s : SurfaceT) (sds : list Point2D) : nat :=
  length (filter (fun i => boundary_corner s sds i = true) (iota (n_ s))).

(** Distance and boundary test of side [i], for an index in range. *)
Definition side_distance (sds : list Point2D) (i : size_t) : R :=
  from_option snd 0%R (at_ sds i).

Definition side_near (sds : list Point2D) (i : size_t) : bool :=
  from_option near_boundary false (at_ sds i).

(** The weight [blendCorner] gives corner [i] when exactly one side is on
    the boundary. *)
Definition single_weight (s : SurfaceT) (sds : list Point2D) (i : size_t) : R :=
  if side_near sds i then
    (pow_m2 (side_distance sds (next s i))
     / (pow_m2 (side_distance sds (next s i))
        + pow_m2 (side_distance sds (prev s i))))%R
  else if side_near sds (next s i) then
    (pow_m2 (side_distance sds i)
     / (pow_m2 (side_distance sds i)
        + pow_m2 (side_distance sds (next s (next s i)))))%R
  else 0%R.

(** [ribbons_.size() == n_] *)
Definition ribbons_sized (s : SurfaceT) : Prop :=
  N.of_nat (length (ribbons_ s)) = n_ s.

(** [ribbons_.size() == n_ == corner_data_.size()] *)
Definition sizes_agree (s : SurfaceT) : Prop :=
  N.of_nat (length (ribbons_ s)) = n_ s ∧
  n_ s = N.of_nat (length (corner_data_ s)).

(** Every slot below [n_] holds a ribbon whose curve pointer refers to a
    curve object: the surface is one on which the member functions do not
    run into a null pointer. *)
Definition curves_set (cs : CurveStore) (s : SurfaceT) : Prop :=
  ∀ i : size_t, (i < n_ s)%N → is_Some (curve_at cs (ribbons_ s) i).

(** What the ribbon updates of [update] keep of a surface: the sizes, the
    corner data and the curve every ribbon refers to. *)
Definition same_shape (s s' : SurfaceT) : Prop :=
  n_ s' = n_ s ∧ corner_data_ s' = corner_data_ s ∧
  length (ribbons_ s') = length (ribbons_ s) ∧
  ∀ j, r_curve <$> ribbon_at (ribbons_ s') j = r_curve <$> ribbon_at (ribbons_ s) j.

(** The curve object at address [a] is the result of a normalisation. *)
Definition normalized_at (cs : CurveStore) (a : nat) : Prop :=
  ∃ c', cs !! a = Some (curve_normalize c').





(** The corner data [updateCorner] derives from the curves of ribbon [i]
    and of the next ribbon: the end point of curve [i], its derivative
    there, negated, and the derivative of the next curve at its start. *)
Definition corner_of (cs : CurveStore) (s : SurfaceT) (i : size_t)
    (cd : CornerData) : Prop :=
  ∃ c cn der0 der1 dern,
    snd <$> curve_at cs (ribbons_ s) i = Some c ∧
    snd <$> curve_at cs (ribbons_ s) (next s i) = Some cn ∧
    curve_eval_der c 1 1%N !! 0%nat = Some der0 ∧
    curve_eval_der c 1 1%N !! 1%nat = Some der1 ∧
    curve_eval_der cn 0 1%N !! 1%nat = Some dern ∧
    point cd = der0 ∧ tangent1 cd = (- der1)%V ∧ tangent2 cd = dern.

(** [eval(t, order, der)] leaves [order + 1] vectors in [der]. *)
Definition der_filled : Prop :=
  ∀ (c : BSCurve) (t : R) (k : size_t),
    length (curve_eval_der c t k) = S (N.to_nat k).

(** The states a program reaches through the public members of [Surface];
    the curve objects belong to the caller, who may change them between two
    calls. *)
Inductive reachable : State → Prop :=
| reach_new cs d p : reachable (mkState cs (Surface_new d p))
| reach_caller cs cs' s : reachable (mkState cs s) → reachable (mkState cs' s)
| reach_setGamma cs s b :
    reachable (mkState cs s) → reachable (mkState cs (setGamma b s))
| reach_setCurve cs s i c s' :
    reachable (mkState cs s) → (i < SIZE_MOD)%N → setCurve i c s = Some s' →
    reachable (mkState cs s')
| reach_setCurves cs s curves :
    reachable (mkState cs s) → reachable (mkState cs (setCurves curves s))
| reach_setupLoop σ σ' : reachable σ → setupLoop σ = Some σ' → reachable σ'
| reach_update_one cs s i s' :
    reachable (mkState cs s) → update_one cs i s = Some s' →
    reachable (mkState cs s')
| reach_update cs s s' :
    reachable (mkState cs s) → update cs s = Some s' →
    reachable (mkState cs s').

(** The finite difference [(d2 - d1) / step] of [updateCorner], taken on
    ribbon [r] between [s = 0] and [s = step] at [d = 1]. *)
Definition twist_next (cs : CurveStore) (rs : list (option RibbonT)) (r : RibbonT)
  : Vector3D :=
  ((ribbon_eval cs rs r (step, 1%R) - ribbon_eval cs rs r (0%R, 1%R)) / step)%V.

(** The closed loop of the specification: after the curves are normalised,
    the end point of every curve is the start point of the next one. *)
Definition closed_loop (cs : CurveStore) (s : SurfaceT) : Prop :=
  ∀ i : size_t, (i < n_ s)%N →
    ∃ c cn, snd <$> curve_at cs (ribbons_ s) i = Some c ∧
            snd <$> curve_at cs (ribbons_ s) (next s i) = Some cn ∧
            curve_eval c 1 = curve_eval cn 0.

End Notions.

(** ** Notions of the rounded functions *)

Section RoundedNotions.

Context `{Collaborators} `{Rounding}.

(** The term of side [i] that both blend functions compute:
    [std::pow(d_i, -2)]. *)
Definition side_term_fl (sds : list Point2D) (i : size_t) : R :=
  pow_m2_rnd (side_distance sds i).

(** The term of corner [i] that [blendCorner] normalises on an interior
    input: [std::pow(d_i * d_next(i), -2)]. *)
Definition corner_term_fl (s : SurfaceT) (sds : list Point2D) (i : size_t) : R :=
  pow_m2_rnd (rnd (side_distance sds i * side_distance sds (next s i))%R).

(** The weight [blendCorner] gives corner [i] when exactly one side is on
    the boundary, every operation rounded. *)
Definition single_weight_fl (s : SurfaceT) (sds : list Point2D) (i : size_t) : R :=
  if side_near sds i then
    rnd (side_term_fl sds (next s i)
         / rnd (side_term_fl sds (next s i) + side_term_fl sds (prev s i)))%R
  else if side_near sds (next s i) then
    rnd (side_term_fl sds i
         / rnd (side_term_fl sds i + side_term_fl sds (next s (next s i))))%R
  else 0%R.

(** The terms of the sides that fail the test, and of the corners, lie in
    [[a, b]]. *)
Definition side_terms_within (s : SurfaceT) (sds : list Point2D) (a b : R)
  : Prop :=
  ∀ i, (i < n_ s)%N → side_near sds i = false →
       (a <= side_term_fl sds i ∧ side_term_fl sds i <= b)%R.

Definition corner_terms_within (s : SurfaceT) (sds : list Point2D) (a b : R)
  : Prop :=
  ∀ i, (i < n_ s)%N →
       (a <= corner_term_fl s sds i ∧ corner_term_fl s sds i <= b)%R.

(** A range [[a, b]] of terms in which [n] of them can be accumulated and
    divided by their sum without underflow or overflow, for a number of
    terms whose roundings stay small. *)
Definition sum_range (n : nat) (a b : R) : Prop :=
  ((INR n + 1) * roundoff <= 1 / 2 ∧
   min_normal <= a ∧ a <= b ∧
   2 * INR n * b <= max_finite ∧
   2 * INR n * b * min_normal <= a)%R.

End RoundedNotions.

(** ** A concrete world: straight segments

    An instance of the collaborators, used to run the model on concrete
    inputs: curves are straight segments with a parameter interval. *)
Module Segments.

Record Segment : Type := mkSeg {
  seg_from : Point3D;
  seg_to : Point3D;
  seg_lo : R;
  seg_hi : R
}.

Definition seg_eval (c : Segment) (t : R) : Point3D :=
  (seg_from c
   + (seg_to c - seg_from c) * ((t - seg_lo c) / (seg_hi c - seg_lo c))%R)%V.

Definition seg_eval_der (c : Segment) (t : R) (k : size_t) : list Vector3D :=
  take (S (N.to_nat k))
    ([seg_eval c t; ((seg_to c - seg_from c) / (seg_hi c - seg_lo c)%R)%V]
     ++ replicate (N.to_nat k) vzero).

Definition seg_normalize (c : Segment) : Segment :=
  mkSeg (seg_from c) (seg_to c) 0 1.

Definition seg_reverse (c : Segment) : Segment :=
  mkSeg (seg_to c) (seg_from c) (seg_lo c) (seg_hi c).

(** A ribbon over a segment: the curve point, lifted by [d] along z. *)
Definition seg_ribbon_eval (cs : list Segment) (r : Ribbon unit) (sd : Point2D)
  : Point3D :=
  match r_curve r ≫= (fun a => cs !! a) with
  | Some c => (seg_eval c sd.1 + V3 0 0 sd.2)%V
  | None => vzero
  end.

#[export] Instance world : Collaborators := {|
  epsilon := (1 / 100000000)%R;
  BSCurve := Segment;
  curve_eval := seg_eval;
  curve_eval_der := seg_eval_der;
  curve_normalize := seg_normalize;
  curve_reverse := seg_reverse;
  RibbonData := unit;
  ribbon_fresh := tt;
  ribbon_update := fun _ _ _ => tt;
  ribbon_eval := fun cs _ r sd => seg_ribbon_eval cs r sd;
  Domain := unit;
  Parameterization := unit;
  domain_setSide := fun _ _ d => d;
  domain_setSides := fun _ d => d;
  domain_update := fun _ d => (d, false);
  domain_meshTopology := fun _ _ => Mesh [] [];
  domain_parameters := fun _ _ => [];
  param_update := fun _ p => p;
  corner_default := mkCorner vzero vzero vzero vzero vzero;
  eval_uv := fun _ _ _ => vzero
|}.

(** A surface of [n] sides with nothing else set. *)
Definition bare (n : size_t) : SurfaceT := mkSurface n true [] [] tt tt.

(** Four sides, sides 0 and 2 on the boundary: no corner lies between two
    boundary sides. *)
Definition opposite_sides : list Point2D :=
  [(0, 0); (0, 1); (0, 0); (0, 1)]%R.

(** Four sides, the adjacent sides 0 and 1 on the boundary: the point is at
    the corner between them. *)
Definition adjacent_sides : list Point2D :=
  [(0, 0); (0, 0); (0, 1); (0, 1)]%R.

(** The same distances at other positions along the sides. *)
Definition adjacent_sides_moved : list Point2D :=
  [(1, 0); (1, 0); (1, 1); (1, 1)]%R.

(** Four sides, side 0 alone on the boundary. *)
Definition one_side : list Point2D :=
  [(0, 0); (0, 1); (0, 1); (0, 1)]%R.

(** The unit triangle (0,0,0) - (1,0,0) - (0,1,0) as a closed loop. *)
Definition P0 : Point3D := V3 0 0 0.
Definition P1 : Point3D := V3 1 0 0.
Definition P2 : Point3D := V3 0 1 0.

Definition triangle_curves : CurveStore :=
  [mkSeg P0 P1 0 1; mkSeg P1 P2 0 1; mkSeg P2 P0 0 1].

Definition triangle : SurfaceT :=
  setCurves [Some 0%nat; Some 1%nat; Some 2%nat] (Surface_new tt tt).

Definition triangle_state : State := mkState triangle_curves triangle.

(** The triangle with a corner vector of the right size. *)
Definition triangle_cornered : SurfaceT :=
  with_corner_data (replicate 3 corner_default) triangle.

(** Three sides, none on the boundary: every distance is 1. *)
Definition far_sides : list Point2D := [(0, 1); (0, 1); (0, 1)]%R.

(** A surface with a single corner whose two twists differ. *)
Definition twisted_corner : SurfaceT :=
  with_corner_data [mkCorner vzero vzero vzero (V3 1 0 0) vzero] (bare 1).

End Segments.

(** ** Two roundings

    Instances of [Rounding], to relate the rounded functions to the exact
    ones and to run them on concrete inputs. *)
Module Arithmetic.

(** Exact arithmetic, with the constants of binary64: every real is its own
    rounding. *)
Definition exact : Rounding := {|
  rnd := fun x => x;
  roundoff := (/ 2 ^ 53)%R;
  min_normal := (/ 2 ^ 1022)%R;
  max_finite := ((2 - / 2 ^ 52) * 2 ^ 1023)%R;
  pow_m2_rnd := pow_m2
|}.

(** A small format that does round: the multiples of [2^-20], to nearest
    with ties upwards.  One rounding is off by at most [2^-21], which is
    [roundoff * min_normal] for [roundoff = 2^-11] and
    [min_normal = 2^-10]. *)
Definition grid_rnd (x : R) : R :=
  (IZR (Int_part (x * 1048576 + 1 / 2)) / 1048576)%R.

#[export] Instance grid : Rounding := {|
  rnd := grid_rnd;
  roundoff := (1 / 2048)%R;
  min_normal := (1 / 1024)%R;
  max_finite := 1048576%R;
  pow_m2_rnd := fun x => grid_rnd (pow_m2 x)
|}.

End Arithmetic.

(** ** Properties *)

Section Properties.

Context `{Collaborators}.

Local Open Scope R_scope.

(** *** Arithmetic of the weight vectors *)

Lemma fold_left_Rplus (l : list R) (a : R) : fold_left Rplus l a = a + Rsum l.
Proof.
  revert a. induction l as [|x l IH]; intros a; simpl.
  - lra.
  - rewrite IH. lra.
Qed.

Lemma Rsum_cons (x : R) (l : list R) : Rsum (x :: l) = x + Rsum l.
Proof. reflexivity. Qed.

Lemma normalized_eq (l : list R) :
  normalized l = (fun x => x / Rsum l) <$> l.
Proof. unfold normalized. rewrite fold_left_Rplus. now rewrite Rplus_0_l. Qed.

Lemma pow_m2_inv (x : R) : pow_m2 x = / (x * x).
Proof. unfold pow_m2. simpl. now rewrite Rmult_1_r. Qed.

Lemma Rsum_pos (l : list R) : l ≠ [] → Forall (fun x => 0 < x) l → 0 < Rsum l.
Proof.
  intros Hne Hall. destruct Hall as [|x l Hx Hl]; [done|].
  rewrite Rsum_cons. clear Hne.
  assert (0 <= Rsum l); [|lra].
  induction Hl as [|y l Hy _ IH]; [simpl; lra | rewrite Rsum_cons; lra].
Qed.

Lemma elem_le_Rsum (l : list R) (x : R) :
  Forall (fun y => 0 < y) l → x ∈ l → x <= Rsum l.
Proof.
  induction 1 as [|y l Hy Hl IH]; intros Hx; [by apply elem_of_nil in Hx|].
  rewrite Rsum_cons. apply elem_of_cons in Hx as [->|Hx].
  - destruct l as [|z l]; [simpl; lra|].
    assert (0 < Rsum (z :: l)) by (by apply Rsum_pos). lra.
  - specialize (IH Hx). lra.
Qed.

Lemma Rabs_within (x y : R) : Rabs x <= y → - y <= x ∧ x <= y.
Proof. unfold Rabs. destruct (Rcase_abs x); lra. Qed.

Lemma div_le_of (a b c : R) : 0 < b → a <= c * b → a / b <= c.
Proof.
  intros Hb Hab. apply (Rmult_le_reg_r b); [done|].
  replace (a / b * b) with a by (field; lra). done.
Qed.

Lemma le_div_of (a b c : R) : 0 < b → c * b <= a → c <= a / b.
Proof.
  intros Hb Hab. apply (Rmult_le_reg_r b); [done|].
  replace (a / b * b) with a by (field; lra). done.
Qed.

(** *** The boundary test *)

Lemma near_boundary_true (sd : Point2D) : near_boundary sd = true ↔ sd.2 < epsilon.
Proof. unfold near_boundary. apply bool_decide_eq_true. Qed.

Lemma near_boundary_false (sd : Point2D) :
  near_boundary sd = false ↔ epsilon <= sd.2.
Proof.
  unfold near_boundary. rewrite bool_decide_eq_false. split; lra.
Qed.

(** For a distance that is not negative the test is [|d| < epsilon]. *)
Lemma near_boundary_abs (sd : Point2D) :
  0 <= sd.2 → near_boundary sd = true ↔ Rabs sd.2 < epsilon.
Proof.
  intros Hd. rewrite near_boundary_true, Rabs_pos_eq by done. done.
Qed.

Lemma close_to_boundary_from (sds : list Point2D) (c : N) :
  fold_left (fun c sd => if near_boundary sd then N.succ c else c) sds c
  = (c + N.of_nat (boundary_sides sds))%N.
Proof.
  revert c. induction sds as [|sd sds IH]; intros c; simpl.
  - unfold boundary_sides. simpl. lia.
  - rewrite IH. unfold boundary_sides. rewrite filter_cons.
    destruct (near_boundary sd) eqn:E.
    + rewrite decide_True by done. simpl. lia.
    + rewrite decide_False by (rewrite ?E; done). lia.
Qed.

Lemma close_to_boundary_count (sds : list Point2D) :
  close_to_boundary sds = N.of_nat (boundary_sides sds).
Proof. unfold close_to_boundary. now rewrite close_to_boundary_from. Qed.

Lemma boundary_sides_0 (sds : list Point2D) :
  boundary_sides sds = 0%nat ↔ Forall (fun sd => epsilon <= sd.2) sds.
Proof.
  unfold boundary_sides. induction sds as [|sd sds IH]; simpl.
  - split; [constructor | done].
  - rewrite filter_cons. destruct (near_boundary sd) eqn:E.
    + rewrite decide_True by done. simpl. split; [done|].
      intros HF. apply Forall_cons_1 in HF as [H1 _].
      apply near_boundary_true in E. lra.
    + rewrite decide_False by (rewrite ?E; done).
      rewrite IH. apply near_boundary_false in E.
      split; [by constructor | by intros [_ ?]%Forall_cons_1].
Qed.

Lemma Rsum_boundary_share (sds : list Point2D) (w : R) :
  Rsum ((fun sd => if near_boundary sd then w else 0) <$> sds)
  = INR (boundary_sides sds) * w.
Proof.
  unfold boundary_sides. induction sds as [|sd sds IH].
  - simpl. lra.
  - rewrite fmap_cons, filter_cons, Rsum_cons, IH.
    destruct (near_boundary sd) eqn:E.
    + rewrite decide_True by done. cbn [length]. rewrite S_INR. lra.
    + rewrite decide_False by (rewrite ?E; done). lra.
Qed.

(** *** [gamma] and [rationalTwist] *)

Lemma setGamma_same (s : SurfaceT) : setGamma (use_gamma_ s) s = s.
Proof. now destruct s. Qed.

Lemma gamma_enabled_mono (d1 d2 : R) :
  0 <= d1 → d1 <= d2 → d1 / (2 * d1 + 1) <= d2 / (2 * d2 + 1).
Proof.
  intros H1 H2.
  apply Rmult_le_reg_r with ((2 * d1 + 1) * (2 * d2 + 1)); [nra|].
  replace (d1 / (2 * d1 + 1) * ((2 * d1 + 1) * (2 * d2 + 1)))
    with (d1 * (2 * d2 + 1)) by (field; lra).
  replace (d2 / (2 * d2 + 1) * ((2 * d1 + 1) * (2 * d2 + 1)))
    with (d2 * (2 * d1 + 1)) by (field; lra).
  nra.
Qed.

(** C7.  [rationalTwist(u, v, f, g)] is [(f*u + g*v) / (u + v)] when
    [|u + v| >= epsilon] and the zero vector when [|u + v| < epsilon]; as
    [epsilon] is positive, [rationalTwist(0, 0, f, g)] is the zero vector
    for all [f] and [g]. *)
Theorem rationalTwist_spec (u v : R) (f g : Vector3D) :
  0 < epsilon →
  (epsilon <= Rabs (u + v) →
     rationalTwist u v f g = ((f * u + g * v) / (u + v))%V) ∧
  (Rabs (u + v) < epsilon → rationalTwist u v f g = V3 0 0 0) ∧
  rationalTwist 0 0 f g = V3 0 0 0.
Proof.
  intros Heps. unfold rationalTwist. repeat split.
  - intros Hge. rewrite bool_decide_eq_false_2; [done | lra].
  - intros Hlt. by rewrite bool_decide_eq_true_2.
  - rewrite bool_decide_eq_true_2; [done|].
    rewrite Rplus_0_l, Rabs_R0. done.
Qed.

(** *** [blendSideSingular] *)

Lemma INR_of_N_nat (k : nat) : IZR (Z.of_N (N.of_nat k)) = INR k.
Proof. rewrite nat_N_Z. symmetry. apply INR_IZR_INZ. Qed.

Lemma blendSideSingular_length (s : SurfaceT) (sds : list Point2D) :
  length (blendSideSingular s sds) = length sds.
Proof.
  unfold blendSideSingular, normalized.
  destruct (0 <? close_to_boundary sds)%N; now rewrite ?length_fmap.
Qed.

(** C8.  With [k >= 1] sides passing the test [d < epsilon],
    [blendSideSingular] gives each of them the weight [1/k] and every other
    side 0; with none (every [d] at least [epsilon]) it gives side [i] the
    weight [d_i^-2] divided by the sum of all [d_j^-2]. *)
Theorem blendSideSingular_spec (s : SurfaceT) (sds : list Point2D)
    (i : nat) (sd : Point2D) :
  sds !! i = Some sd →
  let k := boundary_sides sds in
  ((1 <= k)%nat →
     blendSideSingular s sds !! i
     = Some (if decide (sd.2 < epsilon) then 1 / INR k else 0)) ∧
  (Forall (fun sd' => epsilon <= sd'.2) sds →
     blendSideSingular s sds !! i
     = Some (/ (sd.2 ^ 2) / Rsum ((fun sd' => / (sd'.2 ^ 2)) <$> sds))).
Proof.
  intros Hi k. unfold blendSideSingular.
  rewrite close_to_boundary_count. fold k. split.
  - intros Hk.
    replace (0 <? N.of_nat k)%N with true by (symmetry; apply N.ltb_lt; lia).
    rewrite list_lookup_fmap, Hi. simpl. rewrite INR_of_N_nat.
    unfold near_boundary. destruct (decide (sd.2 < epsilon)).
    + by rewrite bool_decide_eq_true_2.
    + by rewrite bool_decide_eq_false_2.
  - intros Hall. apply boundary_sides_0 in Hall. fold k in Hall. rewrite Hall.
    change (0 <? N.of_nat 0)%N with false. cbv iota.
    rewrite normalized_eq, !list_lookup_fmap, Hi.
    reflexivity.
Qed.

(** *** Index loops *)

Lemma elem_of_iota (n x : N) : x ∈ iota n ↔ (x < n)%N.
Proof.
  unfold iota. rewrite list_elem_of_fmap. split.
  - intros (k & -> & Hk). apply elem_of_seq in Hk. lia.
  - intros Hx. exists (N.to_nat x). split; [lia|]. apply elem_of_seq. lia.
Qed.

Lemma NoDup_iota (n : N) : NoDup (iota n).
Proof.
  unfold iota. apply NoDup_fmap_2; [|apply NoDup_seq].
  intros a b Hab. lia.
Qed.

Lemma length_iota (n : N) : length (iota n) = N.to_nat n.
Proof. unfold iota. now rewrite length_fmap, length_seq. Qed.

Lemma iota_lookup (n i : N) : (i < n)%N → iota n !! N.to_nat i = Some i.
Proof.
  intros Hi. unfold iota. rewrite list_lookup_fmap, lookup_seq_lt by lia.
  simpl. f_equal. lia.
Qed.

Lemma mapM_total {A B : Type} (f : A → option B) (g : A → B) (l : list A) :
  (∀ x, x ∈ l → f x = Some (g x)) → mapM f l = Some (g <$> l).
Proof.
  intros Hf. apply mapM_Some. apply Forall2_fmap_r, Forall_Forall2_diag.
  apply Forall_forall. exact Hf.
Qed.

Lemma Rsum_zero {A : Type} (f : A → R) (l : list A) :
  (∀ x, x ∈ l → f x = 0) → Rsum (f <$> l) = 0.
Proof.
  induction l as [|x l IH]; intros Hf; [done|].
  rewrite fmap_cons, Rsum_cons, IH, Hf; [lra | left | ].
  intros y Hy. apply Hf. now right.
Qed.

Lemma Rsum_one_point {A : Type} (f : A → R) (l : list A) (p : A) :
  NoDup l → p ∈ l → (∀ x, x ∈ l → x ≠ p → f x = 0) → Rsum (f <$> l) = f p.
Proof.
  induction l as [|x l IH]; intros Hnd Hp Hf; [by apply elem_of_nil in Hp|].
  apply NoDup_cons in Hnd as [Hx Hnd].
  rewrite fmap_cons, Rsum_cons. apply elem_of_cons in Hp as [->|Hp].
  - rewrite Rsum_zero; [lra|]. intros y Hy. apply Hf; [now right|].
    intros ->. done.
  - rewrite IH, Hf; [lra | left | | done | done | ].
    + intros ->. done.
    + intros y Hy. apply Hf. now right.
Qed.

Lemma Rsum_two_points {A : Type} (f : A → R) (l : list A) (p q : A) :
  NoDup l → p ∈ l → q ∈ l → p ≠ q →
  (∀ x, x ∈ l → x ≠ p → x ≠ q → f x = 0) → Rsum (f <$> l) = f p + f q.
Proof.
  induction l as [|x l IH]; intros Hnd Hp Hq Hpq Hf;
    [by apply elem_of_nil in Hp|].
  apply NoDup_cons in Hnd as [Hx Hnd].
  rewrite fmap_cons, Rsum_cons.
  apply elem_of_cons in Hp as [->|Hp]; apply elem_of_cons in Hq as [->|Hq].
  - done.
  - rewrite (Rsum_one_point f l q); [lra | done | done |].
    intros y Hy Hyq. apply Hf; [now right | | done]. intros ->. done.
  - rewrite (Rsum_one_point f l p); [lra | done | done |].
    intros y Hy Hyp. apply Hf; [now right | done |]. intros ->. done.
  - rewrite IH, Hf; [lra | left | | | done | done | done | done | ].
    + intros ->. done.
    + intros ->. done.
    + intros y Hy. apply Hf. now right.
Qed.

Lemma Rsum_indicator {A : Type} (P : A → bool) (l : list A) :
  Rsum ((fun x => if P x then 1 else 0) <$> l)
  = INR (length (filter (fun x => P x = true) l)).
Proof.
  induction l as [|x l IH]; [done|].
  rewrite fmap_cons, Rsum_cons, IH, filter_cons. destruct (P x) eqn:E.
  - rewrite decide_True by done. cbn [length]. rewrite S_INR. lra.
  - rewrite decide_False by (rewrite ?E; done). lra.
Qed.

(** *** Cyclic indices *)

Lemma next_lt (s : SurfaceT) (i : N) : (0 < n_ s)%N → (next s i < n_ s)%N.
Proof. intros Hn. unfold next. apply N.mod_lt. lia. Qed.

Lemma prev_lt (s : SurfaceT) (i : N) : (0 < n_ s)%N → (prev s i < n_ s)%N.
Proof. intros Hn. unfold prev. apply N.mod_lt. lia. Qed.

Lemma prev_cases (s : SurfaceT) (i : N) :
  (i < n_ s)%N →
  (i = 0 ∧ prev s i = n_ s - 1)%N ∨ (0 < i ∧ prev s i = i - 1)%N.
Proof.
  intros Hi. unfold prev. destruct (decide (i = 0%N)) as [->|Hne].
  - left. split; [done|]. rewrite N.add_0_l. apply N.mod_small. lia.
  - right. split; [lia|].
    replace (i + n_ s - 1)%N with (i - 1 + 1 * n_ s)%N by lia.
    rewrite N.Div0.mod_add. apply N.mod_small. lia.
Qed.

Lemma next_cases (s : SurfaceT) (i : N) :
  (i < n_ s)%N →
  (i = n_ s - 1 ∧ next s i = 0)%N ∨ (i + 1 < n_ s ∧ next s i = i + 1)%N.
Proof.
  intros Hi. unfold next. destruct (decide (i + 1 = n_ s)%N) as [E|Hne].
  - left. split; [lia|]. rewrite E. apply N.Div0.mod_same.
  - right. split; [lia|]. apply N.mod_small. lia.
Qed.

Lemma next_prev (s : SurfaceT) (i : N) : (i < n_ s)%N → next s (prev s i) = i.
Proof.
  intros Hi. destruct (prev_cases s i Hi) as [[E0 E]|[H0 E]];
    destruct (next_cases s (prev s i)) as [[E1 E2]|[E1 E2]];
    try (apply prev_lt; lia); lia.
Qed.

Lemma prev_ne (s : SurfaceT) (i : N) : (i < n_ s)%N → (2 <= n_ s)%N → prev s i ≠ i.
Proof. intros Hi Hn. destruct (prev_cases s i Hi) as [[E0 E]|[H0 E]]; lia. Qed.

Lemma next_ne (s : SurfaceT) (i : N) : (i < n_ s)%N → (2 <= n_ s)%N → next s i ≠ i.
Proof. intros Hi Hn. destruct (next_cases s i Hi) as [[E1 E2]|[E1 E2]]; lia. Qed.

Lemma prev_next (s : SurfaceT) (i : N) : (i < n_ s)%N → prev s (next s i) = i.
Proof.
  intros Hi. destruct (next_cases s i Hi) as [[E0 E]|[H0 E]];
    destruct (prev_cases s (next s i)) as [[E1 E2]|[E1 E2]];
    try (apply next_lt; lia); lia.
Qed.

(** *** [blendCorner] *)

Lemma at_is_Some {A : Type} (v : list A) (i : N) :
  (i < N.of_nat (length v))%N → is_Some (at_ v i).
Proof. intros Hi. apply lookup_lt_is_Some. lia. Qed.

Lemma filter_length_1 {A : Type} (P : A → Prop) `{!∀ x, Decision (P x)}
    (l : list A) :
  length (filter P l) = 1%nat →
  ∃ j x, l !! j = Some x ∧ P x ∧ ∀ i y, l !! i = Some y → P y → i = j.
Proof.
  induction l as [|a l IH]; [done|]. rewrite filter_cons.
  destruct (decide (P a)) as [Ha|Ha].
  - cbn [length]. intros Hl. exists 0%nat, a. split; [done|]. split; [done|].
    intros [|i] y Hy HP; [done|]. exfalso. cbn in Hy.
    assert (y ∈ filter P l) as Hin.
    { apply list_elem_of_filter. split; [done|]. by eapply list_elem_of_lookup_2. }
    destruct (filter P l); [by apply elem_of_nil in Hin | done].
  - intros Hl. destruct (IH Hl) as (j & x & Hj & Hx & Huniq).
    exists (S j), x. split; [done|]. split; [done|].
    intros [|i] y Hy HP.
    + cbn in Hy. by simplify_eq.
    + f_equal. by eapply Huniq.
Qed.

Lemma filter_length_2 {A : Type} (P : A → Prop) `{!∀ x, Decision (P x)}
    (l : list A) (j j' : nat) (x x' : A) :
  length (filter P l) = 2%nat →
  l !! j = Some x → P x → l !! j' = Some x' → P x' → j ≠ j' →
  ∀ i y, l !! i = Some y → P y → i = j ∨ i = j'.
Proof.
  revert j j'. induction l as [|a l IH]; intros j j' Hlen Hj Hx Hj' Hx' Hne;
    [done|].
  rewrite filter_cons in Hlen. destruct (decide (P a)) as [Ha|Ha].
  - cbn [length] in Hlen.
    destruct (filter_length_1 P l) as (j0 & x0 & _ & _ & Huniq); [lia|].
    assert (∀ k z, (a :: l) !! k = Some z → P z → k = 0%nat ∨ k = S j0) as Hall.
    { intros [|k] z Hk Hz; [by left|]. right. f_equal. by eapply Huniq. }
    intros i y Hi Hy.
    destruct (Hall _ _ Hj Hx), (Hall _ _ Hj' Hx'), (Hall _ _ Hi Hy); lia.
  - destruct j as [|j]; [cbn in Hj; by simplify_eq|].
    destruct j' as [|j']; [cbn in Hj'; by simplify_eq|].
    intros [|i] y Hi Hy; [cbn in Hi; by simplify_eq|].
    destruct (IH j j' Hlen Hj Hx Hj' Hx' ltac:(lia) i y Hi Hy); lia.
Qed.

Section BlendCorner.

Variable s : SurfaceT.
Variable sds : list Point2D.
Hypothesis epsilon_pos : 0 < epsilon.
Hypothesis sides : n_ s = N.of_nat (length sds).

Local Abbreviation d := (side_distance sds).
Local Abbreviation nb := (side_near sds).

Lemma side_in_range (i : N) :
  (i < n_ s)%N → ∃ sd, at_ sds i = Some sd ∧ d i = sd.2 ∧ nb i = near_boundary sd.
Proof.
  intros Hi. destruct (at_is_Some sds i) as [sd Hsd]; [lia|].
  exists sd. unfold side_distance, side_near. now rewrite Hsd.
Qed.

Lemma far_side_pos (i : N) : (i < n_ s)%N → nb i = false → 0 < d i.
Proof.
  intros Hi Hnb. destruct (side_in_range i Hi) as (sd & _ & -> & E).
  rewrite E in Hnb. apply near_boundary_false in Hnb. lra.
Qed.

Lemma boundary_corner_nb (i : N) :
  (i < n_ s)%N → boundary_corner s sds i = nb i && nb (next s i).
Proof.
  intros Hi. unfold boundary_corner.
  destruct (side_in_range i Hi) as (sd & -> & _ & ->).
  destruct (side_in_range (next s i)) as (sd' & -> & _ & ->);
    [apply next_lt; lia | done].
Qed.

Lemma blendCorner_multi :
  (2 <= boundary_sides sds)%nat →
  blendCorner s sds
  = Some ((fun i => if boundary_corner s sds i then 1 else 0) <$> iota (n_ s)).
Proof.
  intros Hk. unfold blendCorner. rewrite close_to_boundary_count.
  replace (0 <? _)%N with true by (symmetry; apply N.ltb_lt; lia).
  apply mapM_total. intros i Hi%elem_of_iota.
  replace (1 <? _)%N with true by (symmetry; apply N.ltb_lt; lia).
  rewrite boundary_corner_nb by done.
  destruct (side_in_range i Hi) as (sd & -> & _ & ->).
  destruct (side_in_range (next s i)) as (sd' & -> & _ & ->);
    [apply next_lt; lia|].
  cbn. by destruct (near_boundary sd), (near_boundary sd').
Qed.

Local Abbreviation single := (single_weight s sds).

Lemma blendCorner_single :
  boundary_sides sds = 1%nat →
  blendCorner s sds = Some (single <$> iota (n_ s)).
Proof.
  intros Hk. unfold blendCorner. rewrite close_to_boundary_count, Hk.
  change (0 <? N.of_nat 1)%N with true. cbv iota.
  apply mapM_total. intros i Hi%elem_of_iota.
  change (1 <? N.of_nat 1)%N with false. cbv iota.
  assert (0 < n_ s)%N as Hn by lia.
  destruct (side_in_range i Hi) as (sd & Ei & Edi & Eni).
  destruct (side_in_range (next s i) (next_lt s i Hn)) as (sd' & Ep & Edp & Enp).
  destruct (side_in_range (prev s i) (prev_lt s i Hn)) as (sd'' & Er & Edr & Enr).
  destruct (side_in_range (next s (next s i)) (next_lt s _ Hn))
    as (sd3 & Enn & Ednn & Ennn).
  unfold single_weight. rewrite Eni, Enp, Edi, Edp, Edr, Ednn, Ei. cbn.
  destruct (near_boundary sd).
  - rewrite Ep. cbn. now rewrite Er.
  - rewrite Ep. cbn. destruct (near_boundary sd'); [|done]. now rewrite Enn.
Qed.

Lemma blendCorner_interior :
  boundary_sides sds = 0%nat →
  blendCorner s sds
  = Some (normalized ((fun i => pow_m2 (d i * d (next s i))) <$> iota (n_ s))).
Proof.
  intros Hk. unfold blendCorner. rewrite close_to_boundary_count, Hk.
  change (0 <? N.of_nat 0)%N with false. cbv iota.
  rewrite (mapM_total _ (fun i => pow_m2 (d i * d (next s i)))); [done|].
  intros i Hi%elem_of_iota.
  assert (0 < n_ s)%N as Hn by lia.
  destruct (side_in_range i Hi) as (sd & -> & -> & _).
  destruct (side_in_range (next s i) (next_lt s i Hn)) as (sd' & -> & -> & _).
  done.
Qed.

Lemma single_boundary_side :
  boundary_sides sds = 1%nat →
  ∃ j, (j < n_ s)%N ∧ nb j = true ∧ ∀ i, (i < n_ s)%N → i ≠ j → nb i = false.
Proof.
  intros Hk. apply filter_length_1 in Hk as (j & x & Hj & Hx & Huniq).
  assert (j < length sds)%nat as Hlt by (by eapply lookup_lt_Some).
  exists (N.of_nat j). split; [lia|]. split.
  - unfold side_near, at_. rewrite Nat2N.id, Hj. done.
  - intros i Hi Hne. destruct (side_in_range i Hi) as (sd & Ei & _ & ->).
    destruct (near_boundary sd) eqn:E; [|done].
    exfalso. apply Hne. unfold at_ in Ei.
    rewrite <- (Huniq _ _ Ei E). lia.
Qed.

(** Exactly two sides on the boundary, and they are adjacent: the point
    is at a corner of the domain, and that corner alone gets weight 1. *)
Lemma corner_sum (j : N) :
  boundary_sides sds = 2%nat → (3 <= n_ s)%N → (j < n_ s)%N →
  nb j = true → nb (next s j) = true →
  Rsum ((fun i => if boundary_corner s sds i then 1 else 0) <$> iota (n_ s)) = 1.
Proof.
  intros Hk Hn Hj Hnj Hnx.
  assert (next s j < n_ s)%N as Hx by (apply next_lt; lia).
  assert (next s j ≠ j) as Hxj by (apply next_ne; lia).
  assert (∀ i, (i < n_ s)%N → nb i = true → i = j ∨ i = next s j) as Honly.
  { destruct (side_in_range j Hj) as (sd & Ej & _ & Enj).
    destruct (side_in_range (next s j) Hx) as (sd' & Ex & _ & Enx).
    intros i Hi Hni. destruct (side_in_range i Hi) as (sdi & Ei & _ & Eni).
    unfold at_ in Ej, Ex, Ei.
    destruct (filter_length_2 _ sds (N.to_nat j) (N.to_nat (next s j)) sd sd' Hk
                Ej ltac:(congruence) Ex ltac:(congruence) ltac:(lia)
                (N.to_nat i) sdi Ei ltac:(congruence)); [left | right]; lia. }
  rewrite (Rsum_one_point _ _ j);
    [| apply NoDup_iota | by apply elem_of_iota |].
  - rewrite boundary_corner_nb, Hnj, Hnx by done. done.
  - intros i Hi%elem_of_iota Hij. rewrite boundary_corner_nb by done.
    destruct (nb i) eqn:Eni; [|done].
    destruct (nb (next s i)) eqn:Enx'; [|done]. exfalso.
    destruct (Honly i Hi Eni) as [-> | ->]; [done|].
    assert (next s (next s j) < n_ s)%N as Hxx by (apply next_lt; lia).
    destruct (Honly _ Hxx Enx') as [E|E].
    + destruct (next_cases s j Hj) as [[? ?]|[? ?]],
        (next_cases s (next s j) Hx) as [[? ?]|[? ?]]; lia.
    + by apply (next_ne s (next s j)) in E; [|done|lia].
Qed.

End BlendCorner.

(** *** Loops and vector assignment *)

Lemma for_each_inv {A S : Type} (body : A → S → option S) (P : S → Prop)
    (l : list A) (σ σ' : S) :
  (∀ x τ τ', x ∈ l → P τ → body x τ = Some τ' → P τ') →
  P σ → for_each body l σ = Some σ' → P σ'.
Proof.
  revert σ. induction l as [|x l IH]; intros σ Hbody Hσ Hrun; simpl in Hrun.
  - by simplify_eq.
  - destruct (body x σ) as [τ|] eqn:E; [|done]. simpl in Hrun.
    apply (IH τ); [| |done].
    + intros y ? ? Hy. apply Hbody. now right.
    + eapply Hbody; [left | exact Hσ | exact E].
Qed.

Lemma for_each_defined {A S : Type} (body : A → S → option S) (P : S → Prop)
    (l : list A) (σ : S) :
  (∀ x τ, x ∈ l → P τ → ∃ τ', body x τ = Some τ' ∧ P τ') →
  P σ → ∃ σ', for_each body l σ = Some σ' ∧ P σ'.
Proof.
  revert σ. induction l as [|x l IH]; intros σ Hbody Hσ; simpl.
  - by exists σ.
  - destruct (Hbody x σ) as (τ & -> & Hτ); [left | done |]. simpl.
    apply IH; [|done]. intros y ? Hy. apply Hbody. now right.
Qed.

Lemma assign_Some {A : Type} (v v' : list A) (i : N) (x : A) :
  assign v i x = Some v' ↔ (N.to_nat i < length v)%nat ∧ v' = <[N.to_nat i := x]> v.
Proof.
  unfold assign. destruct (decide _); split.
  - intros [= <-]. done.
  - intros [_ ->]. done.
  - done.
  - intros [? _]. done.
Qed.

Lemma assign_length {A : Type} (v v' : list A) (i : N) (x : A) :
  assign v i x = Some v' → length v' = length v.
Proof. intros [_ ->]%assign_Some. apply length_insert. Qed.

Lemma assign_at_eq {A : Type} (v v' : list A) (i : N) (x : A) :
  assign v i x = Some v' → at_ v' i = Some x.
Proof.
  intros [Hi ->]%assign_Some. unfold at_. by apply list_lookup_insert_eq.
Qed.

Lemma assign_at_ne {A : Type} (v v' : list A) (i j : N) (x : A) :
  assign v i x = Some v' → j ≠ i → at_ v' j = at_ v j.
Proof.
  intros [Hi ->]%assign_Some Hne. unfold at_.
  apply list_lookup_insert_ne. lia.
Qed.


Lemma resize_vec_length {A : Type} (n : N) (d : A) (v : list A) :
  length (resize_vec n d v) = N.to_nat n.
Proof.
  unfold resize_vec. rewrite length_app, length_take, length_replicate. lia.
Qed.

(** *** [updateCorner] *)

(** Inversion of a successful run: takes the first bind of [H] apart. *)
Ltac bind_inv H :=
  match type of H with
  | (?x ≫= _) = Some _ =>
      let E := fresh "E" in
      destruct x as [?|] eqn:E; [cbn [mbind option_bind] in H | discriminate H]
  | (let '(_, _) := ?p in _) = Some _ => destruct p
  end.

(** What one call of [updateCorner(i)] does to the surface: only
    [corner_data_[i]] changes; its [twist1] is the finite difference taken
    on ribbon [next(i)], its [twist2] is what it was. *)
Lemma updateCorner_Some (cs : CurveStore) (i : N) (s s' : SurfaceT) :
  updateCorner cs i s = Some s' →
  ∃ cd cd' rip,
    at_ (corner_data_ s) i = Some cd ∧
    ribbon_at (ribbons_ s) (next s i) = Some rip ∧
    s' = with_corner_data (<[N.to_nat i := cd']> (corner_data_ s)) s ∧
    twist1 cd' = twist_next cs (ribbons_ s) rip ∧
    twist2 cd' = twist2 cd.
Proof.
  unfold updateCorner. intros Hrun.
  destruct (n_ s =? 0)%N; [done|].
  repeat bind_inv Hrun.
  apply assign_Some in E7 as [_ ->].
  eexists _, _, _. split; [done|]. split; [done|].
  split; [by simplify_eq|]. split; reflexivity.
Qed.

Lemma updateCorner_defined (cs : CurveStore) (i : N) (s : SurfaceT) :
  der_filled → curves_set cs s → (i < n_ s)%N →
  (i < N.of_nat (length (corner_data_ s)))%N →
  is_Some (updateCorner cs i s).
Proof.
  intros Hder Hcs Hi Hcd. unfold updateCorner.
  replace (n_ s =? 0)%N with false by (symmetry; apply N.eqb_neq; lia).
  assert (∀ j, (j < n_ s)%N →
            ∃ r a c, ribbon_at (ribbons_ s) j = Some r ∧ curve_of cs r = Some (a, c))
    as Hribbon.
  { intros j Hj. destruct (Hcs j Hj) as [[a c] Hac]. unfold curve_at in Hac.
    destruct (ribbon_at (ribbons_ s) j) as [r|]; [|done].
    by exists r, a, c. }
  assert (∀ c t k, (k < 2)%nat → is_Some (curve_eval_der c t 1%N !! k)) as Hd.
  { intros c t k Hk. apply lookup_lt_is_Some. rewrite Hder. simpl. lia. }
  destruct (Hribbon i Hi) as (r & a & c & -> & Hc). cbn [mbind option_bind]. rewrite Hc. cbn [mbind option_bind].
  destruct (at_is_Some (corner_data_ s) i Hcd) as [cd ->]. cbn [mbind option_bind].
  destruct (Hd c 1 0%nat) as [? ->]; [lia|]. cbn [mbind option_bind].
  destruct (Hd c 1 1%nat) as [? ->]; [lia|]. cbn [mbind option_bind].
  destruct (Hribbon (next s i)) as (r' & a' & c' & -> & Hc');
    [apply next_lt; lia|]. cbn [mbind option_bind]. rewrite Hc'. cbn [mbind option_bind].
  destruct (Hd c' 0 1%nat) as [? ->]; [lia|]. cbn [mbind option_bind].
  unfold assign. rewrite decide_True by lia. done.
Qed.

Lemma updateCorner_frame (cs : CurveStore) (i : N) (s s' : SurfaceT) :
  updateCorner cs i s = Some s' →
  n_ s' = n_ s ∧ ribbons_ s' = ribbons_ s ∧
  length (corner_data_ s') = length (corner_data_ s) ∧
  ∀ j, j ≠ i → at_ (corner_data_ s') j = at_ (corner_data_ s) j.
Proof.
  intros (cd & cd' & rip & _ & _ & -> & _)%updateCorner_Some. cbn.
  split; [done|]. split; [done|]. split; [apply length_insert|].
  intros j Hj. unfold at_. apply list_lookup_insert_ne. lia.
Qed.

(** The loop of [updateCorners] over distinct indices: every index it
    visits gets the twist of the next ribbon, keeps its [twist2], and no
    other corner changes. *)
Lemma updateCorner_loop (cs : CurveStore) (l : list N) (s s' : SurfaceT) :
  NoDup l → for_each (updateCorner cs) l s = Some s' →
  n_ s' = n_ s ∧ ribbons_ s' = ribbons_ s ∧
  length (corner_data_ s') = length (corner_data_ s) ∧
  (∀ j, j ∉ l → at_ (corner_data_ s') j = at_ (corner_data_ s) j) ∧
  (∀ j, j ∈ l →
     ∃ cd cd' rip,
       at_ (corner_data_ s) j = Some cd ∧ at_ (corner_data_ s') j = Some cd' ∧
       ribbon_at (ribbons_ s) (next s j) = Some rip ∧
       twist1 cd' = twist_next cs (ribbons_ s) rip ∧
       twist2 cd' = twist2 cd).
Proof.
  revert s. induction l as [|i l IH]; intros s Hnd Hrun; simpl in Hrun.
  - simplify_eq. repeat split; try done. intros j Hj. by apply elem_of_nil in Hj.
  - apply NoDup_cons in Hnd as [Hi Hnd].
    destruct (updateCorner cs i s) as [t|] eqn:Et; [|done]. simpl in Hrun.
    destruct (IH t Hnd Hrun) as (Hn & Hr & Hlen & Hout & Hin).
    destruct (updateCorner_frame _ _ _ _ Et) as (Hn1 & Hr1 & Hlen1 & Hout1).
    split; [congruence|]. split; [congruence|]. split; [congruence|]. split.
    + intros j Hj. apply not_elem_of_cons in Hj as [Hji Hjl].
      rewrite Hout by done. by apply Hout1.
    + intros j [->|Hj]%elem_of_cons.
      * destruct (updateCorner_Some _ _ _ _ Et)
          as (cd & cd' & rip & Hcd & Hrip & -> & Ht1 & Ht2).
        exists cd, cd', rip. split; [done|]. split; [|done].
        rewrite Hout by done. cbn. unfold at_.
        apply list_lookup_insert_eq. by eapply lookup_lt_Some.
      * destruct (Hin j Hj) as (cd & cd' & rip & Hcd & Hcd' & Hrip & Ht1 & Ht2).
        exists cd, cd', rip.
        assert (j ≠ i) as Hji by (intros ->; done).
        rewrite <- Hout1 by done. split; [done|]. split; [done|].
        unfold next in *. rewrite <- Hr1, <- Hn1. done.
Qed.

(** *** [update] *)

Lemma refresh_domain_frame (cs : CurveStore) (s : SurfaceT) :
  n_ (refresh_domain cs s) = n_ s ∧
  ribbons_ (refresh_domain cs s) = ribbons_ s ∧
  corner_data_ (refresh_domain cs s) = corner_data_ s.
Proof. unfold refresh_domain. by destruct (domain_update cs (domain_ s)). Qed.

Lemma update_ribbon_Some (cs : CurveStore) (k : N) (s s' : SurfaceT) :
  update_ribbon cs k s = Some s' →
  ∃ r, ribbon_at (ribbons_ s) k = Some r ∧
       s' = with_ribbons
              (<[N.to_nat k := Some (mkRibbon (r_curve r) (r_neighbors r)
                                       (ribbon_update cs (ribbons_ s) r))]>
                 (ribbons_ s)) s.
Proof.
  unfold update_ribbon. intros Hrun. repeat bind_inv Hrun.
  apply assign_Some in E0 as [_ ->]. eexists. split; [done|]. by simplify_eq.
Qed.

Lemma update_ribbon_frame (cs : CurveStore) (k : N) (s s' : SurfaceT) :
  update_ribbon cs k s = Some s' →
  n_ s' = n_ s ∧ corner_data_ s' = corner_data_ s ∧
  length (ribbons_ s') = length (ribbons_ s) ∧
  ∀ j, r_curve <$> ribbon_at (ribbons_ s') j = r_curve <$> ribbon_at (ribbons_ s) j.
Proof.
  intros (r & Hr & ->)%update_ribbon_Some. cbn.
  split; [done|]. split; [done|]. split; [apply length_insert|].
  intros j. unfold ribbon_at, at_ in *.
  destruct (decide (N.to_nat j = N.to_nat k)) as [E|E].
  - rewrite E in *.
    destruct (ribbons_ s !! N.to_nat k) as [o|] eqn:Ek; [|done].
    rewrite list_lookup_insert_eq by (by eapply lookup_lt_Some).
    cbn in *. by subst o.
  - by rewrite list_lookup_insert_ne.
Qed.

Lemma update_ribbon_defined (cs : CurveStore) (k : N) (s : SurfaceT) :
  is_Some (ribbon_at (ribbons_ s) k) → is_Some (update_ribbon cs k s).
Proof.
  intros [r Hr]. unfold update_ribbon. rewrite Hr. cbn [mbind option_bind].
  unfold assign. rewrite decide_True; [done|].
  unfold ribbon_at, at_ in Hr.
  destruct (ribbons_ s !! N.to_nat k) eqn:E; [|done]. by eapply lookup_lt_Some.
Qed.

Lemma same_shape_refl (s : SurfaceT) : same_shape s s.
Proof. by unfold same_shape. Qed.

Lemma same_shape_trans (s t u : SurfaceT) :
  same_shape s t → same_shape t u → same_shape s u.
Proof.
  intros (? & ? & ? & Hc) (? & ? & ? & Hc'). unfold same_shape.
  split; [congruence|]. split; [congruence|]. split; [congruence|].
  intros j. by rewrite Hc', Hc.
Qed.

Lemma same_shape_curves_set (cs : CurveStore) (s s' : SurfaceT) :
  same_shape s s' → curves_set cs s → curves_set cs s'.
Proof.
  intros (Hn & _ & _ & Hc) Hcs i Hi. rewrite Hn in Hi.
  destruct (Hcs i Hi) as [[a c] Hac]. specialize (Hc i).
  unfold curve_at in *.
  destruct (ribbon_at (ribbons_ s) i) as [r|]; [|done].
  destruct (ribbon_at (ribbons_ s') i) as [r'|]; [|done].
  cbn in *. unfold curve_of in *. injection Hc as ->. by eexists.
Qed.

Lemma update_ribbons_loop (cs : CurveStore) (l : list N) (s s' : SurfaceT) :
  for_each (update_ribbon cs) l s = Some s' → same_shape s s'.
Proof.
  intros Hrun.
  apply (for_each_inv (update_ribbon cs) (same_shape s) l s s'); [|apply same_shape_refl|done].
  intros k t t' _ Ht Hk. eapply same_shape_trans; [exact Ht|].
  by apply update_ribbon_frame in Hk.
Qed.

Lemma update_ribbons_defined (cs : CurveStore) (s : SurfaceT) :
  ribbons_sized s → curves_set cs s →
  is_Some (for_each (update_ribbon cs) (iota (N.of_nat (length (ribbons_ s)))) s).
Proof.
  intros Hsz Hcs.
  destruct (for_each_defined (update_ribbon cs)
              (fun t => same_shape s t)
              (iota (N.of_nat (length (ribbons_ s)))) s) as (s' & Hs' & _);
    [|apply same_shape_refl|by eexists].
  intros k t Hk%elem_of_iota Ht.
  destruct (update_ribbon_defined cs k t) as [t' Ht'].
  - pose proof (same_shape_curves_set cs s t Ht Hcs) as Hcst.
    destruct Ht as (Hn & _). destruct (Hcst k) as [[a c] Hac].
    { rewrite Hn. unfold ribbons_sized in Hsz. lia. }
    unfold curve_at in Hac.
    destruct (ribbon_at (ribbons_ t) k); [by eexists | done].
  - exists t'. split; [done|]. eapply same_shape_trans; [exact Ht|].
    by apply update_ribbon_frame in Ht'.
Qed.

Lemma curves_set_ext (cs : CurveStore) (s t : SurfaceT) :
  n_ t = n_ s → ribbons_ t = ribbons_ s → curves_set cs s → curves_set cs t.
Proof. intros Hn Hr Hcs i Hi. rewrite Hr. apply Hcs. by rewrite <- Hn. Qed.

Lemma updateCorners_defined (cs : CurveStore) (s : SurfaceT) :
  der_filled → curves_set cs s → is_Some (updateCorners cs s).
Proof.
  intros Hder Hcs. unfold updateCorners.
  set (s1 := with_corner_data _ s).
  destruct (for_each_defined (updateCorner cs)
              (fun t => n_ t = n_ s1 ∧ ribbons_ t = ribbons_ s1 ∧
                        length (corner_data_ t) = length (corner_data_ s1))
              (iota (n_ s1)) s1) as (s' & Hs' & _); [|done|by eexists].
  intros i t Hi%elem_of_iota (Hn & Hr & Hlen).
  destruct (updateCorner_defined cs i t) as [t' Ht']; [done | | lia | |].
  - by apply (curves_set_ext cs s).
  - rewrite Hlen. subst s1. cbn. rewrite resize_vec_length. cbn in Hi. lia.
  - exists t'. split; [done|].
    destruct (updateCorner_frame _ _ _ _ Ht') as (? & ? & ? & _).
    split; [congruence|]. split; congruence.
Qed.

Lemma update_defined (cs : CurveStore) (s : SurfaceT) :
  der_filled → ribbons_sized s → curves_set cs s → is_Some (update cs s).
Proof.
  intros Hder Hsz Hcs. unfold update.
  destruct (refresh_domain_frame cs s) as (Hn0 & Hr0 & Hc0).
  set (s0 := refresh_domain cs s) in *.
  destruct (update_ribbons_defined cs s0) as [s1 Hs1].
  { unfold ribbons_sized. by rewrite Hr0, Hn0. }
  { by apply (curves_set_ext cs s). }
  rewrite Hs1. cbn [mbind option_bind].
  apply updateCorners_defined; [done|].
  apply (same_shape_curves_set cs s0); [by eapply update_ribbons_loop|].
  by apply (curves_set_ext cs s).
Qed.



Lemma update_one_only_two (cs : CurveStore) (i : N) (s s' : SurfaceT) :
  update_one cs i s = Some s' →
  length (corner_data_ s') = length (corner_data_ s) ∧
  ∀ j, j ≠ i → j ≠ prev s i → at_ (corner_data_ s') j = at_ (corner_data_ s) j.
Proof.
  unfold update_one. intros Hrun. bind_inv Hrun.
  destruct (refresh_domain_frame cs s) as (Hn0 & Hr0 & Hc0).
  apply update_ribbon_frame in E as (Hn1 & Hc1 & _ & _).
  destruct (n_ s0 =? 0)%N; [done|]. bind_inv Hrun.
  apply updateCorner_frame in E as (Hn2 & Hr2 & Hl2 & Hf2).
  apply updateCorner_frame in Hrun as (Hn3 & Hr3 & Hl3 & Hf3).
  split; [congruence|]. intros j Hji Hjp.
  rewrite Hf3, Hf2, Hc1, Hc0; [done | | done].
  unfold prev in *. by rewrite Hn1, Hn0.
Qed.

Lemma update_one_defined (cs : CurveStore) (i : N) (s : SurfaceT) :
  der_filled → curves_set cs s → sizes_agree s → (i < n_ s)%N →
  is_Some (update_one cs i s).
Proof.
  intros Hder Hcs [Hsz Hcd] Hi. unfold update_one.
  destruct (refresh_domain_frame cs s) as (Hn0 & Hr0 & Hc0).
  set (s0 := refresh_domain cs s) in *.
  pose proof (curves_set_ext cs s s0 Hn0 Hr0 Hcs) as Hcs0.
  destruct (update_ribbon_defined cs i s0) as [s1 Hs1].
  { destruct (Hcs0 i) as [[a c] Hac]; [lia|]. unfold curve_at in Hac.
    destruct (ribbon_at (ribbons_ s0) i); [by eexists | done]. }
  rewrite Hs1. cbn [mbind option_bind].
  pose proof (update_ribbon_frame _ _ _ _ Hs1) as Hshape.
  pose proof (same_shape_curves_set cs s0 s1 Hshape Hcs0) as Hcs1.
  destruct Hshape as (Hn1 & Hc1 & _ & _).
  replace (n_ s1 =? 0)%N with false by (symmetry; apply N.eqb_neq; lia).
  destruct (updateCorner_defined cs (prev s1 i) s1) as [s2 Hs2];
    [done | done | apply prev_lt; lia | |].
  { rewrite Hc1, Hc0, <- Hcd, <- Hn0, <- Hn1. apply prev_lt. lia. }
  rewrite Hs2. cbn [mbind option_bind].
  destruct (updateCorner_frame _ _ _ _ Hs2) as (Hn2 & Hr2 & Hl2 & Hf2).
  apply updateCorner_defined; [done | by apply (curves_set_ext cs s1) | lia |].
  rewrite Hl2, Hc1, Hc0. lia.
Qed.

(** C10.  [update(i)] recomputes the corner data at [prev(i)] and at [i]
    only: when the call returns, the corner vector has the size it had (it
    is not resized), and every corner [j] other than [i] and [prev(i)] has
    the data it had.  The call does return for every side [i] of a surface
    whose ribbons have their curves and whose corner vector has been sized
    by [update()]. *)
Theorem update_one_frame (cs : CurveStore) (i : N) (s : SurfaceT) :
  (∀ s', update_one cs i s = Some s' →
     length (corner_data_ s') = length (corner_data_ s) ∧
     ∀ j, j ≠ i → j ≠ prev s i →
       at_ (corner_data_ s') j = at_ (corner_data_ s) j) ∧
  (der_filled → curves_set cs s → sizes_agree s → (i < n_ s)%N →
   is_Some (update_one cs i s)).
Proof.
  split.
  - intros s'. apply update_one_only_two.
  - apply update_one_defined.
Qed.

(** *** [setupLoop] *)

Lemma norm_nonneg (v : Vector3D) : 0 <= norm v.
Proof. apply sqrt_pos. Qed.

Lemma norm_sub_self (v : Vector3D) : norm (v - v)%V = 0.
Proof.
  unfold norm, vsub. cbn [vx vy vz].
  replace (_ + _ + _) with 0 by ring. apply sqrt_0.
Qed.

Lemma curve_at_ptr (cs : CurveStore) (rs : list (option RibbonT)) (i : N)
    (a : nat) (c : BSCurve) :
  curve_at cs rs i = Some (a, c) ↔
  ∃ r, ribbon_at rs i = Some r ∧ r_curve r = Some a ∧ cs !! a = Some c.
Proof.
  unfold curve_at, curve_of. split.
  - intros Hrun. repeat bind_inv Hrun. simplify_eq. by eexists.
  - intros (r & -> & Ha & Hc). cbn. rewrite Ha. cbn. by rewrite Hc.
Qed.

Lemma curve_at_insert (cs : CurveStore) (rs : list (option RibbonT)) (i : N)
    (a b : nat) (c x : BSCurve) :
  (a < length cs)%nat → curve_at cs rs i = Some (b, c) →
  curve_at (<[a := x]> cs) rs i = Some (b, if decide (b = a) then x else c).
Proof.
  intros Ha (r & Hr & Hb & Hc)%curve_at_ptr. apply curve_at_ptr.
  exists r. split; [done|]. split; [done|]. destruct (decide (b = a)) as [->|Hne].
  - by apply list_lookup_insert_eq.
  - by rewrite list_lookup_insert_ne.
Qed.

Lemma curve_at_same_shape (cs : CurveStore) (s t : SurfaceT) (i : N) :
  same_shape s t → curve_at cs (ribbons_ t) i = curve_at cs (ribbons_ s) i.
Proof.
  intros (_ & _ & _ & Hc). specialize (Hc i). unfold curve_at.
  destruct (ribbon_at (ribbons_ t) i) as [r'|],
    (ribbon_at (ribbons_ s) i) as [r|]; try done.
  cbn in *. unfold curve_of. by injection Hc as ->.
Qed.

Lemma must_reverse_same_shape (cs : CurveStore) (s t : SurfaceT) (i : N) :
  same_shape s t → must_reverse cs t i = must_reverse cs s i.
Proof.
  intros Hst. unfold must_reverse, next, prev.
  rewrite !(curve_at_same_shape cs s t) by done.
  destruct Hst as (-> & _). done.
Qed.

Lemma normalize_step_Some (i : N) (σ σ' : State) :
  normalize_step i σ = Some σ' ↔
  ∃ a c, curve_at (store σ) (ribbons_ (surf σ)) i = Some (a, c) ∧
         σ' = mkState (<[a := curve_normalize c]> (store σ)) (surf σ).
Proof.
  unfold normalize_step. split.
  - intros Hrun. repeat bind_inv Hrun. simplify_eq. by eexists _, _.
  - intros (a & c & -> & ->). done.
Qed.

Lemma reverse_curve_Some (i : N) (σ σ' : State) :
  reverse_curve i σ = Some σ' ↔
  ∃ a c, curve_at (store σ) (ribbons_ (surf σ)) i = Some (a, c) ∧
         σ' = mkState (<[a := curve_normalize (curve_reverse c)]> (store σ))
                (surf σ).
Proof.
  unfold reverse_curve. split.
  - intros Hrun. repeat bind_inv Hrun. simplify_eq. by eexists _, _.
  - intros (a & c & -> & ->). done.
Qed.

(** Setting the neighbours of ribbon [i] keeps the shape of the surface. *)
Lemma setNeighbors_same_shape (s : SurfaceT) (i p n : N) (r : RibbonT)
    (rs : list (option RibbonT)) :
  ribbon_at (ribbons_ s) i = Some r →
  assign (ribbons_ s) i (Some (Ribbon_setNeighbors p n r)) = Some rs →
  same_shape s (with_ribbons rs s).
Proof.
  intros Hr [Hi ->]%assign_Some. unfold same_shape. cbn.
  split; [done|]. split; [done|]. split; [apply length_insert|].
  intros j. unfold ribbon_at, at_ in *.
  destruct (decide (N.to_nat j = N.to_nat i)) as [E|E].
  - rewrite E, list_lookup_insert_eq by done.
    destruct (ribbons_ s !! N.to_nat i) as [o|]; [|done]. cbn in *. by subst o.
  - by rewrite list_lookup_insert_ne.
Qed.

(** One iteration of the second loop: the neighbours of ribbon [i] are
    set, and the curve of ribbon [i] is reversed and normalised exactly
    when [must_reverse] holds in the state the iteration starts from. *)
Lemma orient_step_Some (i : N) (σ : State) :
  ribbons_sized (surf σ) → curves_set (store σ) (surf σ) →
  (i < n_ (surf σ))%N →
  ∃ a c b σ',
    curve_at (store σ) (ribbons_ (surf σ)) i = Some (a, c) ∧
    must_reverse (store σ) (surf σ) i = Some b ∧
    orient_step i σ = Some σ' ∧
    same_shape (surf σ) (surf σ') ∧
    store σ' = if b then <[a := curve_normalize (curve_reverse c)]> (store σ)
               else store σ.
Proof.
  intros Hsz Hcs Hi. set (s := surf σ) in *.
  assert (0 < n_ s)%N as Hn by lia.
  destruct (Hcs i Hi) as [[a c] Hac].
  destruct (Hcs (prev s i) (prev_lt s i Hn)) as [[ap cp] Hp].
  destruct (Hcs (next s i) (next_lt s i Hn)) as [[an cn] Hx].
  assert (∃ b, must_reverse (store σ) s i = Some b) as [b Hb].
  { unfold must_reverse. rewrite Hac, Hp, Hx. cbn.
    destruct (i =? 0)%N; by eexists. }
  exists a, c, b.
  pose proof Hac as (r & Hr & _)%curve_at_ptr.
  unfold orient_step. fold s.
  destruct (at_is_Some (ribbons_ s) (prev s i)) as [? ->];
    [unfold ribbons_sized in Hsz; rewrite Hsz; by apply prev_lt|].
  destruct (at_is_Some (ribbons_ s) (next s i)) as [? ->];
    [unfold ribbons_sized in Hsz; rewrite Hsz; by apply next_lt|].
  cbn [mbind option_bind]. rewrite Hr. cbn [mbind option_bind].
  destruct (assign (ribbons_ s) i
              (Some (Ribbon_setNeighbors (prev s i) (next s i) r)))
    as [rs|] eqn:Ers.
  2:{ unfold assign in Ers. rewrite decide_True in Ers; [done|].
      unfold ribbons_sized in Hsz. lia. }
  cbn [mbind option_bind store surf].
  pose proof (setNeighbors_same_shape s i _ _ r rs Hr Ers) as Hshape.
  rewrite (must_reverse_same_shape (store σ) s (with_ribbons rs s)) by done.
  rewrite Hb.
  cbn [mbind option_bind]. destruct b.
  - eexists. split; [done|]. split; [done|]. split.
    + apply reverse_curve_Some. exists a, c. cbn [store surf].
      split; [|done]. by rewrite (curve_at_same_shape _ s (with_ribbons rs s)).
    + done.
  - eexists. split; [done|]. split; [done|]. done.
Qed.


Lemma closed_no_reverse (cs : CurveStore) (s : SurfaceT) (i : N) :
  closed_loop cs s → (i < n_ s)%N → must_reverse cs s i = Some false.
Proof.
  intros Hcl Hi. assert (0 < n_ s)%N as Hn by lia.
  destruct (Hcl i Hi) as (c & cn & Hc & Hcn & Hjoin).
  destruct (Hcl (prev s i) (prev_lt s i Hn)) as (cp & c0 & Hcp & Hc0 & Hjoin').
  rewrite next_prev in Hc0 by done.
  assert (c0 = c) as -> by congruence.
  destruct (curve_at cs (ribbons_ s) i) as [[a c1]|] eqn:Ei; [|done].
  destruct (curve_at cs (ribbons_ s) (next s i)) as [[an cn1]|] eqn:En; [|done].
  destruct (curve_at cs (ribbons_ s) (prev s i)) as [[ap cp1]|] eqn:Ep; [|done].
  cbn in Hc, Hcn, Hcp. simplify_eq.
  unfold must_reverse. rewrite Ei, En, Ep. cbn.
  destruct (i =? 0)%N; f_equal; apply bool_decide_eq_false_2.
  - rewrite Hjoin, norm_sub_self.
    pose proof (norm_nonneg (curve_eval c 0 - curve_eval cn 0)%V).
    pose proof (norm_nonneg (curve_eval c 0 - curve_eval cn 1)%V).
    pose proof (Rmin_l 0 (norm (curve_eval cn 0 - curve_eval cn 1)%V)).
    unfold Rmin at 1. destruct (Rle_dec _ _); lra.
  - rewrite Hjoin', norm_sub_self.
    pose proof (norm_nonneg (curve_eval c 1 - curve_eval c 0)%V). lra.
Qed.

Lemma closed_loop_curves_set (cs : CurveStore) (s : SurfaceT) :
  closed_loop cs s → curves_set cs s.
Proof.
  intros Hcl i Hi. destruct (Hcl i Hi) as (c & _ & Hc & _).
  destruct (curve_at cs (ribbons_ s) i); [by eexists | done].
Qed.

Lemma closed_loop_same_shape (cs : CurveStore) (s t : SurfaceT) :
  same_shape s t → closed_loop cs s → closed_loop cs t.
Proof.
  intros Hst Hcl i Hi. unfold next.
  rewrite !(curve_at_same_shape cs s t) by done.
  destruct Hst as (Hn & _). rewrite Hn in *. by apply Hcl.
Qed.

Lemma same_shape_sized (s t : SurfaceT) :
  same_shape s t → ribbons_sized s → ribbons_sized t.
Proof. intros (Hn & _ & Hl & _). unfold ribbons_sized. congruence. Qed.

(** On a closed loop the second loop of [setupLoop] reverses nothing. *)
Lemma orient_curves_closed (σ : State) :
  ribbons_sized (surf σ) → closed_loop (store σ) (surf σ) →
  ∃ σ', orient_curves σ = Some σ' ∧ store σ' = store σ ∧
        same_shape (surf σ) (surf σ').
Proof.
  intros Hsz Hcl. unfold orient_curves.
  destruct (for_each_defined orient_step
              (fun τ => store τ = store σ ∧ same_shape (surf σ) (surf τ))
              (iota (n_ (surf σ))) σ) as (σ' & Hrun & Hst & Hsh).
  - intros i τ Hi%elem_of_iota [Hst Hsh].
    destruct (orient_step_Some i τ)
      as (a & c & b & τ' & _ & Hb & Hrun & Hshape & Hstore).
    + by apply (same_shape_sized (surf σ)).
    + rewrite Hst. apply (same_shape_curves_set _ (surf σ)); [done|].
      by apply closed_loop_curves_set.
    + by destruct Hsh as (-> & _).
    + rewrite Hst, (must_reverse_same_shape _ (surf σ)) in Hb by done.
      rewrite closed_no_reverse in Hb by done. injection Hb as <-.
      exists τ'. split; [done|]. split; [congruence|].
      by apply (same_shape_trans _ (surf τ)).
  - split; [done | apply same_shape_refl].
  - by exists σ'.
Qed.

Lemma normalized_at_insert (cs : CurveStore) (a b : nat) (c : BSCurve) :
  (a < length cs)%nat → normalized_at cs b →
  normalized_at (<[a := curve_normalize c]> cs) b.
Proof.
  intros Ha [c' Hc']. unfold normalized_at.
  destruct (decide (b = a)) as [->|Hne].
  - exists c. by apply list_lookup_insert_eq.
  - exists c'. by rewrite list_lookup_insert_ne.
Qed.

(** The first loop of [setupLoop]: the surface is untouched, and every
    curve a visited ribbon refers to ends up normalised. *)
Lemma normalize_loop (l : list N) (σ σ1 : State) :
  for_each normalize_step l σ = Some σ1 →
  surf σ1 = surf σ ∧ length (store σ1) = length (store σ) ∧
  (∀ a, normalized_at (store σ) a → normalized_at (store σ1) a) ∧
  (∀ i a c, i ∈ l → curve_at (store σ1) (ribbons_ (surf σ)) i = Some (a, c) →
            normalized_at (store σ1) a).
Proof.
  revert σ. induction l as [|i l IH]; intros σ Hrun; simpl in Hrun.
  - simplify_eq. repeat split; try done. intros i a c Hi. by apply elem_of_nil in Hi.
  - destruct (normalize_step i σ) as [τ|] eqn:Eτ; [|done]. simpl in Hrun.
    apply normalize_step_Some in Eτ as (a0 & c0 & Hac & ->).
    destruct (IH _ Hrun) as (Hs & Hl & Hkeep & Hin). cbn in Hs, Hl, Hkeep, Hin.
    assert (a0 < length (store σ))%nat as Ha0.
    { apply curve_at_ptr in Hac as (r & _ & _ & Hc). by eapply lookup_lt_Some. }
    rewrite length_insert in Hl.
    split; [done|]. split; [done|]. split.
    + intros a Ha. by apply Hkeep, normalized_at_insert.
    + intros j a c [->|Hj]%elem_of_cons Hjc; [|by eapply Hin].
      apply curve_at_ptr in Hjc as (r & Hr & Hra & _).
      apply curve_at_ptr in Hac as (r' & Hr' & Hra' & _).
      assert (a = a0) as -> by congruence.
      apply Hkeep. exists c0. by apply list_lookup_insert_eq.
Qed.

(** Normalising curves that are normalised already changes nothing, when
    normalisation is idempotent. *)
Lemma normalize_noop (l : list N) (σ : State) :
  (∀ c, curve_normalize (curve_normalize c) = curve_normalize c) →
  (∀ i, i ∈ l →
     ∃ a c, curve_at (store σ) (ribbons_ (surf σ)) i = Some (a, c) ∧
            normalized_at (store σ) a) →
  for_each normalize_step l σ = Some σ.
Proof.
  intros Hid. induction l as [|i l IH]; intros Hall; [done|]. simpl.
  destruct (Hall i) as (a & c & Hac & c' & Hc'); [by left|].
  assert (normalize_step i σ = Some σ) as ->.
  { apply normalize_step_Some. exists a, c. split; [done|].
    pose proof Hac as (r & _ & _ & Hc)%curve_at_ptr.
    assert (c = curve_normalize c') as -> by congruence.
    rewrite Hid, list_insert_id by done. by destruct σ. }
  simpl. apply IH. intros j Hj. apply Hall. by right.
Qed.

(** C5.  When the curves, once normalised by the first loop, form a closed
    and consistently oriented loop (the end point of every curve is the
    start point of the next), [setupLoop] is defined and reverses no curve:
    the test of every index fails, and the curves are left as the first
    loop made them.  Hence, normalisation being idempotent, a second run
    of [setupLoop] reverses nothing either and leaves the curves as the
    first run left them.  This holds for every number of sides, three or
    more in particular. *)
Theorem setupLoop_closed_loop (σ σ1 : State) :
  ribbons_sized (surf σ) →
  normalize_curves σ = Some σ1 →
  closed_loop (store σ1) (surf σ1) →
  (∀ c, curve_normalize (curve_normalize c) = curve_normalize c) →
  ∃ σ2 σ3,
    setupLoop σ = Some σ2 ∧ store σ2 = store σ1 ∧
    (∀ i, (i < n_ (surf σ))%N →
       must_reverse (store σ1) (surf σ1) i = Some false) ∧
    setupLoop σ2 = Some σ3 ∧ store σ3 = store σ2 ∧
    (∀ i, (i < n_ (surf σ))%N →
       must_reverse (store σ2) (surf σ2) i = Some false).
Proof.
  intros Hsz Hnorm Hcl Hid.
  destruct (normalize_loop _ _ _ Hnorm) as (Hs1 & _ & _ & Hnormed).
  assert (ribbons_sized (surf σ1)) as Hsz1 by (by rewrite Hs1).
  destruct (orient_curves_closed σ1 Hsz1 Hcl) as (σ2 & Hσ2 & Hst2 & Hsh2).
  assert (closed_loop (store σ2) (surf σ2)) as Hcl2.
  { rewrite Hst2. by apply (closed_loop_same_shape _ (surf σ1)). }
  assert (normalize_curves σ2 = Some σ2) as Hnorm2.
  { apply normalize_noop; [done|]. intros i Hi%elem_of_iota.
    destruct (closed_loop_curves_set _ _ Hcl2 i Hi) as [[a c] Hac].
    exists a, c. split; [done|]. rewrite Hst2. apply (Hnormed i a c).
    - apply elem_of_iota. destruct Hsh2 as (Hn & _). by rewrite <- Hs1, <- Hn.
    - rewrite <- Hs1, <- Hst2, <- (curve_at_same_shape _ _ (surf σ2)); done. }
  destruct (orient_curves_closed σ2) as (σ3 & Hσ3 & Hst3 & _);
    [by apply (same_shape_sized (surf σ1)) | done |].
  exists σ2, σ3. unfold setupLoop. rewrite Hnorm, Hnorm2. cbn.
  split; [done|]. split; [done|]. split.
  { intros i Hi. apply closed_no_reverse; [done | by rewrite Hs1]. }
  split; [done|]. split; [done|].
  intros i Hi. apply closed_no_reverse; [done|].
  destruct Hsh2 as (-> & _). by rewrite Hs1.
Qed.

(** [setupLoop] is defined on every surface whose ribbons have their
    curves. *)
Lemma curves_set_insert (cs : CurveStore) (s : SurfaceT) (a : nat) (x : BSCurve) :
  curves_set cs s → curves_set (<[a := x]> cs) s.
Proof.
  intros Hcs i Hi. destruct (Hcs i Hi) as [[b c] Hbc].
  destruct (decide (a < length cs)%nat) as [Ha|Ha].
  - rewrite (curve_at_insert _ _ _ _ _ _ _ Ha Hbc). by eexists.
  - rewrite list_insert_ge by lia. by eexists.
Qed.

Lemma normalize_curves_defined (σ : State) :
  curves_set (store σ) (surf σ) →
  ∃ σ1, normalize_curves σ = Some σ1 ∧ surf σ1 = surf σ ∧
        curves_set (store σ1) (surf σ1).
Proof.
  intros Hcs. unfold normalize_curves.
  destruct (for_each_defined normalize_step
              (fun τ => surf τ = surf σ ∧ curves_set (store τ) (surf τ))
              (iota (n_ (surf σ))) σ) as (σ1 & Hrun & Hs & Hcs1);
    [| done | by exists σ1].
  intros i τ Hi%elem_of_iota [Hs Hcsτ].
  destruct (Hcsτ i) as [[a c] Hac]; [by rewrite Hs|].
  eexists. split; [apply normalize_step_Some; by exists a, c|].
  cbn. split; [done|]. by apply curves_set_insert.
Qed.

Lemma orient_curves_defined (σ : State) :
  ribbons_sized (surf σ) → curves_set (store σ) (surf σ) →
  is_Some (orient_curves σ).
Proof.
  intros Hsz Hcs. unfold orient_curves.
  destruct (for_each_defined orient_step
              (fun τ => same_shape (surf σ) (surf τ) ∧
                        curves_set (store τ) (surf τ))
              (iota (n_ (surf σ))) σ) as (σ' & Hrun & _);
    [| split; [apply same_shape_refl | done] | by exists σ'].
  intros i τ Hi%elem_of_iota [Hsh Hcsτ].
  destruct (orient_step_Some i τ)
    as (a & c & b & τ' & _ & _ & Hrun & Hshape & Hstore);
    [by apply (same_shape_sized (surf σ)) | done
    | by destruct Hsh as (-> & _) |].
  exists τ'. split; [done|].
  split; [by apply (same_shape_trans _ (surf τ))|].
  rewrite Hstore. apply (same_shape_curves_set _ (surf τ)); [done|].
  destruct b; [by apply curves_set_insert | done].
Qed.

Lemma setupLoop_defined (σ : State) :
  ribbons_sized (surf σ) → curves_set (store σ) (surf σ) →
  is_Some (setupLoop σ).
Proof.
  intros Hsz Hcs. unfold setupLoop.
  destruct (normalize_curves_defined σ Hcs) as (σ1 & -> & Hs & Hcs1).
  cbn [mbind option_bind]. apply orient_curves_defined; [|done].
  by rewrite Hs.
Qed.

(** *** The sizes of the vectors *)

Lemma orient_step_shape (i : N) (σ σ' : State) :
  orient_step i σ = Some σ' →
  n_ (surf σ') = n_ (surf σ) ∧
  length (ribbons_ (surf σ')) = length (ribbons_ (surf σ)) ∧
  corner_data_ (surf σ') = corner_data_ (surf σ).
Proof.
  unfold orient_step. intros Hrun. repeat bind_inv Hrun.
  apply assign_length in E2.
  destruct b.
  - apply reverse_curve_Some in Hrun as (a & c & _ & ->). by cbn.
  - simplify_eq. by cbn.
Qed.

Lemma setupLoop_shape (σ σ' : State) :
  setupLoop σ = Some σ' →
  n_ (surf σ') = n_ (surf σ) ∧
  length (ribbons_ (surf σ')) = length (ribbons_ (surf σ)) ∧
  corner_data_ (surf σ') = corner_data_ (surf σ).
Proof.
  unfold setupLoop. intros Hrun. bind_inv Hrun.
  apply normalize_loop in E as (Hs & _). unfold orient_curves in Hrun.
  rewrite <- Hs.
  apply (for_each_inv orient_step
           (fun τ => n_ (surf τ) = n_ (surf s) ∧
                     length (ribbons_ (surf τ)) = length (ribbons_ (surf s)) ∧
                     corner_data_ (surf τ) = corner_data_ (surf s))
           _ _ _) in Hrun; [done | | done].
  intros i τ τ' _ (Hn & Hl & Hc) Hstep.
  apply orient_step_shape in Hstep as (? & ? & ?).
  split; [congruence|]. split; congruence.
Qed.

Lemma update_sizes (cs : CurveStore) (s s' : SurfaceT) :
  update cs s = Some s' → ribbons_sized s → sizes_agree s'.
Proof.
  unfold update. intros Hrun Hsz. bind_inv Hrun.
  destruct (refresh_domain_frame cs s) as (Hn0 & Hr0 & _).
  apply update_ribbons_loop in E as (Hn1 & _ & Hl1 & _).
  unfold updateCorners in Hrun.
  apply updateCorner_loop in Hrun as (Hn & Hr & Hl & _); [|apply NoDup_iota].
  cbn in Hn, Hr, Hl. rewrite resize_vec_length in Hl.
  unfold sizes_agree, ribbons_sized in *. rewrite Hr, Hn, Hl, Hl1, Hn1, Hr0, Hn0.
  split; [done | lia].
Qed.

Lemma update_one_sizes (cs : CurveStore) (i : N) (s s' : SurfaceT) :
  update_one cs i s = Some s' →
  n_ s' = n_ s ∧ length (ribbons_ s') = length (ribbons_ s) ∧
  length (corner_data_ s') = length (corner_data_ s).
Proof.
  unfold update_one. intros Hrun. bind_inv Hrun.
  destruct (refresh_domain_frame cs s) as (Hn0 & Hr0 & Hc0).
  apply update_ribbon_frame in E as (Hn1 & Hc1 & Hl1 & _).
  destruct (n_ s0 =? 0)%N; [done|]. bind_inv Hrun.
  apply updateCorner_frame in E as (Hn2 & Hr2 & Hl2 & _).
  apply updateCorner_frame in Hrun as (Hn3 & Hr3 & Hl3 & _).
  split; [congruence|]. split; congruence.
Qed.

Lemma setCurve_grows (i : N) (c : CurvePtr) (s : SurfaceT) :
  (n_ s <= i)%N → (i + 1 < SIZE_MOD)%N →
  ∃ s', setCurve i c s = Some s' ∧
        N.of_nat (length (ribbons_ s')) = (i + 1)%N ∧ n_ s' = (i + 1)%N.
Proof.
  intros Hn Hi. unfold setCurve.
  replace (n_ s <=? i)%N with true by (symmetry; apply N.leb_le; lia).
  assert (wrap (i + 1) = (i + 1)%N) as -> by (apply N.mod_small; lia).
  cbn [ribbons_]. unfold assign.
  rewrite decide_True by (rewrite resize_vec_length; lia).
  cbn. eexists. split; [done|]. cbn.
  rewrite length_insert, resize_vec_length. split; [lia | done].
Qed.

Lemma setCurve_sized (i : N) (c : CurvePtr) (s s' : SurfaceT) :
  ribbons_sized s → setCurve i c s = Some s' → ribbons_sized s'.
Proof.
  unfold setCurve, ribbons_sized. intros Hsz Hrun. bind_inv Hrun.
  apply assign_length in E. simplify_eq. cbn. rewrite E.
  destruct (n_ s <=? i)%N; [|done]. cbn. rewrite resize_vec_length. lia.
Qed.

Lemma setCurves_sizes (curves : list CurvePtr) (s : SurfaceT) :
  N.of_nat (length (ribbons_ (setCurves curves s))) = n_ (setCurves curves s) ∧
  n_ (setCurves curves s) = N.of_nat (length curves).
Proof. unfold setCurves. cbn. by rewrite length_fmap. Qed.

(** Every state a program can reach has as many ribbons as [n_] says. *)
Lemma reachable_sized (σ : State) : reachable σ → ribbons_sized (surf σ).
Proof.
  induction 1 as [cs d p | cs cs' s _ IH | cs s b _ IH | cs s i c s' _ IH Hi Hrun
                 | cs s curves _ IH | σ σ' _ IH Hrun | cs s i s' _ IH Hrun
                 | cs s s' _ IH Hrun]; cbn in *.
  - done.
  - done.
  - done.
  - by eapply setCurve_sized.
  - apply setCurves_sizes.
  - apply setupLoop_shape in Hrun as (Hn & Hl & _).
    unfold ribbons_sized in *. congruence.
  - apply update_one_sizes in Hrun as (Hn & Hl & _).
    unfold ribbons_sized in *. congruence.
  - by apply update_sizes in Hrun as [? _].
Qed.

(** C9.  After a call of [update()], on any state a program can reach,
    [ribbons_.size() == n_ == corner_data_.size()]; the equation survives
    further calls of [setupLoop], [update()] and [update(i)] ([eval] is a
    const member: the model gives it no successor state).  [setCurves]
    makes [ribbons_.size()] and [n_] the number of curves; [setCurve(i, _)]
    with [i >= n_] (and [i + 1] representable) makes both [i + 1]. *)
Theorem sizes_invariant :
  (∀ σ s', reachable σ → update (store σ) (surf σ) = Some s' → sizes_agree s') ∧
  (∀ cs s σ', sizes_agree s → setupLoop (mkState cs s) = Some σ' →
     sizes_agree (surf σ')) ∧
  (∀ cs s s', sizes_agree s → update cs s = Some s' → sizes_agree s') ∧
  (∀ cs i s s', sizes_agree s → update_one cs i s = Some s' → sizes_agree s') ∧
  (∀ curves s,
     N.of_nat (length (ribbons_ (setCurves curves s))) = n_ (setCurves curves s) ∧
     n_ (setCurves curves s) = N.of_nat (length curves)) ∧
  (∀ i c s, (n_ s <= i)%N → (i + 1 < SIZE_MOD)%N →
     ∃ s', setCurve i c s = Some s' ∧
           N.of_nat (length (ribbons_ s')) = (i + 1)%N ∧ n_ s' = (i + 1)%N).
Proof.
  split; [|split; [|split; [|split; [|split]]]].
  - intros σ s' Hσ Hrun. eapply update_sizes; [done|]. by apply reachable_sized.
  - intros cs s σ' [Hr Hc] Hrun.
    apply setupLoop_shape in Hrun as (Hn & Hl & Hcd). cbn in *.
    unfold sizes_agree. rewrite Hn, Hl, Hcd. done.
  - intros cs s s' [Hr _] Hrun. by eapply update_sizes.
  - intros cs i s s' [Hr Hc] Hrun.
    apply update_one_sizes in Hrun as (Hn & Hl & Hcd).
    unfold sizes_agree. rewrite Hn, Hl, Hcd. done.
  - apply setCurves_sizes.
  - intros i c s. apply setCurve_grows.
Qed.

(** *** Where the gamma remap enters *)

Lemma clamp01_range (x : R) : 0 <= clamp01 x ∧ clamp01 x <= 1.
Proof.
  unfold clamp01, Rmin, Rmax.
  destruct (Rle_dec x 0); destruct (Rle_dec _ 1); lra.
Qed.

Lemma clamp01_nonpos (x : R) : x <= 0 → clamp01 x = 0.
Proof.
  intros Hx. unfold clamp01, Rmin, Rmax.
  destruct (Rle_dec x 0); destruct (Rle_dec _ 1); lra.
Qed.

Lemma clamp01_idem (x : R) : clamp01 (clamp01 x) = clamp01 x.
Proof.
  unfold clamp01, Rmin, Rmax.
  repeat (destruct (Rle_dec _ _); try lra).
Qed.

Lemma clamp01_remapped (x : R) :
  0 <= x → x <= 1 → clamp01 (x / (2 * x + 1)) = x / (2 * x + 1).
Proof.
  intros H0 H1.
  assert (0 <= x / (2 * x + 1)) by (apply le_div_of; lra).
  assert (x / (2 * x + 1) <= 1) by (apply div_le_of; lra).
  unfold clamp01. rewrite Rmax_left, Rmin_left by lra. done.
Qed.

(** C3 (amended).  The blend weights do not depend on [use_gamma_]:
    [blendCorner] and [blendSideSingular] return the same vector whatever
    the flag is set to.  [sideInterpolant] applies the remap to its distance
    before any use: with the flag enabled it evaluates ribbon [i] at the
    clamped position and at [max(d / (2d + 1), 0)], which is the interpolant
    with the remap disabled taken at [d / (2d + 1)].  [cornerCorrection]
    clamps its two parameters to [[0, 1]] and applies the remap where they
    scale the two tangents and the twist term; [rationalTwist] receives the
    clamped parameters without the remap, so that the corner correction is
    not the one with the remap disabled taken at the remapped parameters:
    the two differ in the weights of [rationalTwist] and nowhere else. *)
Theorem gamma_only_in_interpolants (cs : CurveStore) (s : SurfaceT) (b : bool)
    (sds : list Point2D) (i : N) (r : RibbonT) (cd : CornerData)
    (si di si1 : R) :
  ribbon_at (ribbons_ s) i = Some r →
  at_ (corner_data_ s) i = Some cd →
  let g x := x / (2 * x + 1) in
  let u := clamp01 si in
  let v := clamp01 si1 in
  blendCorner (setGamma b s) sds = blendCorner s sds ∧
  blendSideSingular (setGamma b s) sds = blendSideSingular s sds ∧
  sideInterpolant cs (setGamma true s) i si di
  = Some (ribbon_eval cs (ribbons_ s) r (u, Rmax (g di) 0)) ∧
  sideInterpolant cs (setGamma false s) i si di
  = Some (ribbon_eval cs (ribbons_ s) r (u, Rmax di 0)) ∧
  sideInterpolant cs (setGamma true s) i si di
  = sideInterpolant cs (setGamma false s) i si (g di) ∧
  cornerCorrection (setGamma true s) i si si1
  = Some (point cd + tangent1 cd * g u + tangent2 cd * g v
          + rationalTwist u v (twist1 cd) (twist2 cd) * g u * g v)%V ∧
  cornerCorrection (setGamma false s) i (g u) (g v)
  = Some (point cd + tangent1 cd * g u + tangent2 cd * g v
          + rationalTwist (g u) (g v) (twist1 cd) (twist2 cd) * g u * g v)%V.
Proof.
  intros Hr Hcd g u v.
  assert (0 <= u ∧ u <= 1) as [Hu0 Hu1] by apply clamp01_range.
  assert (0 <= v ∧ v <= 1) as [Hv0 Hv1] by apply clamp01_range.
  split; [done|]. split; [done|].
  unfold sideInterpolant, cornerCorrection, gamma.
  cbn [setGamma use_gamma_ ribbons_ corner_data_]. rewrite Hr, Hcd.
  cbn [mbind option_bind]. fold u v.
  split; [done|]. split; [done|]. split; [done|]. split; [done|].
  unfold g. by rewrite !clamp01_remapped.
Qed.

(** ** Properties under rounding *)

(** *** Sums and powers *)

Lemma Rsum_nonneg (l : list R) : Forall (fun t => 0 <= t) l → 0 <= Rsum l.
Proof.
  induction 1 as [|x l Hx _ IH]; [simpl; lra | rewrite Rsum_cons; lra].
Qed.

Lemma Rsum_fmap_le {A : Type} (f g : A → R) (l : list A) :
  (∀ x, x ∈ l → f x <= g x) → Rsum (f <$> l) <= Rsum (g <$> l).
Proof.
  induction l as [|x l IH]; intros Hfg; [simpl; lra|].
  rewrite !fmap_cons, !Rsum_cons.
  pose proof (Hfg x ltac:(left)).
  assert (Rsum (f <$> l) <= Rsum (g <$> l)); [|lra].
  apply IH. intros y Hy. apply Hfg. by right.
Qed.

Lemma Rsum_fmap_scale (l : list R) (c : R) :
  Rsum ((fun x => x * c) <$> l) = Rsum l * c.
Proof.
  induction l as [|x l IH]; [simpl; lra|].
  rewrite fmap_cons, !Rsum_cons, IH. ring.
Qed.

Lemma Rsum_bounds (l : list R) (a b : R) :
  Forall (fun t => a <= t ∧ t <= b) l →
  INR (length l) * a <= Rsum l ∧ Rsum l <= INR (length l) * b.
Proof.
  induction 1 as [|x l [Hx1 Hx2] _ IH]; [simpl; lra|].
  rewrite Rsum_cons. cbn [length]. rewrite S_INR. lra.
Qed.

(** Bernoulli's inequality, in the two forms the bounds need. *)
Lemma pow_minus_ge (u : R) (n : nat) :
  0 <= u → u <= 1 → 1 - INR n * u <= (1 - u) ^ n.
Proof.
  intros Hu Hu1. induction n as [|n IH]; [simpl; lra|].
  rewrite S_INR. cbn [pow].
  assert (0 <= (1 - u) ^ n) by (apply pow_le; lra).
  destruct (Rle_dec (1 - INR n * u) 0) as [Hneg|Hpos].
  - assert (0 <= INR n) by apply pos_INR.
    assert (0 <= (1 - u) * (1 - u) ^ n) by (apply Rmult_le_pos; lra). nra.
  - assert ((1 - u) * (1 - INR n * u) <= (1 - u) * (1 - u) ^ n)
      by (apply Rmult_le_compat_l; lra).
    assert (0 <= INR n) by apply pos_INR. nra.
Qed.

Lemma pow_plus_le (u : R) (n : nat) :
  0 <= u → u <= 1 → (1 + u) ^ n * (1 - INR n * u) <= 1.
Proof.
  intros Hu Hu1.
  assert (0 <= (1 + u) ^ n) as HP by (apply pow_le; lra).
  assert ((1 + u) ^ n * (1 - u) ^ n <= 1) as Hprod.
  { rewrite <- Rpow_mult_distr.
    apply Rle_trans with (1 ^ n); [apply pow_incr; split; nra|].
    rewrite pow1. lra. }
  pose proof (pow_minus_ge u n Hu Hu1).
  apply Rle_trans with ((1 + u) ^ n * (1 - u) ^ n); [|done].
  apply Rmult_le_compat_l; lra.
Qed.

Section Rounded.

Context `{Rounding}.

(** *** The branches of the rounded [blendCorner] *)

Section BlendCornerRounded.

Variable s : SurfaceT.
Variable sds : list Point2D.
Hypothesis sides : n_ s = N.of_nat (length sds).

Local Abbreviation d := (side_distance sds).
Local Abbreviation nb := (side_near sds).

Lemma blendCorner_fl_multi :
  (2 <= boundary_sides sds)%nat →
  blendCorner_fl s sds
  = Some ((fun i => if boundary_corner s sds i then 1 else 0) <$> iota (n_ s)).
Proof.
  intros Hk. unfold blendCorner_fl. rewrite close_to_boundary_count.
  replace (0 <? _)%N with true by (symmetry; apply N.ltb_lt; lia).
  apply mapM_total. intros i Hi%elem_of_iota.
  replace (1 <? _)%N with true by (symmetry; apply N.ltb_lt; lia).
  rewrite (boundary_corner_nb s sds sides) by done.
  destruct (side_in_range s sds sides i Hi) as (sd & -> & _ & ->).
  destruct (side_in_range s sds sides (next s i)) as (sd' & -> & _ & ->);
    [apply next_lt; lia|].
  cbn. by destruct (near_boundary sd), (near_boundary sd').
Qed.

Lemma blendCorner_fl_single :
  boundary_sides sds = 1%nat →
  blendCorner_fl s sds = Some (single_weight_fl s sds <$> iota (n_ s)).
Proof.
  intros Hk. unfold blendCorner_fl. rewrite close_to_boundary_count, Hk.
  change (0 <? N.of_nat 1)%N with true. cbv iota.
  apply mapM_total. intros i Hi%elem_of_iota.
  change (1 <? N.of_nat 1)%N with false. cbv iota.
  assert (0 < n_ s)%N as Hn by lia.
  destruct (side_in_range s sds sides i Hi) as (sd & Ei & Edi & Eni).
  destruct (side_in_range s sds sides (next s i) (next_lt s i Hn))
    as (sd' & Ep & Edp & Enp).
  destruct (side_in_range s sds sides (prev s i) (prev_lt s i Hn))
    as (sd'' & Er & Edr & Enr).
  destruct (side_in_range s sds sides (next s (next s i)) (next_lt s _ Hn))
    as (sd3 & Enn & Ednn & Ennn).
  unfold single_weight_fl, side_term_fl.
  rewrite Eni, Enp, Edi, Edp, Edr, Ednn, Ei. cbn.
  destruct (near_boundary sd).
  - rewrite Ep. cbn. now rewrite Er.
  - rewrite Ep. cbn. destruct (near_boundary sd'); [|done]. now rewrite Enn.
Qed.

Lemma blendCorner_fl_interior :
  boundary_sides sds = 0%nat →
  blendCorner_fl s sds
  = Some (normalized_fl (corner_term_fl s sds <$> iota (n_ s))).
Proof.
  intros Hk. unfold blendCorner_fl. rewrite close_to_boundary_count, Hk.
  change (0 <? N.of_nat 0)%N with false. cbv iota.
  rewrite (mapM_total _ (corner_term_fl s sds)); [done|].
  intros i Hi%elem_of_iota.
  assert (0 < n_ s)%N as Hn by lia. unfold corner_term_fl.
  destruct (side_in_range s sds sides i Hi) as (sd & -> & -> & _).
  destruct (side_in_range s sds sides (next s i) (next_lt s i Hn))
    as (sd' & -> & -> & _).
  done.
Qed.

End BlendCornerRounded.

(** *** The error of rounded results *)

Section RoundingError.

Hypothesis laws : rounding_error.

(** The error of one rounding of a positive normal result. *)
Lemma rnd_normal (x : R) :
  min_normal <= x → x <= max_finite →
  x * (1 - roundoff) <= rnd x ∧ rnd x <= x * (1 + roundoff).
Proof.
  intros Hlo Hhi. destruct (min_normal_range laws) as [Hm _].
  pose proof (rnd_error laws x) as He.
  rewrite (Rabs_pos_eq x), Rmax_left in He by lra.
  specialize (He Hhi). apply Rabs_within in He. nra.
Qed.

(** The rounded [gamma] stays within four roundings of [d / (2d + 1)]. *)
Lemma gamma_fl_close (s : SurfaceT) (d : R) :
  roundoff <= 1 / 8 → 4 * min_normal <= d → 4 * d <= max_finite →
  d / (2 * d + 1) * (1 - 4 * roundoff) <= gamma_fl (setGamma true s) d ∧
  gamma_fl (setGamma true s) d <= d / (2 * d + 1) * (1 + 4 * roundoff).
Proof.
  intros Hu Hlo Hhi. unfold gamma_fl. cbn [setGamma use_gamma_].
  pose proof (roundoff_nonneg laws) as Hu0.
  destruct (min_normal_range laws) as [Hm Hm1].
  pose proof (max_finite_range laws) as HM.
  set (u := roundoff) in *. set (m := min_normal) in *.
  set (M := max_finite) in *.
  destruct (rnd_normal (2 * d)) as [L1 U1]; [fold m; lra | fold M; lra |].
  fold u in L1, U1. set (r1 := rnd (2 * d)) in *.
  assert (0 <= d * (1 - u)) as Hd1 by (apply Rmult_le_pos; lra).
  assert (d * u <= d / 8) as Hd2 by nra.
  destruct (rnd_normal (r1 + 1)) as [L2 U2]; [fold m; lra | fold M; lra |].
  fold u in L2, U2. set (r2 := rnd (r1 + 1)) in *.
  assert ((2 * d + 1) * (1 - u) * (1 - u) <= r2) as Hr2lo by nra.
  assert (r2 <= (2 * d + 1) * (1 + u) * (1 + u)) as Hr2hi by nra.
  assert (0 < r2) as Hr2 by nra.
  assert (d / r2 <= 4 * d) as Hq_hi by (apply div_le_of; [done | nra]).
  assert (m <= d / r2) as Hq_lo.
  { apply le_div_of; [done|].
    destruct (Rle_dec d 1); nra. }
  destruct (rnd_normal (d / r2)) as [L3 U3]; [done | fold M; lra |].
  fold u in L3, U3. set (q := d / r2) in *.
  assert (0 < 2 * d + 1) as Hden by lra.
  set (g := d / (2 * d + 1)).
  assert (g * (2 * d + 1) = d) as Hg by (unfold g; field; lra).
  assert (q * r2 = d) as Hq by (unfold q; field; lra).
  assert (0 < g) as Hg0 by (unfold g; apply Rdiv_lt_0_compat; lra).
  assert (0 < q) as Hq0 by (unfold q; apply Rdiv_lt_0_compat; lra).
  split.
  - (* g (1 - 4u) <= q (1 - u) *)
    apply Rle_trans with (q * (1 - u)); [|done].
    apply (Rmult_le_reg_r r2); [done|].
    replace (q * (1 - u) * r2) with (g * (2 * d + 1) * (1 - u)) by (rewrite Hg, <- Hq; ring).
    rewrite Hg.
    apply Rle_trans with (g * (1 - 4 * u) * ((2 * d + 1) * (1 + u) * (1 + u))).
    { apply Rmult_le_compat_l; [apply Rmult_le_pos; lra | done]. }
    replace (g * (1 - 4 * u) * ((2 * d + 1) * (1 + u) * (1 + u)))
      with (d * ((1 - 4 * u) * ((1 + u) * (1 + u)))) by (unfold g; field; lra).
    apply Rmult_le_compat_l; [lra | nra].
  - apply Rle_trans with (q * (1 + u)); [done|].
    apply (Rmult_le_reg_r r2); [done|].
    replace (q * (1 + u) * r2) with (g * (2 * d + 1) * (1 + u)) by (rewrite Hg, <- Hq; ring).
    rewrite Hg.
    apply Rle_trans with (g * (1 + 4 * u) * ((2 * d + 1) * (1 - u) * (1 - u))).
    { replace (g * (1 + 4 * u) * ((2 * d + 1) * (1 - u) * (1 - u)))
        with (d * ((1 + 4 * u) * ((1 - u) * (1 - u)))) by (unfold g; field; lra).
      apply Rmult_le_compat_l; [lra | nra]. }
    apply Rmult_le_compat_l; [apply Rmult_le_pos; lra | done].
Qed.

(** The rounded accumulation of positive terms. *)
Lemma accumulate_bounds (l : list R) (acc a : R) :
  roundoff <= 1 → min_normal <= a → 0 <= acc →
  Forall (fun t => a <= t) l →
  (acc + Rsum l) * (1 + roundoff) ^ length l <= max_finite →
  let r := fold_left (fun acc x => rnd (acc + x)) l acc in
  (acc + Rsum l) * (1 - roundoff) ^ length l <= r ∧
  r <= (acc + Rsum l) * (1 + roundoff) ^ length l.
Proof.
  intros Hu1 Ha Hacc Hl. revert acc Hacc.
  pose proof (roundoff_nonneg laws) as Hu0.
  destruct (min_normal_range laws) as [Hm _].
  induction Hl as [|x l Hx Hl IH]; intros acc Hacc Hmax r.
  - subst r. simpl in *. lra.
  - subst r. cbn [fold_left length pow] in *. rewrite Rsum_cons in *.
    set (u := roundoff) in *.
    set (S := Rsum l) in *.
    assert (0 <= S) as HS.
    { apply Rsum_nonneg. eapply Forall_impl; [exact Hl|].
      intros t Ht. simpl in Ht. lra. }
    set (P := (1 + u) ^ length l) in *. set (Q := (1 - u) ^ length l) in *.
    assert (1 <= P) as HP by (apply pow_R1_Rle; lra).
    assert (0 <= Q) as HQ by (apply pow_le; lra).
    assert (acc + x <= (acc + (x + S)) * ((1 + u) * P)) as Hle.
    { assert (1 <= (1 + u) * P) by nra.
      assert (0 <= acc + (x + S)) by lra. nra. }
    destruct (rnd_normal (acc + x)) as [L U]; [lra | lra |].
    fold u in L, U. set (acc' := rnd (acc + x)) in *.
    assert (0 <= acc') as Hacc' by nra.
    assert ((acc' + S) * P <= (acc + (x + S)) * ((1 + u) * P)) as Hstep.
    { replace ((acc + (x + S)) * ((1 + u) * P))
        with ((acc + (x + S)) * (1 + u) * P) by ring.
      apply Rmult_le_compat_r; [lra | nra]. }
    destruct (IH acc' Hacc') as [IHl IHu]; [lra|].
    split.
    + apply Rle_trans with ((acc' + S) * Q); [|done].
      replace ((acc + (x + S)) * ((1 - u) * Q))
        with ((acc + (x + S)) * (1 - u) * Q) by ring.
      apply Rmult_le_compat_r; [done | nra].
    + lra.
Qed.

(** The sum of a normalised vector of positive doubles is 1 up to the
    roundings of the accumulation and of one division. *)
Lemma normalized_fl_sum (l : list R) (a b : R) :
  l ≠ [] →
  (INR (length l) + 1) * roundoff <= 1 / 2 →
  min_normal <= a →
  2 * INR (length l) * b <= max_finite →
  2 * INR (length l) * b * min_normal <= a →
  Forall (fun t => a <= t ∧ t <= b) l →
  Rabs (Rsum (normalized_fl l) - 1) <= 2 * (INR (length l) + 1) * roundoff.
Proof.
  intros Hne Hnu Ha HM Hm Hl.
  pose proof (roundoff_nonneg laws) as Hu0.
  destruct (min_normal_range laws) as [Hm0 _].
  pose proof (max_finite_range laws) as HM4.
  assert (1 <= INR (length l)) as Hn1.
  { destruct l; [done|]. cbn [length]. rewrite S_INR.
    pose proof (pos_INR (length l)). lra. }
  destruct (Rsum_bounds l a b Hl) as [HTlo HThi].
  pose proof (pow_minus_ge roundoff (length l)) as HQ.
  pose proof (pow_plus_le roundoff (length l)) as HP.
  set (u := roundoff) in *. set (m := min_normal) in *.
  set (M := max_finite) in *. set (n := INR (length l)) in *.
  set (T := Rsum l) in *.
  assert (u <= 1 / 4) as Hu4 by nra.
  assert (n * u <= 1 / 2) as Hnu' by nra.
  specialize (HQ Hu0 ltac:(lra)). specialize (HP Hu0 ltac:(lra)).
  assert (1 <= (1 + u) ^ length l) as HP1 by (apply pow_R1_Rle; lra).
  set (P := (1 + u) ^ length l) in *. set (Q := (1 - u) ^ length l) in *.
  assert (P <= 2) as HP2 by nra.
  assert (0 < a) as Ha0 by lra.
  assert (0 < T) as HT0 by nra.
  assert (a <= b) as Hab.
  { destruct Hl as [|x l' [? ?] _]; [done | lra]. }
  assert (T * P <= M) as HTP.
  { apply Rle_trans with (T * 2); [apply Rmult_le_compat_l; lra | lra]. }
  destruct (accumulate_bounds l 0 a) as [Hdlo Hdhi];
    [fold u; lra | done | lra | | rewrite Rplus_0_l; done |].
  { eapply Forall_impl; [exact Hl|]. intros t [? _]. done. }
  rewrite Rplus_0_l in Hdlo, Hdhi. fold u T P Q in Hdlo, Hdhi.
  unfold normalized_fl.
  set (den := fold_left (fun acc x => rnd (acc + x)) l 0) in *.
  assert (T * (1 - n * u) <= den) as Hden_lo.
  { apply Rle_trans with (T * Q); [apply Rmult_le_compat_l; lra | done]. }
  assert (T / 2 <= den) as Hden_half by nra.
  assert (0 < den) as Hden by lra.
  assert (den <= T * 2) as Hden_hi.
  { apply Rle_trans with (T * P); [done | apply Rmult_le_compat_l; lra]. }
  assert (∀ x, x ∈ l →
            x / den * (1 - u) <= rnd (x / den) ∧
            rnd (x / den) <= x / den * (1 + u)) as Hround.
  { intros x Hx.
    assert (a <= x ∧ x <= b) as [Hxa Hxb]
      by (by eapply (proj1 (Forall_forall _ _) Hl)).
    assert (x <= T) as HxT.
    { apply elem_le_Rsum; [|done]. eapply Forall_impl; [exact Hl|].
      intros t [? _]. simpl. lra. }
    apply rnd_normal.
    - apply le_div_of; [done|]. fold m.
      apply Rle_trans with (m * (T * 2)); [apply Rmult_le_compat_l; lra|].
      apply Rle_trans with (m * (n * b * 2)); [|lra].
      apply Rmult_le_compat_l; lra.
    - apply div_le_of; [done|]. fold M. nra. }
  assert (Rsum ((fun x => rnd (x / den)) <$> l) <= T * ((1 + u) / den)) as Hup.
  { unfold T. rewrite <- Rsum_fmap_scale. apply Rsum_fmap_le.
    intros x Hx. destruct (Hround x Hx) as [_ Hx2].
    replace (x * ((1 + u) / den)) with (x / den * (1 + u)) by (field; lra).
    done. }
  assert (T * ((1 - u) / den) <= Rsum ((fun x => rnd (x / den)) <$> l)) as Hlow.
  { unfold T. rewrite <- Rsum_fmap_scale. apply Rsum_fmap_le.
    intros x Hx. destruct (Hround x Hx) as [Hx1 _].
    replace (x * ((1 - u) / den)) with (x / den * (1 - u)) by (field; lra).
    done. }
  set (total := Rsum ((fun x => rnd (x / den)) <$> l)) in *.
  assert (T * ((1 + u) / den) <= 1 + 2 * (n + 1) * u) as Hup'.
  { replace (T * ((1 + u) / den)) with (T * (1 + u) / den) by (field; lra).
    apply div_le_of; [done|].
    apply Rle_trans with ((1 + 2 * (n + 1) * u) * (T * (1 - n * u))).
    - replace ((1 + 2 * (n + 1) * u) * (T * (1 - n * u)))
        with (T * ((1 + 2 * (n + 1) * u) * (1 - n * u))) by ring.
      apply Rmult_le_compat_l; [lra | nra].
    - apply Rmult_le_compat_l; [nra | done]. }
  assert (1 - 2 * (n + 1) * u <= T * ((1 - u) / den)) as Hlow'.
  { replace (T * ((1 - u) / den)) with (T * (1 - u) / den) by (field; lra).
    apply le_div_of; [done|].
    apply Rle_trans with ((1 - 2 * (n + 1) * u) * (T * P)).
    - apply Rmult_le_compat_l; [nra | done].
    - replace ((1 - 2 * (n + 1) * u) * (T * P))
        with (T * ((1 - 2 * (n + 1) * u) * P)) by ring.
      apply Rmult_le_compat_l; [lra | nra]. }
  apply Rabs_le. lra.
Qed.

Section BlendSums.

Variable s : SurfaceT.
Variable sds : list Point2D.
Variables a b : R.
Hypothesis epsilon_pos : 0 < epsilon.
Hypothesis sides : n_ s = N.of_nat (length sds).
Hypothesis nonempty : (1 <= n_ s)%N.
Hypothesis small : (INR (length sds) + 1) * roundoff <= 1 / 2.
Hypothesis a_normal : min_normal <= a.
Hypothesis a_le_b : a <= b.
Hypothesis no_overflow : 2 * INR (length sds) * b <= max_finite.
Hypothesis no_underflow : 2 * INR (length sds) * b * min_normal <= a.
Hypothesis side_terms :
  ∀ i, (i < n_ s)%N → side_near sds i = false →
       a <= side_term_fl sds i ∧ side_term_fl sds i <= b.

Local Abbreviation tol := (2 * (INR (length sds) + 1) * roundoff).

Lemma sides_count : 1 <= INR (length sds).
Proof.
  replace 1 with (INR 1) by done. apply le_INR. lia.
Qed.

Lemma single_sum_fl :
  boundary_sides sds = 1%nat → (2 <= n_ s)%N →
  Rabs (Rsum (single_weight_fl s sds <$> iota (n_ s)) - 1) <= tol.
Proof.
  intros Hk Hn.
  pose proof (roundoff_nonneg laws) as Hu0.
  destruct (min_normal_range laws) as [Hm0 _].
  pose proof (max_finite_range laws) as HM4.
  assert (2 <= INR (length sds)) as Hn2.
  { replace 2 with (INR 2) by (simpl; lra). apply le_INR. lia. }
  destruct (single_boundary_side s sds sides Hk) as (j & Hj & Hnj & Hoth).
  assert (prev s j < n_ s)%N as Hp by (apply prev_lt; lia).
  assert (next s j < n_ s)%N as Hx by (apply next_lt; lia).
  assert (prev s j ≠ j) as Hpj by (by apply prev_ne).
  assert (next s j ≠ j) as Hxj by (by apply next_ne).
  rewrite (Rsum_two_points (single_weight_fl s sds) _ j (prev s j));
    [| apply NoDup_iota | by apply elem_of_iota | by apply elem_of_iota | done |].
  - unfold single_weight_fl. rewrite Hnj, (Hoth (prev s j)) by done.
    rewrite next_prev, Hnj by done.
    destruct (side_terms (next s j) Hx (Hoth _ Hx Hxj)) as [Hx1 Hx2].
    destruct (side_terms (prev s j) Hp (Hoth _ Hp Hpj)) as [Hp1 Hp2].
    set (X := side_term_fl sds (next s j)) in *.
    set (Y := side_term_fl sds (prev s j)) in *.
    rewrite (Rplus_comm Y X).
    set (u := roundoff) in *. set (m := min_normal) in *.
    set (M := max_finite) in *. set (n := INR (length sds)) in *.
    assert (u <= 1 / 6) as Hu6 by nra.
    assert (0 < a) as Ha0 by lra.
    assert (4 * (b * m) <= a) as Hbm.
    { apply Rle_trans with (2 * n * b * m); [|done].
      assert (0 <= b * m) by (apply Rmult_le_pos; lra). nra. }
    destruct (rnd_normal (X + Y)) as [LD UD]; [fold m; lra | fold M; nra |].
    fold u in LD, UD. set (D := rnd (X + Y)) in *.
    assert ((X + Y) / 2 <= D) as HDhalf by nra.
    assert (0 < D) as HD by lra.
    assert (D <= 4 * b) as HD4 by nra.
    assert (∀ t, a <= t → t <= b → t <= X + Y →
              t / D * (1 - u) <= rnd (t / D) ∧ rnd (t / D) <= t / D * (1 + u))
      as Hround.
    { intros t Ht1 Ht2 Ht3. apply rnd_normal.
      - apply le_div_of; [done|]. fold m. nra.
      - apply div_le_of; [done|]. fold M. nra. }
    destruct (Hround X) as [LX UX]; [lra..|].
    destruct (Hround Y) as [LY UY]; [lra..|].
    assert (X / D + Y / D = (X + Y) / D) as Hsum by (field; lra).
    assert ((X + Y) / D <= 1 + 2 * u) as Hq_hi.
    { apply div_le_of; [done|].
      apply Rle_trans with ((1 + 2 * u) * ((X + Y) * (1 - u))); [nra|].
      apply Rmult_le_compat_l; lra. }
    assert (1 - u <= (X + Y) / D) as Hq_lo.
    { apply le_div_of; [done|].
      apply Rle_trans with ((1 - u) * ((X + Y) * (1 + u))); [|nra].
      apply Rmult_le_compat_l; lra. }
    apply Rabs_le. split; nra.
  - intros i Hi%elem_of_iota Hij Hip. unfold single_weight_fl.
    rewrite (Hoth i) by done.
    rewrite (Hoth (next s i)); [done | apply next_lt; lia |].
    intros E. apply Hip. rewrite <- E. symmetry. by apply prev_next.
Qed.

Lemma side_share_sum_fl :
  (1 <= boundary_sides sds)%nat →
  Rabs (Rsum (blendSideSingular_fl s sds) - 1) <= tol.
Proof.
  intros Hk.
  pose proof (roundoff_nonneg laws) as Hu0.
  destruct (min_normal_range laws) as [Hm0 _].
  pose proof (max_finite_range laws) as HM4.
  pose proof sides_count as Hn1.
  unfold blendSideSingular_fl. rewrite close_to_boundary_count.
  replace (0 <? N.of_nat (boundary_sides sds))%N with true
    by (symmetry; apply N.ltb_lt; lia).
  rewrite Rsum_boundary_share, INR_of_N_nat.
  assert (boundary_sides sds <= length sds)%nat as Hkn
    by (unfold boundary_sides; apply length_filter).
  assert (1 <= INR (boundary_sides sds)) as Hk1.
  { replace 1 with (INR 1) by done. by apply le_INR. }
  assert (INR (boundary_sides sds) <= INR (length sds)) as Hk2
    by (by apply le_INR).
  set (k := INR (boundary_sides sds)) in *.
  set (u := roundoff) in *. set (m := min_normal) in *.
  set (M := max_finite) in *. set (n := INR (length sds)) in *.
  assert (0 < a) as Ha0 by lra.
  assert (k * m <= 1) as Hkm.
  { assert (2 * n * m * b <= 1 * b) by nra.
    assert (2 * n * m <= 1) by (apply (Rmult_le_reg_r b); lra). nra. }
  destruct (rnd_normal (1 / k)) as [L U].
  - apply le_div_of; [lra|]. fold m. lra.
  - apply div_le_of; [lra|]. fold M. nra.
  - fold u in L, U.
    assert (k * (1 / k) = 1) as Hone by (field; lra).
    apply Rabs_le. split; nra.
Qed.

Lemma side_interior_sum_fl :
  boundary_sides sds = 0%nat →
  Rabs (Rsum (blendSideSingular_fl s sds) - 1) <= tol.
Proof.
  intros Hk. unfold blendSideSingular_fl.
  rewrite close_to_boundary_count, Hk.
  change (0 <? N.of_nat 0)%N with false. cbv iota.
  assert (length ((fun sd : Point2D => pow_m2_rnd sd.2) <$> sds) = length sds)
    as Hlen by apply length_fmap.
  rewrite <- Hlen. apply (normalized_fl_sum _ a b); rewrite ?Hlen; try done.
  - intros E. apply (f_equal length) in E. rewrite Hlen in E. simpl in E. lia.
  - apply Forall_fmap, Forall_lookup. intros i sd Hi. simpl.
    assert (N.of_nat i < n_ s)%N as Hlt.
    { apply lookup_lt_Some in Hi. lia. }
    destruct (side_in_range s sds sides (N.of_nat i) Hlt) as (sd' & E & Ed & En).
    unfold at_ in E. rewrite Nat2N.id, Hi in E. simplify_eq.
    specialize (side_terms (N.of_nat i) Hlt). unfold side_term_fl in side_terms.
    rewrite Ed in side_terms. apply side_terms. rewrite En.
    apply boundary_sides_0 in Hk.
    apply near_boundary_false.
    by eapply (proj1 (Forall_lookup _ _) Hk).
Qed.

Lemma corner_interior_sum_fl :
  boundary_sides sds = 0%nat →
  (∀ i, (i < n_ s)%N →
        a <= corner_term_fl s sds i ∧ corner_term_fl s sds i <= b) →
  Rabs (Rsum (normalized_fl (corner_term_fl s sds <$> iota (n_ s))) - 1) <= tol.
Proof.
  intros Hk Hterms.
  assert (length (corner_term_fl s sds <$> iota (n_ s)) = length sds) as Hlen.
  { rewrite length_fmap, length_iota. lia. }
  rewrite <- Hlen. apply (normalized_fl_sum _ a b); rewrite ?Hlen; try done.
  - intros E. apply (f_equal length) in E. rewrite Hlen in E. simpl in E. lia.
  - apply Forall_fmap, Forall_forall. intros i Hi%elem_of_iota. simpl.
    by apply Hterms.
Qed.

End BlendSums.

Lemma rnd_within (z B : R) :
  Rabs z <= B → min_normal <= B → B <= max_finite →
  z - roundoff * B <= rnd z ∧ rnd z <= z + roundoff * B.
Proof.
  intros Hz HB HBM. pose proof (roundoff_nonneg laws) as Hu0.
  pose proof (rnd_error laws z ltac:(lra)) as He.
  assert (Rmax (Rabs z) min_normal <= B) as Hmax by (by apply Rmax_lub).
  apply Rabs_within in He.
  assert (roundoff * Rmax (Rabs z) min_normal <= roundoff * B)
    by (by apply Rmult_le_compat_l).
  lra.
Qed.

Lemma blendHermite_fl_close (x : R) :
  roundoff <= 1 / 8 → 0 <= x → x <= 1 →
  Rabs (blendHermite_fl x - blendHermite x) <= 22 * roundoff.
Proof.
  intros Hu Hx0 Hx1.
  pose proof (roundoff_nonneg laws) as Hu0.
  destruct (min_normal_range laws) as [Hm0 Hm4].
  pose proof (max_finite_range laws) as HM4.
  unfold blendHermite_fl, blendHermite. cbv zeta.
  set (u := roundoff) in *.
  assert (0 <= x * x ∧ x * x <= 1) as [Hxx0 Hxx1] by nra.
  destruct (rnd_within (x * x) 1) as [L1 U1];
    [apply Rabs_le; lra | lra | lra |].
  fold u in L1, U1. set (x2 := rnd (x * x)) in *.
  destruct (rnd_within (2 * x) 2) as [L2 U2];
    [apply Rabs_le; lra | lra | lra |].
  fold u in L2, U2. set (t2 := rnd (2 * x)) in *.
  assert (Rabs (t2 * x2 - 2 * x * (x * x)) <= 5 * u) as Hp0.
  { replace (t2 * x2 - 2 * x * (x * x))
      with ((t2 - 2 * x) * x2 + 2 * x * (x2 - x * x)) by ring.
    apply Rabs_le.
    assert (Rabs ((t2 - 2 * x) * x2) <= 2 * u * (1 + u)) as Ha.
    { rewrite Rabs_mult. apply Rmult_le_compat; try apply Rabs_pos.
      - apply Rabs_le; lra.
      - apply Rabs_le; lra. }
    assert (Rabs (2 * x * (x2 - x * x)) <= 2 * u) as Hb.
    { rewrite Rabs_mult.
      apply Rle_trans with (2 * Rabs (x2 - x * x)).
      - apply Rmult_le_compat_r; [apply Rabs_pos | apply Rabs_le; lra].
      - assert (Rabs (x2 - x * x) <= u) by (apply Rabs_le; lra). lra. }
    assert (u * u <= u / 8) by nra.
    apply Rabs_within in Ha. apply Rabs_within in Hb. lra. }
  apply Rabs_within in Hp0.
  assert (0 <= x * (x * x) ∧ x * (x * x) <= 1) as [Hx3a Hx3b] by nra.
  destruct (rnd_within (t2 * x2) 3) as [L3 U3];
    [apply Rabs_le; lra | lra | lra |].
  fold u in L3, U3. set (p := rnd (t2 * x2)) in *.
  destruct (rnd_within (3 * x2) 4) as [L4 U4];
    [apply Rabs_le; lra | lra | lra |].
  fold u in L4, U4. set (c := rnd (3 * x2)) in *.
  assert (-1 <= 2 * x * (x * x) - 3 * (x * x) ∧
          2 * x * (x * x) - 3 * (x * x) <= 0) as [Hq1 Hq2].
  { assert (0 <= (x * x) * (3 - 2 * x)) by (apply Rmult_le_pos; lra).
    assert (0 <= ((1 - x) * (1 - x)) * (2 * x + 1))
      by (apply Rmult_le_pos; nra).
    split; nra. }
  destruct (rnd_within (p - c) 3) as [L5 U5];
    [apply Rabs_le; lra | lra | lra |].
  fold u in L5, U5. set (e := rnd (p - c)) in *.
  destruct (rnd_within (e + 1) 4) as [L6 U6];
    [apply Rabs_le; lra | lra | lra |].
  fold u in L6, U6.
  apply Rabs_le. lra.
Qed.

End RoundingError.

(** *** The order of rounded results *)

Section RoundingOrder.

Hypothesis laws : rounding_order.

Lemma rnd_zero : rnd 0 = 0.
Proof. apply (rnd_int laws 0). lia. Qed.

Lemma rnd_one : rnd 1 = 1.
Proof. apply (rnd_int laws 1). lia. Qed.

Lemma rnd_nonneg (x : R) : 0 <= x → 0 <= rnd x.
Proof. intros Hx. rewrite <- rnd_zero. by apply (rnd_mono laws). Qed.

Lemma rnd_unit (q : R) : 0 <= q → q <= 1 → 0 <= rnd q ∧ rnd q <= 1.
Proof.
  intros Hq0 Hq1. split; [by apply rnd_nonneg|].
  rewrite <- rnd_one. by apply (rnd_mono laws).
Qed.

Lemma share_unit (x D : R) : 0 <= x → x <= D → 0 < D →
  0 <= rnd (x / D) ∧ rnd (x / D) <= 1.
Proof.
  intros Hx HxD HD. apply rnd_unit.
  - apply le_div_of; lra.
  - apply div_le_of; lra.
Qed.

(** The accumulated sum of doubles that are not negative is at least every
    one of them. *)
Lemma accumulate_ge (l : list R) (acc : R) :
  rnd acc = acc → 0 <= acc →
  Forall (fun t => 0 <= t ∧ rnd t = t) l →
  let r := fold_left (fun acc x => rnd (acc + x)) l acc in
  acc <= r ∧ ∀ x, x ∈ l → x <= r.
Proof.
  intros Hacc Hacc0 Hl. revert acc Hacc Hacc0.
  induction Hl as [|x l [Hx Hxr] _ IH]; intros acc Hacc Hacc0 r.
  - subst r. simpl. split; [lra|]. intros x Hx. by apply elem_of_nil in Hx.
  - subst r. cbn [fold_left].
    destruct (IH (rnd (acc + x)) (rnd_idem laws _)) as [IH1 IH2];
      [apply rnd_nonneg; lra|].
    assert (acc <= rnd (acc + x)).
    { rewrite <- Hacc at 1. apply (rnd_mono laws). lra. }
    assert (x <= rnd (acc + x)).
    { rewrite <- Hxr at 1. apply (rnd_mono laws). lra. }
    split; [lra|]. intros y Hy. apply elem_of_cons in Hy as [->|Hy]; [lra|].
    by apply IH2.
Qed.

Lemma normalized_fl_range (l : list R) (w : R) :
  Forall (fun t => 0 < t ∧ rnd t = t) l →
  w ∈ normalized_fl l → 0 <= w ∧ w <= 1.
Proof.
  intros Hl Hw. unfold normalized_fl in Hw.
  apply list_elem_of_fmap in Hw as (x & -> & Hx).
  destruct (accumulate_ge l 0) as [_ Hge]; [apply rnd_zero | lra | |].
  { eapply Forall_impl; [exact Hl|]. intros t [? ?]. split; [lra | done]. }
  assert (0 < x) by (by eapply (proj1 (Forall_forall _ _) Hl)).
  specialize (Hge x Hx). apply share_unit; lra.
Qed.

Section WeightRange.

Variable s : SurfaceT.
Variable sds : list Point2D.
Hypothesis sides : n_ s = N.of_nat (length sds).
Hypothesis side_pos :
  ∀ i, (i < n_ s)%N → side_near sds i = false → 0 < side_term_fl sds i.

Lemma single_weight_fl_range (i : N) :
  boundary_sides sds = 1%nat → (2 <= n_ s)%N → (i < n_ s)%N →
  0 <= single_weight_fl s sds i ∧ single_weight_fl s sds i <= 1.
Proof.
  intros Hk Hn Hi.
  destruct (single_boundary_side s sds sides Hk) as (j & Hj & Hnj & Hoth).
  assert (∀ X Y, 0 < X → 0 < Y → rnd X = X →
            0 <= rnd (X / rnd (X + Y)) ∧ rnd (X / rnd (X + Y)) <= 1) as Hshare.
  { intros X Y HX HY HXr.
    assert (X <= rnd (X + Y)).
    { rewrite <- HXr at 1. apply (rnd_mono laws). lra. }
    apply share_unit; lra. }
  unfold single_weight_fl.
  destruct (side_near sds i) eqn:Eni.
  - assert (i = j) as -> by (destruct (decide (i = j)) as [|Hne]; [done|];
      rewrite (Hoth i Hi Hne) in Eni; done).
    apply Hshare.
    + apply side_pos; [apply next_lt; lia|].
      apply Hoth; [apply next_lt; lia | by apply next_ne].
    + apply side_pos; [apply prev_lt; lia|].
      apply Hoth; [apply prev_lt; lia | by apply prev_ne].
    + apply (pow_m2_double laws).
  - destruct (side_near sds (next s i)) eqn:Enx; [|lra].
    assert (next s i = j) as Ej.
    { destruct (decide (next s i = j)) as [|Hne]; [done|].
      rewrite (Hoth (next s i)) in Enx; [done | apply next_lt; lia | done]. }
    apply Hshare.
    + by apply side_pos.
    + rewrite Ej. apply side_pos; [apply next_lt; lia|].
      apply Hoth; [apply next_lt; lia | by apply next_ne].
    + apply (pow_m2_double laws).
Qed.

End WeightRange.

End RoundingOrder.

End Rounded.

(** *** [gamma] and the sums of the weights *)

(** C6 (amended).  [gamma(0)] is 0 whatever the flag; with [use_gamma_]
    disabled [gamma(d)] is [d].  With [use_gamma_] enabled [gamma(d)] is
    [d / (2d + 1)] evaluated in double arithmetic: for a normal [d] it lies
    within a relative error of [4 roundoff] of the exact quotient.  The
    exact quotient is monotonic non-decreasing on the non-negative numbers;
    the computed value is so up to that rounding error only. *)
Theorem gamma_spec `{Rounding} (s : SurfaceT) (d1 d2 : R) :
  rounding_error →
  gamma_fl s 0 = 0 ∧
  (∀ d, gamma_fl (setGamma false s) d = d) ∧
  (0 <= d1 → d1 <= d2 → d1 / (2 * d1 + 1) <= d2 / (2 * d2 + 1)) ∧
  (roundoff <= 1 / 8 →
   4 * min_normal <= d1 → d1 <= d2 → 4 * d2 <= max_finite →
   Rabs (gamma_fl (setGamma true s) d1 - d1 / (2 * d1 + 1))
   <= 4 * roundoff * (d1 / (2 * d1 + 1)) ∧
   (1 - 4 * roundoff) * gamma_fl (setGamma true s) d1
   <= (1 + 4 * roundoff) * gamma_fl (setGamma true s) d2).
Proof.
  intros laws. split; [|split; [done|split; [apply gamma_enabled_mono|]]].
  - unfold gamma_fl. destruct (use_gamma_ s); [|done].
    replace (0 / rnd (rnd (2 * 0) + 1)) with 0 by (unfold Rdiv; ring).
    apply (rnd_of_zero laws).
  - intros Hu Hlo Hle Hhi.
    pose proof (roundoff_nonneg laws) as Hu0.
    destruct (min_normal_range laws) as [Hm0 _].
    destruct (gamma_fl_close laws s d1 Hu Hlo ltac:(lra)) as [L1 U1].
    destruct (gamma_fl_close laws s d2 Hu ltac:(lra) Hhi) as [L2 U2].
    pose proof (gamma_enabled_mono d1 d2 ltac:(lra) Hle) as Hmono.
    assert (0 <= d1 / (2 * d1 + 1)) as Hg1 by (apply le_div_of; lra).
    set (g1 := d1 / (2 * d1 + 1)) in *. set (g2 := d2 / (2 * d2 + 1)) in *.
    split; [apply Rabs_le; nra|].
    apply Rle_trans with ((1 - 4 * roundoff) * (g1 * (1 + 4 * roundoff))).
    { apply Rmult_le_compat_l; lra. }
    apply Rle_trans with ((1 + 4 * roundoff) * (g2 * (1 - 4 * roundoff))).
    { assert (g1 * ((1 - 4 * roundoff) * (1 + 4 * roundoff))
              <= g2 * ((1 - 4 * roundoff) * (1 + 4 * roundoff)))
        by (apply Rmult_le_compat_r; nra).
      lra. }
    apply Rmult_le_compat_l; lra.
Qed.

(** C1 (amended).  The weights sum to 1 within floating tolerance, and not
    on every input.  Let every operation be rounded with the
    error of [rounding_error], let there
    be [N = n_ >= 1] sides with [(N + 1) * roundoff <= 1/2], and let the
    terms [std::pow(., -2)] that a call computes lie in a range [[a, b]] in
    which neither they, nor their accumulated sum, nor the quotients
    underflow or overflow ([sum_range]).  Then the weights of
    [blendSideSingular], summed as real numbers, are within
    [2 (N + 1) roundoff] of 1; so are those of [blendCorner] when no side
    passes the test [d < epsilon], and when exactly one side does and
    [N >= 2].  When two or more sides pass the test the weights of
    [blendCorner] are 0 and 1, whatever the rounding, and their sum is the
    number of corners that lie between two such sides, which is 1 only when
    there is exactly one such corner: so it is when exactly two sides do,
    the two are adjacent and [N >= 3] (the point is at a corner of the
    domain). *)
Theorem blend_weights_sum `{Rounding} (s : SurfaceT) (sds : list Point2D)
    (a b : R) :
  0 < epsilon → n_ s = N.of_nat (length sds) → (1 <= n_ s)%N →
  let tol := 2 * (INR (length sds) + 1) * roundoff in
  (rounding_error → sum_range (length sds) a b →
   side_terms_within s sds a b →
   Rabs (Rsum (blendSideSingular_fl s sds) - 1) <= tol) ∧
  ∃ ws, blendCorner_fl s sds = Some ws ∧ length ws = length sds ∧
    (boundary_sides sds = 0%nat →
     rounding_error → sum_range (length sds) a b →
     corner_terms_within s sds a b →
     Rabs (Rsum ws - 1) <= tol) ∧
    (boundary_sides sds = 1%nat → (2 <= n_ s)%N →
     rounding_error → sum_range (length sds) a b →
     side_terms_within s sds a b →
     Rabs (Rsum ws - 1) <= tol) ∧
    ((2 <= boundary_sides sds)%nat → Rsum ws = INR (boundary_corners s sds)) ∧
    (boundary_sides sds = 2%nat → (3 <= n_ s)%N →
     ∀ j, (j < n_ s)%N → side_near sds j = true →
          side_near sds (next s j) = true → Rsum ws = 1).
Proof.
  intros Heps Hn Hn1 tol. split.
  - intros laws (Hu & Ha & Hab & HM & Hm) Hside.
    destruct (boundary_sides sds) as [|k] eqn:Hk.
    + by apply (side_interior_sum_fl laws s sds a b).
    + apply (side_share_sum_fl laws s sds a b); try done. lia.
  - destruct (boundary_sides sds) as [|[|k]] eqn:Hk.
    + eexists. split; [by apply blendCorner_fl_interior|].
      split; [unfold normalized_fl; rewrite !length_fmap, length_iota; lia|].
      split; [|split; [done | split; [lia | done]]].
      intros _ laws (Hu & Ha & Hab & HM & Hm) Hcorner.
      by apply (corner_interior_sum_fl laws s sds a b).
    + eexists. split; [by apply blendCorner_fl_single|].
      split; [rewrite length_fmap, length_iota; lia|].
      split; [done|]. split; [|split; [lia | done]].
      intros _ Hn2 laws (Hu & Ha & Hab & HM & Hm) Hside.
      by apply (single_sum_fl laws s sds a b).
    + eexists. split; [apply blendCorner_fl_multi; [done | lia]|].
      split; [rewrite length_fmap, length_iota; lia|].
      split; [done|]. split; [done|]. split.
      * intros _. apply Rsum_indicator.
      * intros Hk2 Hn3 j Hj Hnj Hnx.
        apply (corner_sum s sds Hn j); [congruence | done..].
Qed.

(** ** Further properties of the code *)

(** *** [blendHermite] *)

(** X1.  [blendHermite] evaluates the cubic Hermite blend
    [2x^3 - 3x^2 + 1] in double arithmetic: it is exactly 1 at 0 and 0 at 1,
    and on the unit interval it stays within [22 roundoff] of the exact
    polynomial.  Hence its values lie in [[0, 1]], it decreases, and it is
    complementary to its mirror image, each up to that rounding error: on
    doubles none of the three holds exactly. *)
Theorem blendHermite_unit_interval `{Rounding} (x y : R) :
  rounding_error → rounding_order → roundoff <= 1 / 8 →
  0 <= x → x <= y → y <= 1 →
  blendHermite_fl 0 = 1 ∧ blendHermite_fl 1 = 0 ∧
  Rabs (blendHermite_fl x - (2 * x ^ 3 - 3 * x ^ 2 + 1)) <= 22 * roundoff ∧
  - (22 * roundoff) <= blendHermite_fl x ∧
  blendHermite_fl x <= 1 + 22 * roundoff ∧
  blendHermite_fl y <= blendHermite_fl x + 44 * roundoff ∧
  (x + y = 1 →
   Rabs (blendHermite_fl x + blendHermite_fl y - 1) <= 44 * roundoff).
Proof.
  intros err laws Hu Hx Hxy Hy.
  pose proof (blendHermite_fl_close err x Hu Hx ltac:(lra)) as Cx.
  pose proof (blendHermite_fl_close err y Hu ltac:(lra) Hy) as Cy.
  apply Rabs_within in Cx. apply Rabs_within in Cy.
  unfold blendHermite in Cx, Cy. cbv zeta in Cx, Cy.
  assert (0 <= 2 * x * (x * x) - 3 * (x * x) + 1 ∧
          2 * x * (x * x) - 3 * (x * x) + 1 <= 1) as [Hh0 Hh1].
  { assert (0 <= (x * x) * (3 - 2 * x)) by (apply Rmult_le_pos; nra).
    assert (0 <= ((1 - x) * (1 - x)) * (2 * x + 1))
      by (apply Rmult_le_pos; nra).
    split; nra. }
  assert (2 * y * (y * y) - 3 * (y * y) + 1
          <= 2 * x * (x * x) - 3 * (x * x) + 1) as Hdec.
  { assert (0 <= (y - x) * (3 * (x + y) - 2 * (x * x + x * y + y * y))).
    { apply Rmult_le_pos; [lra|]. nra. }
    nra. }
  split; [|split; [|split; [|split; [|split; [|split]]]]].
  - unfold blendHermite_fl. cbv zeta.
    repeat rewrite ?Rmult_0_r, ?Rminus_0_r, ?(rnd_zero laws).
    rewrite Rplus_0_l. apply (rnd_one laws).
  - unfold blendHermite_fl. cbv zeta.
    rewrite !Rmult_1_r, (rnd_one laws), !Rmult_1_r.
    rewrite (rnd_int laws 2), (rnd_int laws 2), (rnd_int laws 3) by lia.
    replace (2 - 3) with (IZR (-1)) by lra. rewrite (rnd_int laws (-1)) by lia.
    replace (-1 + 1) with 0 by lra. apply (rnd_zero laws).
  - apply Rabs_le. simpl. lra.
  - lra.
  - lra.
  - lra.
  - intros Hsum. assert (y = 1 - x) as -> by lra.
    apply Rabs_le. split; nra.
Qed.

(** *** More on [gamma] and [rationalTwist] *)

(** X2.  With [use_gamma_] enabled, [gamma] maps every double that is not
    negative into [[0, 1/2]] and never above its argument, rounding
    included. *)
Theorem gamma_enabled_range `{Rounding} (s : SurfaceT) (d : R) :
  rounding_order → rnd d = d → 0 <= d →
  0 <= gamma_fl (setGamma true s) d ∧
  gamma_fl (setGamma true s) d <= d ∧
  gamma_fl (setGamma true s) d <= 1 / 2.
Proof.
  intros laws Hrep Hd. unfold gamma_fl. cbn [setGamma use_gamma_].
  assert (rnd (2 * d) = 2 * d) as E2.
  { pose proof (rnd_double laws d) as E. by rewrite Hrep in E. }
  rewrite E2.
  pose proof (rnd_mono laws (2 * d) (2 * d + 1) ltac:(lra)) as H2d.
  rewrite E2 in H2d.
  assert (1 <= rnd (2 * d + 1)) as H1.
  { rewrite <- (rnd_one laws) at 1. apply (rnd_mono laws). lra. }
  set (r := rnd (2 * d + 1)) in *.
  assert (0 <= d / r) as Hq0 by (apply le_div_of; lra).
  assert (d / r <= d) as Hqd by (apply div_le_of; [lra | nra]).
  assert (d / r <= 1 / 2) as Hqh by (apply div_le_of; lra).
  split; [by apply (rnd_nonneg laws)|]. split.
  - rewrite <- Hrep at 2. by apply (rnd_mono laws).
  - rewrite <- (rnd_half laws). by apply (rnd_mono laws).
Qed.

Lemma V3_eq (a b : Vector3D) : vx a = vx b → vy a = vy b → vz a = vz b → a = b.
Proof. destruct a, b. cbn. by intros -> -> ->. Qed.

(** X3.  [rationalTwist] does not depend on the order of its two weighted
    vectors: it does not change when both the weights and the vectors are
    swapped.  Two zero vectors give the zero vector, whatever the
    weights. *)
Theorem rationalTwist_mean (u v : R) (f g : Vector3D) :
  rationalTwist u v f g = rationalTwist v u g f ∧
  rationalTwist u v vzero vzero = vzero.
Proof.
  split.
  - unfold rationalTwist. rewrite (Rplus_comm v u).
    destruct (bool_decide (Rabs (u + v) < epsilon)); [done|].
    apply V3_eq; simpl; lra.
  - unfold rationalTwist.
    destruct (bool_decide (Rabs (u + v) < epsilon)); [done|].
    apply V3_eq; simpl; unfold Rdiv; ring.
Qed.

(** *** The interpolants at the boundary *)

Lemma gamma_0 (s : SurfaceT) : gamma s 0 = 0.
Proof. unfold gamma. destruct (use_gamma_ s); [|done]. unfold Rdiv. lra. Qed.

(** X4.  [cornerCorrection] reproduces the corner data at the boundary.
    With both parameters at (or clamped to) 0 it returns the corner point;
    with the second parameter at 0 it moves from the corner along
    [tangent1] by [gamma] of the first (clamped) parameter, and the twist
    does not contribute; likewise along [tangent2].  Parameters outside
    [0, 1] count as the nearest end of the interval, and a corner index
    outside the corner vector makes the call undefined. *)
Theorem cornerCorrection_boundary (s : SurfaceT) (i : N) (cd : CornerData)
    (si si1 : R) :
  at_ (corner_data_ s) i = Some cd → 0 < epsilon →
  (si <= 0 → si1 <= 0 → cornerCorrection s i si si1 = Some (point cd)) ∧
  (si1 <= 0 →
     cornerCorrection s i si si1
     = Some (point cd + tangent1 cd * gamma s (clamp01 si))%V) ∧
  (si <= 0 →
     cornerCorrection s i si si1
     = Some (point cd + tangent2 cd * gamma s (clamp01 si1))%V) ∧
  cornerCorrection s i si si1
  = cornerCorrection s i (clamp01 si) (clamp01 si1) ∧
  (∀ j, (N.of_nat (length (corner_data_ s)) <= j)%N →
        cornerCorrection s j si si1 = None).
Proof.
  intros Hcd Heps. unfold cornerCorrection. cbv zeta.
  rewrite Hcd, !clamp01_idem. cbn [mbind option_bind].
  split; [|split; [|split; [|split]]].
  - intros H0 H1. rewrite !clamp01_nonpos, gamma_0 by done. f_equal.
    apply V3_eq; cbn; ring.
  - intros H1. rewrite (clamp01_nonpos si1), gamma_0 by done. f_equal.
    apply V3_eq; cbn; ring.
  - intros H0. rewrite (clamp01_nonpos si), gamma_0 by done. f_equal.
    apply V3_eq; cbn; ring.
  - done.
  - intros j Hj. unfold at_. rewrite lookup_ge_None_2 by lia. done.
Qed.

(** X5.  [sideInterpolant] evaluates ribbon [i] inside its parameter
    range only: at a position clamped to [0, 1] and at a distance that is
    never negative.  A distance [d <= 0] (above -1/2 when the remap is
    enabled) gives the point of the boundary curve, [d = 0].  With the remap
    enabled a distance below -1/2 is sent to a positive one, beyond 1/2. *)
Theorem sideInterpolant_range (cs : CurveStore) (s : SurfaceT) (i : N)
    (r : RibbonT) (si di : R) :
  ribbon_at (ribbons_ s) i = Some r →
  (∃ d', 0 <= d' ∧
         sideInterpolant cs s i si di
         = Some (ribbon_eval cs (ribbons_ s) r (clamp01 si, d'))) ∧
  (di <= 0 → (use_gamma_ s = true → - (1 / 2) < di) →
     sideInterpolant cs s i si di
     = Some (ribbon_eval cs (ribbons_ s) r (clamp01 si, 0))) ∧
  (use_gamma_ s = true → di < - (1 / 2) →
     1 / 2 < di / (2 * di + 1) ∧
     sideInterpolant cs s i si di
     = Some (ribbon_eval cs (ribbons_ s) r (clamp01 si, di / (2 * di + 1)))).
Proof.
  intros Hr. unfold sideInterpolant. cbv zeta. rewrite Hr.
  cbn [mbind option_bind]. split; [|split].
  - exists (Rmax (gamma s di) 0). split; [apply Rmax_r | done].
  - intros Hd Hg. do 3 f_equal. apply Rmax_right. unfold gamma.
    destruct (use_gamma_ s); [|done]. specialize (Hg eq_refl).
    apply Rmult_le_reg_r with (2 * di + 1); [lra|].
    replace (di / (2 * di + 1) * (2 * di + 1)) with di by (field; lra). lra.
  - intros Hg Hd. unfold gamma. rewrite Hg.
    assert (1 / 2 < di / (2 * di + 1)) as Hpos.
    { apply Ropp_lt_cancel. apply Rmult_lt_reg_r with (- (2 * di + 1)); [lra|].
      replace (- (di / (2 * di + 1)) * - (2 * di + 1)) with di by (field; lra).
      lra. }
    split; [done|]. do 3 f_equal. apply Rmax_left. lra.
Qed.

(** *** More on the blend functions *)

Lemma blendCorner_short (s : SurfaceT) (sds : list Point2D) :
  (N.of_nat (length sds) < n_ s)%N → blendCorner s sds = None.
Proof.
  intros Hlen.
  assert (at_ sds (N.of_nat (length sds)) = None) as Hout.
  { unfold at_. apply lookup_ge_None_2. lia. }
  assert (N.of_nat (length sds) ∈ iota (n_ s)) as Hin by (by apply elem_of_iota).
  unfold blendCorner. destruct (0 <? close_to_boundary sds)%N.
  - apply mapM_None, Exists_exists. exists (N.of_nat (length sds)).
    split; [done|]. by rewrite Hout.
  - rewrite (proj2 (mapM_None _ _)); [done|]. apply Exists_exists.
    exists (N.of_nat (length sds)). split; [done|]. by rewrite Hout.
Qed.

Lemma blendCorner_long (s : SurfaceT) (sds : list Point2D) :
  (n_ s <= N.of_nat (length sds))%N →
  ∃ ws, blendCorner s sds = Some ws ∧ length ws = N.to_nat (n_ s).
Proof.
  intros Hlen.
  assert (∀ i, (i < n_ s)%N → is_Some (at_ sds i)) as Hat.
  { intros i Hi. apply at_is_Some. lia. }
  assert (∀ i, (i < n_ s)%N → is_Some (at_ sds (next s i))) as Hnext.
  { intros i Hi. apply Hat, next_lt. lia. }
  assert (∀ i, (i < n_ s)%N → is_Some (at_ sds (prev s i))) as Hprev.
  { intros i Hi. apply Hat, prev_lt. lia. }
  unfold blendCorner. destruct (0 <? close_to_boundary sds)%N.
  - match goal with |- ∃ ws, mapM ?f ?l = Some ws ∧ _ =>
      destruct (mapM_is_Some_2 f l) as [ws Hws] end.
    + apply Forall_forall. intros i Hi%elem_of_iota. cbn.
      destruct (Hat i Hi) as [sd ->].
      destruct (Hnext i Hi) as [sd' Hsd'].
      destruct (Hprev i Hi) as [sd'' ->].
      destruct (Hnext (next s i)) as [sd3 ->]; [apply next_lt; lia|].
      rewrite Hsd'. cbn.
      destruct (1 <? _)%N, (near_boundary sd), (near_boundary sd'); by eexists.
    + exists ws. split; [done|].
      apply length_mapM in Hws. by rewrite <- Hws, length_iota.
  - match goal with |- ∃ ws, mapM ?f ?l ≫= _ = Some ws ∧ _ =>
      destruct (mapM_is_Some_2 f l) as [ws Hws] end.
    + apply Forall_forall. intros i Hi%elem_of_iota. cbn.
      destruct (Hat i Hi) as [sd ->]. destruct (Hnext i Hi) as [sd' ->].
      by eexists.
    + rewrite Hws. cbn. eexists. split; [done|].
      apply length_mapM in Hws. unfold normalized.
      by rewrite length_fmap, <- Hws, length_iota.
Qed.

(** X6.  [blendCorner] reads one pair per side of the surface: it is
    defined exactly when [sds] holds at least [n_] pairs, and then returns
    [n_] weights, whatever else [sds] holds; [blendSideSingular] returns one
    weight per pair of [sds], whatever [n_] is. *)
Theorem blend_vector_sizes (s : SurfaceT) (sds : list Point2D) :
  (is_Some (blendCorner s sds) ↔ (n_ s <= N.of_nat (length sds))%N) ∧
  (∀ ws, blendCorner s sds = Some ws → length ws = N.to_nat (n_ s)) ∧
  length (blendSideSingular s sds) = length sds.
Proof.
  split; [split|split].
  - intros [ws Hws]. destruct (decide (n_ s <= N.of_nat (length sds))%N);
      [done|]. rewrite blendCorner_short in Hws by lia. done.
  - intros Hlen. destruct (blendCorner_long s sds Hlen) as (ws & -> & _).
    by eexists.
  - intros ws Hws.
    destruct (decide (n_ s <= N.of_nat (length sds))%N) as [Hlen|Hlen].
    + destruct (blendCorner_long s sds Hlen) as (ws' & Hws' & Hl). congruence.
    + rewrite blendCorner_short in Hws by lia. done.
  - apply blendSideSingular_length.
Qed.

Lemma at_fmap_iota {A : Type} (f : N → A) (n i : N) :
  (i < n)%N → at_ (f <$> iota n) i = Some (f i).
Proof.
  intros Hi. unfold at_. by rewrite list_lookup_fmap, iota_lookup.
Qed.

Section BlendWeights.

Variable s : SurfaceT.
Variable sds : list Point2D.
Hypothesis epsilon_pos : 0 < epsilon.
Hypothesis sides : n_ s = N.of_nat (length sds).

Local Abbreviation d := (side_distance sds).
Local Abbreviation nb := (side_near sds).

(** The two corners next to the one boundary side [j]. *)
Lemma single_weight_at (j : N) :
  boundary_sides sds = 1%nat → (2 <= n_ s)%N → (j < n_ s)%N → nb j = true →
  0 < d (prev s j) ∧ 0 < d (next s j) ∧
  single_weight s sds j
  = d (prev s j) ^ 2 / (d (prev s j) ^ 2 + d (next s j) ^ 2) ∧
  single_weight s sds (prev s j)
  = d (next s j) ^ 2 / (d (prev s j) ^ 2 + d (next s j) ^ 2) ∧
  ∀ i, (i < n_ s)%N → i ≠ j → i ≠ prev s j → single_weight s sds i = 0.
Proof.
  intros Hk Hn Hj Hnj.
  destruct (single_boundary_side s sds sides Hk) as (j' & Hj' & Hnj' & Hoth).
  assert (j' = j) as ->.
  { destruct (decide (j' = j)); [done|]. rewrite (Hoth j) in Hnj; done. }
  assert (prev s j < n_ s)%N as Hp by (apply prev_lt; lia).
  assert (next s j < n_ s)%N as Hx by (apply next_lt; lia).
  assert (prev s j ≠ j) as Hpj by (by apply prev_ne).
  assert (next s j ≠ j) as Hxj by (by apply next_ne).
  pose proof (far_side_pos s sds epsilon_pos sides _ Hp (Hoth _ Hp Hpj)) as Hdp.
  pose proof (far_side_pos s sds epsilon_pos sides _ Hx (Hoth _ Hx Hxj)) as Hdx.
  split; [done|]. split; [done|]. unfold single_weight.
  rewrite Hnj, (Hoth (prev s j)), next_prev, Hnj by done.
  rewrite !pow_m2_inv. split; [|split].
  - field. split; [nra | split; lra].
  - field. split; [nra | split; lra].
  - intros i Hi Hij Hip. rewrite (Hoth i) by done.
    rewrite (Hoth (next s i)); [done | apply next_lt; lia |].
    intros E. apply Hip. rewrite <- E. symmetry. by apply prev_next.
Qed.

End BlendWeights.

(** X7.  On an interior input (no distance below [epsilon]) [blendCorner]
    gives corner [i] the weight [(d_i * d_next(i))^-2] divided by the sum of
    these terms over all corners.  With two or more sides on the boundary
    it gives weight 1 to a corner whose two sides are both on the boundary
    and 0 to every other corner. *)
Theorem blendCorner_weights (s : SurfaceT) (sds : list Point2D) (i : N)
    (sd sd' : Point2D) :
  n_ s = N.of_nat (length sds) → (i < n_ s)%N →
  at_ sds i = Some sd → at_ sds (next s i) = Some sd' →
  ∃ ws w, blendCorner s sds = Some ws ∧ at_ ws i = Some w ∧
    (boundary_sides sds = 0%nat →
       w = / ((sd.2 * sd'.2) ^ 2)
           / Rsum ((fun j => / ((side_distance sds j
                                 * side_distance sds (next s j)) ^ 2))
                   <$> iota (n_ s))) ∧
    ((2 <= boundary_sides sds)%nat →
       w = if decide (sd.2 < epsilon ∧ sd'.2 < epsilon) then 1 else 0).
Proof.
  intros Hn Hi Hsd Hsd'.
  destruct (boundary_sides sds) as [|[|k]] eqn:Hk.
  - eexists _, _. split; [by apply blendCorner_interior|].
    rewrite normalized_eq, <- list_fmap_compose.
    split; [by apply at_fmap_iota|].
    split; [|lia]. intros _. unfold compose.
    replace (side_distance sds i) with sd.2
      by (unfold side_distance; by rewrite Hsd).
    replace (side_distance sds (next s i)) with sd'.2
      by (unfold side_distance; by rewrite Hsd').
    reflexivity.
  - destruct (blendCorner_long s sds) as (ws & Hws & Hlen); [lia|].
    destruct (at_is_Some ws i) as [w Hw]; [lia|].
    exists ws, w. split; [done|]. split; [done|]. split; [done | lia].
  - eexists _, _. split; [apply blendCorner_multi; [done | lia]|].
    split; [by apply at_fmap_iota|]. split; [done|]. intros _.
    unfold boundary_corner. rewrite Hsd, Hsd'. unfold near_boundary.
    destruct (decide (sd.2 < epsilon ∧ sd'.2 < epsilon)) as [[? ?]|Hnot].
    + by rewrite !bool_decide_eq_true_2.
    + destruct (decide (sd.2 < epsilon)); [|by rewrite bool_decide_eq_false_2].
      rewrite (bool_decide_eq_false_2 (sd'.2 < epsilon)); [|tauto].
      by rewrite andb_false_r.
Qed.

(** X8.  With exactly one side [j] on the boundary (and at least two
    sides), [blendCorner] hands the weight over between the two corners of
    that side: corner [j] gets [dp^2 / (dp^2 + dn^2)] and corner [prev(j)]
    gets [dn^2 / (dp^2 + dn^2)], where [dp] and [dn] are the distances of
    the sides before and after [j]; every other corner gets 0. *)
Theorem blendCorner_hand_off (s : SurfaceT) (sds : list Point2D) (j : N) :
  0 < epsilon → n_ s = N.of_nat (length sds) → (2 <= n_ s)%N →
  boundary_sides sds = 1%nat → (j < n_ s)%N → side_near sds j = true →
  let dp := side_distance sds (prev s j) in
  let dn := side_distance sds (next s j) in
  ∃ ws, blendCorner s sds = Some ws ∧
    0 < dp ∧ 0 < dn ∧
    at_ ws j = Some (dp ^ 2 / (dp ^ 2 + dn ^ 2)) ∧
    at_ ws (prev s j) = Some (dn ^ 2 / (dp ^ 2 + dn ^ 2)) ∧
    ∀ i, (i < n_ s)%N → i ≠ j → i ≠ prev s j → at_ ws i = Some 0.
Proof.
  intros Heps Hn Hn2 Hk Hj Hnj dp dn.
  destruct (single_weight_at s sds Heps Hn j Hk Hn2 Hj Hnj)
    as (Hdp & Hdn & Ej & Ep & Eo).
  eexists. split; [by apply blendCorner_single|].
  split; [done|]. split; [done|].
  rewrite !at_fmap_iota by (done || apply prev_lt; lia).
  split; [by rewrite Ej|]. split; [by rewrite Ep|].
  intros i Hi Hij Hip. rewrite at_fmap_iota by done. by rewrite Eo.
Qed.

(** X9.  The weights are weights, rounding included: when the terms
    [std::pow(., -2)] a call computes are positive, every entry of
    [blendSideSingular] lies in [[0, 1]], and so does every entry of
    [blendCorner] (for a single boundary side, on a surface of at least
    two sides). *)
Theorem blend_weights_unit_range `{Rounding} (s : SurfaceT)
    (sds : list Point2D) :
  rounding_order →
  n_ s = N.of_nat (length sds) →
  (boundary_sides sds = 1%nat → (2 <= n_ s)%N) →
  (∀ i, (i < n_ s)%N → side_near sds i = false → 0 < side_term_fl sds i) →
  (boundary_sides sds = 0%nat →
   ∀ i, (i < n_ s)%N → 0 < corner_term_fl s sds i) →
  (∀ w, w ∈ blendSideSingular_fl s sds → 0 <= w ∧ w <= 1) ∧
  ∃ ws, blendCorner_fl s sds = Some ws ∧ ∀ w, w ∈ ws → 0 <= w ∧ w <= 1.
Proof.
  intros laws Hn Hn2 Hside Hcorner. split.
  - intros w Hw. unfold blendSideSingular_fl in Hw.
    rewrite close_to_boundary_count in Hw.
    destruct (boundary_sides sds) as [|k] eqn:Hk.
    + change (0 <? N.of_nat 0)%N with false in Hw. cbv iota in Hw.
      eapply (normalized_fl_range laws); [|exact Hw].
      apply Forall_fmap, Forall_lookup. intros i sd Hi. simpl.
      assert (N.of_nat i < n_ s)%N as Hlt.
      { apply lookup_lt_Some in Hi. lia. }
      destruct (side_in_range s sds Hn (N.of_nat i) Hlt) as (sd' & E & Ed & En).
      unfold at_ in E. rewrite Nat2N.id, Hi in E. simplify_eq.
      split; [|apply (pow_m2_double laws)].
      specialize (Hside (N.of_nat i) Hlt). unfold side_term_fl in Hside.
      rewrite Ed in Hside. apply Hside. rewrite En.
      apply boundary_sides_0 in Hk. apply near_boundary_false.
      by eapply (proj1 (Forall_lookup _ _) Hk).
    + replace (0 <? N.of_nat (S k))%N with true in Hw
        by (symmetry; apply N.ltb_lt; lia).
      apply list_elem_of_fmap in Hw as (sd & -> & _).
      destruct (near_boundary sd); [|lra].
      rewrite INR_of_N_nat.
      assert (1 <= INR (S k)).
      { replace 1 with (INR 1) by done. apply le_INR. lia. }
      apply (share_unit laws); lra.
  - destruct (boundary_sides sds) as [|[|k]] eqn:Hk.
    + eexists. split; [by apply blendCorner_fl_interior|].
      intros w Hw. eapply (normalized_fl_range laws); [|exact Hw].
      apply Forall_fmap, Forall_forall. intros i Hi%elem_of_iota. simpl.
      split; [by apply Hcorner | apply (pow_m2_double laws)].
    + eexists. split; [by apply blendCorner_fl_single|].
      intros w (i & -> & Hi%elem_of_iota)%list_elem_of_fmap.
      apply (single_weight_fl_range laws); [done.. | by apply Hn2 | done].
    + eexists. split; [apply blendCorner_fl_multi; [done | lia]|].
      intros w (i & -> & _)%list_elem_of_fmap.
      destruct (boundary_corner s sds i); lra.
Qed.

(** *** Setting curves and reading ribbons back *)

Lemma resize_vec_lookup_old {A : Type} (n : N) (d : A) (v : list A) (j : N) :
  (j < n)%N → (j < N.of_nat (length v))%N → at_ (resize_vec n d v) j = at_ v j.
Proof.
  intros Hn Hv. unfold at_, resize_vec.
  rewrite lookup_app_l by (rewrite length_take; lia).
  apply lookup_take_lt. lia.
Qed.

Lemma resize_vec_lookup_new {A : Type} (n : N) (d : A) (v : list A) (j : N) :
  (j < n)%N → (N.of_nat (length v) <= j)%N → at_ (resize_vec n d v) j = Some d.
Proof.
  intros Hn Hv. unfold at_, resize_vec.
  rewrite lookup_app_r by (rewrite length_take; lia).
  apply lookup_replicate_2. rewrite length_take. lia.
Qed.

(** X10.  [setCurve(i, curve)] followed by [ribbon(i)] gives a new ribbon
    that refers to [curve] and has no neighbours yet.  The ribbons that
    were there stay as they were, the slots the call adds below [i] hold
    null pointers, [n_] becomes the larger of [n_] and [i + 1] and stays
    the number of ribbons, and the corner data and the gamma flag are not
    touched. *)
Theorem setCurve_ribbon (i : N) (c : CurvePtr) (s s' : SurfaceT) :
  ribbons_sized s → setCurve i c s = Some s' →
  ribbon s' i = Some (Some (mkRibbon c None ribbon_fresh)) ∧
  n_ s' = N.max (n_ s) (i + 1) ∧ ribbons_sized s' ∧
  (∀ j, (j < n_ s)%N → j ≠ i → ribbon s' j = ribbon s j) ∧
  (∀ j, (n_ s <= j)%N → (j < i)%N → ribbon s' j = Some None) ∧
  corner_data_ s' = corner_data_ s ∧ use_gamma_ s' = use_gamma_ s.
Proof.
  intros Hsz Hrun. pose proof (setCurve_sized i c s s' Hsz Hrun) as Hsz'.
  unfold setCurve in Hrun. bind_inv Hrun. simplify_eq.
  pose proof (assign_at_eq _ _ _ _ E) as Hi.
  pose proof (proj1 (assign_Some _ _ _ _) E) as [Hlt _].
  unfold ribbon, ribbons_sized in *. cbn.
  destruct (n_ s <=? i)%N eqn:Hle; cbn in *.
  - apply N.leb_le in Hle. rewrite resize_vec_length in Hlt.
    assert (wrap (i + 1) = (i + 1)%N) as Hw.
    { unfold wrap in *. pose proof (N.Div0.mod_le (i + 1) SIZE_MOD). lia. }
    rewrite Hw in *.
    split; [done|]. split; [lia|]. split; [done|]. split; [|split; [|done]].
    + intros j Hj Hji. rewrite (assign_at_ne _ _ _ _ _ E) by done.
      apply resize_vec_lookup_old; lia.
    + intros j Hj Hji. rewrite (assign_at_ne _ _ _ _ _ E) by lia.
      apply resize_vec_lookup_new; lia.
  - apply N.leb_gt in Hle.
    split; [done|]. split; [lia|]. split; [done|]. split; [|split; [|done]].
    + intros j Hj Hji. by rewrite (assign_at_ne _ _ _ _ _ E).
    + intros j Hj Hji. lia.
Qed.

(** The pointers [setupLoop] and [update] need: every ribbon below [n_]
    refers to a curve object of the store. *)
Lemma normalize_loop_needs (l : list N) (σ σ' : State) :
  for_each normalize_step l σ = Some σ' →
  ∀ i, i ∈ l → ∃ r a, ribbon_at (ribbons_ (surf σ)) i = Some r ∧
                      r_curve r = Some a ∧ (a < length (store σ))%nat.
Proof.
  revert σ. induction l as [|k l IH]; intros σ Hrun i Hi;
    [by apply elem_of_nil in Hi|].
  simpl in Hrun. destruct (normalize_step k σ) as [τ|] eqn:Eτ; [|done].
  simpl in Hrun. apply normalize_step_Some in Eτ as (a0 & c0 & Hac & ->).
  apply elem_of_cons in Hi as [->|Hi].
  - apply curve_at_ptr in Hac as (r & Hr & Ha & Hc).
    exists r, a0. split; [done|]. split; [done|]. by eapply lookup_lt_Some.
  - destruct (IH _ Hrun i Hi) as (r & a & Hr & Ha & Hlt). cbn in *.
    rewrite length_insert in Hlt. by exists r, a.
Qed.

Lemma setupLoop_needs_curves (σ σ' : State) :
  setupLoop σ = Some σ' → curves_set (store σ) (surf σ).
Proof.
  unfold setupLoop. intros Hrun. bind_inv Hrun. clear Hrun.
  intros i Hi.
  destruct (normalize_loop_needs _ _ _ E i) as (r & a & Hr & Ha & Hlt);
    [by apply elem_of_iota|].
  destruct (lookup_lt_is_Some_2 (store σ) a Hlt) as [c Hc].
  exists (a, c). apply curve_at_ptr. by exists r.
Qed.

Lemma update_ribbons_need (cs : CurveStore) (l : list N) (s s' : SurfaceT) :
  for_each (update_ribbon cs) l s = Some s' →
  ∀ k, k ∈ l → is_Some (ribbon_at (ribbons_ s) k).
Proof.
  revert s. induction l as [|k0 l IH]; intros s Hrun k Hk;
    [by apply elem_of_nil in Hk|].
  simpl in Hrun. destruct (update_ribbon cs k0 s) as [t|] eqn:Et; [|done].
  simpl in Hrun. apply elem_of_cons in Hk as [->|Hk].
  - apply update_ribbon_Some in Et as (r & -> & _). by eexists.
  - destruct (IH _ Hrun k Hk) as [r Hr].
    apply update_ribbon_frame in Et as (_ & _ & _ & Hc). specialize (Hc k).
    rewrite Hr in Hc. destruct (ribbon_at (ribbons_ s) k); [by eexists | done].
Qed.

Lemma update_needs_ribbons (cs : CurveStore) (s s' : SurfaceT) :
  update cs s = Some s' →
  ∀ k, (k < N.of_nat (length (ribbons_ s)))%N → is_Some (ribbon_at (ribbons_ s) k).
Proof.
  unfold update. intros Hrun k Hk. bind_inv Hrun. clear Hrun.
  destruct (refresh_domain_frame cs s) as (_ & Hr0 & _). rewrite Hr0 in E.
  rewrite <- Hr0. eapply update_ribbons_need; [exact E|]. by apply elem_of_iota.
Qed.

(** X11.  [setCurves] replaces the ribbons by one new ribbon per curve, in
    order: [ribbon(i)] refers to [curves[i]] and has no neighbours, and
    there is no ribbon at or beyond [curves.size()].  The corner data is
    left as it was.  A following [setupLoop] is defined exactly when every
    pointer of [curves] refers to a curve object. *)
Theorem setCurves_ribbons (cs : CurveStore) (curves : list CurvePtr)
    (s : SurfaceT) :
  (∀ i c, curves !! i = Some c →
     ribbon (setCurves curves s) (N.of_nat i)
     = Some (Some (mkRibbon c None ribbon_fresh))) ∧
  (∀ j, (N.of_nat (length curves) <= j)%N → ribbon (setCurves curves s) j = None) ∧
  corner_data_ (setCurves curves s) = corner_data_ s ∧
  (is_Some (setupLoop (mkState cs (setCurves curves s))) ↔
   ∀ c, c ∈ curves → ∃ a, c = Some a ∧ is_Some (cs !! a)).
Proof.
  split; [|split; [|split; [done|]]].
  - intros i c Hc. unfold ribbon, at_. cbn.
    by rewrite Nat2N.id, list_lookup_fmap, Hc.
  - intros j Hj. unfold ribbon, at_. cbn.
    apply lookup_ge_None_2. rewrite length_fmap. lia.
  - assert (∀ i c, curves !! i = Some c →
              curve_at cs (ribbons_ (setCurves curves s)) (N.of_nat i)
              = a ← c; x ← cs !! a; Some (a, x)) as Hat.
    { intros i c Hc. unfold curve_at, ribbon_at, at_. cbn.
      by rewrite Nat2N.id, list_lookup_fmap, Hc. }
    split.
    + intros [σ' Hσ']. apply setupLoop_needs_curves in Hσ'.
      cbn [store surf] in Hσ'.
      intros c (i & Hc)%list_elem_of_lookup_1.
      destruct (Hσ' (N.of_nat i)) as [[a x] Hax].
      { unfold setCurves. cbn [n_]. apply lookup_lt_Some in Hc. lia. }
      rewrite (Hat i c Hc) in Hax. destruct c as [a'|]; [|done]. cbn in Hax.
      destruct (cs !! a') as [x'|] eqn:Ex; [|done]. exists a'. by split; [|eexists].
    + intros Hall. apply setupLoop_defined; cbn [store surf].
      * unfold ribbons_sized, setCurves. cbn [n_ ribbons_].
        by rewrite length_fmap.
      * intros i Hi. unfold setCurves in Hi. cbn [n_] in Hi.
        destruct (lookup_lt_is_Some_2 curves (N.to_nat i)) as [c Hc]; [lia|].
        destruct (Hall c) as (a & -> & x & Hx); [by eapply list_elem_of_lookup_2|].
        rewrite <- (N2Nat.id i), (Hat _ _ Hc). cbn. rewrite Hx. by eexists.
Qed.

Lemma setCurve_null_gap (i : N) (c : CurvePtr) (s s' : SurfaceT) :
  ribbons_sized s → (n_ s < i)%N → setCurve i c s = Some s' →
  at_ (ribbons_ s') (n_ s) = Some None ∧ ribbons_sized s' ∧ (n_ s < n_ s')%N.
Proof.
  intros Hsz Hi Hrun. pose proof (setCurve_sized i c s s' Hsz Hrun) as Hsz'.
  unfold setCurve in Hrun. bind_inv Hrun. simplify_eq.
  pose proof (proj1 (assign_Some _ _ _ _) E) as [Hlt _].
  unfold ribbons_sized in *. cbn in *.
  replace (n_ s <=? i)%N with true in * by (symmetry; apply N.leb_le; lia).
  cbn in *. rewrite resize_vec_length in Hlt.
  split; [|split; [done | lia]].
  rewrite (assign_at_ne _ _ _ _ _ E) by lia.
  apply resize_vec_lookup_new; lia.
Qed.

(** X12.  Curves must be set without gaps: when [setCurve(i, _)] is called
    with [i] beyond [n_], the slots in between hold null pointers, and both
    [setupLoop] and [update] are undefined on the result, whatever the
    curves are. *)
Theorem setCurve_gap (cs : CurveStore) (i : N) (c : CurvePtr) (s s' : SurfaceT) :
  ribbons_sized s → (n_ s < i)%N → setCurve i c s = Some s' →
  ribbon s' (n_ s) = Some None ∧
  setupLoop (mkState cs s') = None ∧
  update cs s' = None.
Proof.
  intros Hsz Hi Hrun.
  destruct (setCurve_null_gap i c s s' Hsz Hi Hrun) as (Hgap & Hsz' & Hn).
  assert (ribbon_at (ribbons_ s') (n_ s) = None) as Hnull.
  { unfold ribbon_at. unfold ribbon in Hgap. by rewrite Hgap. }
  split; [done|]. split.
  - destruct (setupLoop (mkState cs s')) as [σ'|] eqn:E; [|done].
    apply setupLoop_needs_curves in E. cbn in E.
    destruct (E (n_ s)) as [[a x] Hax]; [lia|].
    unfold curve_at in Hax. by rewrite Hnull in Hax.
  - destruct (update cs s') as [t|] eqn:E; [|done].
    destruct (update_needs_ribbons cs s' t E (n_ s)) as [r Hr].
    + unfold ribbons_sized in Hsz'. lia.
    + by rewrite Hnull in Hr.
Qed.

(** X13.  A surface without sides ([n_ = 0], no ribbons): [setupLoop]
    changes nothing, [update()] is defined and leaves an empty corner
    vector, [update(i)] is undefined for every [i], [blendCorner] returns
    the empty vector for every input, and no corner correction is
    defined after [update()]. *)
Theorem empty_surface (cs : CurveStore) (s : SurfaceT) :
  n_ s = 0%N → ribbons_ s = [] →
  setupLoop (mkState cs s) = Some (mkState cs s) ∧
  (∃ s', update cs s = Some s' ∧ corner_data_ s' = [] ∧ ribbons_ s' = [] ∧
         ∀ i si si1, cornerCorrection s' i si si1 = None) ∧
  (∀ i, update_one cs i s = None) ∧
  (∀ sds, blendCorner s sds = Some []).
Proof.
  intros Hn Hr. split; [|split; [|split]].
  - unfold setupLoop, normalize_curves, orient_curves. cbn [store surf].
    rewrite Hn. change (iota 0) with (@nil N). cbn [for_each mbind option_bind surf].
    rewrite Hn. reflexivity.
  - unfold update.
    destruct (refresh_domain_frame cs s) as (Hn0 & Hr0 & Hc0).
    set (s0 := refresh_domain cs s) in *.
    rewrite Hr0, Hr. change (iota (N.of_nat (length []))) with (@nil N).
    cbn [for_each mbind option_bind]. unfold updateCorners.
    cbn [n_ with_corner_data]. rewrite Hn0, Hn.
    change (iota 0) with (@nil N). cbn [for_each].
    eexists. split; [reflexivity|]. cbn [corner_data_ ribbons_ with_corner_data].
    split; [|split; [by rewrite Hr0|]].
    + unfold resize_vec. by rewrite take_0.
    + intros i si si1. unfold cornerCorrection, at_.
      cbn [corner_data_ with_corner_data]. unfold resize_vec.
      by rewrite take_0.
  - intros i. unfold update_one, update_ribbon, ribbon_at, at_.
    destruct (refresh_domain_frame cs s) as (_ & Hr0 & _).
    by rewrite Hr0, Hr.
  - intros sds. unfold blendCorner. rewrite Hn. cbn.
    by destruct (0 <? close_to_boundary sds)%N.
Qed.

(** *** More on [setupLoop] *)

(** An address no ribbon among [l] refers to. *)
Lemma normalize_loop_frame (l : list N) (σ σ' : State) (a : nat) :
  for_each normalize_step l σ = Some σ' →
  (∀ i r, i ∈ l → ribbon_at (ribbons_ (surf σ)) i = Some r → r_curve r ≠ Some a) →
  store σ' !! a = store σ !! a.
Proof.
  revert σ. induction l as [|k l IH]; intros σ Hrun Hfree; simpl in Hrun.
  - by simplify_eq.
  - destruct (normalize_step k σ) as [τ|] eqn:Eτ; [|done]. simpl in Hrun.
    apply normalize_step_Some in Eτ as (a0 & c0 & Hac & ->).
    rewrite (IH _ Hrun); cbn.
    + apply curve_at_ptr in Hac as (r & Hr & Ha & _).
      apply list_lookup_insert_ne. intros ->. by apply (Hfree k r); [left| |].
    + intros i r Hi. apply Hfree. by right.
Qed.

(** One iteration of the second loop, read backwards from its result. *)
Lemma orient_step_inv (i : N) (σ σ' : State) :
  orient_step i σ = Some σ' →
  ∃ r b,
    ribbon_at (ribbons_ (surf σ)) i = Some r ∧
    (N.to_nat i < length (ribbons_ (surf σ)))%nat ∧
    surf σ' = with_ribbons
                (<[N.to_nat i :=
                     Some (Ribbon_setNeighbors (prev (surf σ) i)
                             (next (surf σ) i) r)]> (ribbons_ (surf σ)))
                (surf σ) ∧
    if b : bool then
      ∃ a c, r_curve r = Some a ∧ store σ !! a = Some c ∧
             store σ' = <[a := curve_normalize (curve_reverse c)]> (store σ)
    else store σ' = store σ.
Proof.
  unfold orient_step. intros Hrun. repeat bind_inv Hrun.
  apply assign_Some in E2 as [Hlt ->]. exists r, b.
  split; [done|]. split; [done|]. destruct b.
  - apply reverse_curve_Some in Hrun as (a & c & Hac & ->). cbn.
    split; [done|]. apply curve_at_ptr in Hac as (r' & Hr' & Ha & Hc).
    cbn in Hr'. unfold ribbon_at, at_ in Hr'.
    rewrite list_lookup_insert_eq in Hr' by done. cbn in Hr'.
    simplify_eq. cbn in Ha. by exists a, c.
  - by simplify_eq.
Qed.

(** The second loop over distinct indices: it wires the neighbours of the
    ribbons it visits, keeps their curve pointers and data, and writes, if
    at all, normalised curves to the addresses these ribbons refer to. *)
Lemma orient_loop_wiring (l : list N) (σ σ' : State) :
  NoDup l → for_each orient_step l σ = Some σ' →
  n_ (surf σ') = n_ (surf σ) ∧ use_gamma_ (surf σ') = use_gamma_ (surf σ) ∧
  corner_data_ (surf σ') = corner_data_ (surf σ) ∧
  domain_ (surf σ') = domain_ (surf σ) ∧ param_ (surf σ') = param_ (surf σ) ∧
  length (store σ') = length (store σ) ∧
  (∀ j, j ∉ l → at_ (ribbons_ (surf σ')) j = at_ (ribbons_ (surf σ)) j) ∧
  (∀ j, j ∈ l →
     ∃ r, ribbon_at (ribbons_ (surf σ)) j = Some r ∧
          ribbon_at (ribbons_ (surf σ')) j
          = Some (Ribbon_setNeighbors (prev (surf σ) j) (next (surf σ) j) r)) ∧
  (∀ a, (∀ j r, j ∈ l → ribbon_at (ribbons_ (surf σ)) j = Some r →
                r_curve r ≠ Some a) →
        store σ' !! a = store σ !! a) ∧
  (∀ a, normalized_at (store σ) a → normalized_at (store σ') a).
Proof.
  revert σ. induction l as [|i l IH]; intros σ Hnd Hrun; simpl in Hrun.
  - simplify_eq. repeat split; try done.
    intros j Hj. by apply elem_of_nil in Hj.
  - apply NoDup_cons in Hnd as [Hi Hnd].
    destruct (orient_step i σ) as [τ|] eqn:Eτ; [|done]. simpl in Hrun.
    destruct (IH τ Hnd Hrun)
      as (Hn & Hg & Hcd & Hd & Hp & Hlen & Hout & Hin & Hfree & Hnorm).
    destruct (orient_step_inv _ _ _ Eτ) as (r & b & Hr & Hlt & Hs & Hst).
    rewrite Hs in *. cbn in Hn, Hg, Hcd, Hd, Hp, Hout, Hin, Hfree.
    assert (∀ j, j ≠ i →
              at_ (<[N.to_nat i :=
                       Some (Ribbon_setNeighbors (prev (surf σ) i)
                               (next (surf σ) i) r)]> (ribbons_ (surf σ))) j
              = at_ (ribbons_ (surf σ)) j) as Hne.
    { intros j Hj. unfold at_. apply list_lookup_insert_ne. lia. }
    assert (length (store τ) = length (store σ) ∧
            (∀ a, r_curve r ≠ Some a → store τ !! a = store σ !! a) ∧
            (∀ a, normalized_at (store σ) a → normalized_at (store τ) a))
      as (Hlt' & Hfr' & Hno').
    { destruct b.
      - destruct Hst as (a & c & Ha & Hc & ->).
        split; [apply length_insert|]. split.
        + intros a' Ha'. apply list_lookup_insert_ne. congruence.
        + intros a' Ha'. apply normalized_at_insert; [|done].
          by eapply lookup_lt_Some.
      - by rewrite Hst. }
    split; [done|]. split; [done|]. split; [done|]. split; [done|].
    split; [done|]. split; [congruence|]. split; [|split; [|split]].
    + intros j Hj. apply not_elem_of_cons in Hj as [Hji Hjl].
      rewrite Hout by done. by apply Hne.
    + intros j [->|Hj]%elem_of_cons.
      * exists r. split; [done|]. unfold ribbon_at. rewrite Hout by done.
        unfold at_. by rewrite list_lookup_insert_eq.
      * assert (j ≠ i) as Hji by (intros ->; done).
        destruct (Hin j Hj) as (r' & Hr' & Hr'').
        unfold ribbon_at in Hr'. rewrite Hne in Hr' by done.
        exists r'. split; [done|]. unfold prev, next in *. cbn in Hr''. done.
    + intros a Ha. rewrite Hfree.
      * apply Hfr'. by apply (Ha i r); [left|].
      * intros j r' Hj Hr'. assert (j ≠ i) as Hji by (intros ->; done).
        unfold ribbon_at in Hr'. rewrite Hne in Hr' by done.
        apply (Ha j r'); [by right | done].
    + intros a Ha. by apply Hnorm, Hno'.
Qed.

(** X14.  [setupLoop] propagates the adjacency: when it returns, every
    ribbon [i] has the neighbours [prev(i)] and [next(i)], and the curve
    pointer and the data it had.  Every curve a ribbon refers to is left
    normalised; the store keeps its size, and a curve object no ribbon
    refers to is not modified.  [n_], the gamma flag, the corner data, the
    domain and the parameterization are not touched. *)
Theorem setupLoop_wiring (σ σ' : State) :
  setupLoop σ = Some σ' →
  n_ (surf σ') = n_ (surf σ) ∧ use_gamma_ (surf σ') = use_gamma_ (surf σ) ∧
  corner_data_ (surf σ') = corner_data_ (surf σ) ∧
  domain_ (surf σ') = domain_ (surf σ) ∧ param_ (surf σ') = param_ (surf σ) ∧
  length (store σ') = length (store σ) ∧
  (∀ i, (i < n_ (surf σ))%N →
     ∃ r a, ribbon_at (ribbons_ (surf σ)) i = Some r ∧
            ribbon_at (ribbons_ (surf σ')) i
            = Some (Ribbon_setNeighbors (prev (surf σ) i) (next (surf σ) i) r) ∧
            r_curve r = Some a ∧ normalized_at (store σ') a) ∧
  (∀ a, (∀ i r, (i < n_ (surf σ))%N → ribbon_at (ribbons_ (surf σ)) i = Some r →
                r_curve r ≠ Some a) →
        store σ' !! a = store σ !! a).
Proof.
  unfold setupLoop. intros Hrun. bind_inv Hrun. rename s into σ1.
  pose proof (normalize_loop _ _ _ E) as (Hs1 & Hl1 & _ & Hnormed).
  pose proof (normalize_loop_needs _ _ _ E) as Hneeds.
  unfold orient_curves in Hrun.
  destruct (orient_loop_wiring _ _ _ (NoDup_iota _) Hrun)
    as (Hn & Hg & Hcd & Hd & Hp & Hlen & _ & Hin & Hfree & Hnorm).
  rewrite Hs1 in *.
  split; [done|]. split; [done|]. split; [done|]. split; [done|].
  split; [done|]. split; [congruence|]. split.
  - intros i Hi. destruct (Hin i) as (r & Hr & Hr'); [by apply elem_of_iota|].
    destruct (Hneeds i) as (r0 & a & Hr0 & Ha & Hlt); [by apply elem_of_iota|].
    assert (r0 = r) as -> by congruence.
    exists r, a. split; [done|]. split; [done|]. split; [done|].
    apply Hnorm. destruct (lookup_lt_is_Some_2 (store σ1) a) as [c Hc];
      [by rewrite Hl1|].
    apply (Hnormed i a c); [by apply elem_of_iota|].
    apply curve_at_ptr. by exists r.
  - intros a Ha. rewrite Hfree.
    + apply (normalize_loop_frame _ _ _ a E).
      intros i r Hi%elem_of_iota. by apply Ha.
    + intros i r Hi%elem_of_iota. by apply Ha.
Qed.








Lemma same_shape_sym (s t : SurfaceT) : same_shape s t → same_shape t s.
Proof.
  intros (Hn & Hc & Hl & Hr). unfold same_shape.
  split; [done|]. split; [done|]. split; [done|]. intros j. by rewrite Hr.
Qed.





(** *** More on [update] and [eval] *)

Lemma updateCorner_fields (cs : CurveStore) (i : N) (s s' : SurfaceT) :
  updateCorner cs i s = Some s' →
  ∃ cd, at_ (corner_data_ s') i = Some cd ∧ corner_of cs s i cd.
Proof.
  unfold updateCorner. intros Hrun.
  destruct (n_ s =? 0)%N; [done|]. repeat bind_inv Hrun.
  pose proof (assign_at_eq _ _ _ _ E7) as Hat. simplify_eq. cbn.
  eexists. split; [exact Hat|].
  unfold corner_of, curve_at. rewrite E, E4. cbn. rewrite E0, E5. cbn.
  eexists _, _, _, _, _. repeat split; done.
Qed.

Lemma corner_of_ext (cs : CurveStore) (s t : SurfaceT) (i : N) (cd : CornerData) :
  n_ t = n_ s → ribbons_ t = ribbons_ s → corner_of cs s i cd → corner_of cs t i cd.
Proof. unfold corner_of, next. by intros -> ->. Qed.

Lemma updateCorner_loop_fields (cs : CurveStore) (l : list N) (s s' : SurfaceT) :
  NoDup l → for_each (updateCorner cs) l s = Some s' →
  ∀ j, j ∈ l → ∃ cd, at_ (corner_data_ s') j = Some cd ∧ corner_of cs s j cd.
Proof.
  revert s. induction l as [|i l IH]; intros s Hnd Hrun j Hj;
    [by apply elem_of_nil in Hj|].
  simpl in Hrun. apply NoDup_cons in Hnd as [Hi Hnd].
  destruct (updateCorner cs i s) as [t|] eqn:Et; [|done]. simpl in Hrun.
  destruct (updateCorner_frame _ _ _ _ Et) as (Hn1 & Hr1 & _ & _).
  apply elem_of_cons in Hj as [->|Hj].
  - destruct (updateCorner_fields _ _ _ _ Et) as (cd & Hcd & Hof).
    exists cd. split; [|done].
    destruct (updateCorner_loop cs l t s' Hnd Hrun) as (_ & _ & _ & Hout & _).
    by rewrite Hout.
  - destruct (IH t Hnd Hrun j Hj) as (cd & Hcd & Hof).
    exists cd. split; [done|]. by apply (corner_of_ext cs t s).
Qed.

Lemma update_ribbon_keeps (cs : CurveStore) (k : N) (s s' : SurfaceT) :
  update_ribbon cs k s = Some s' →
  use_gamma_ s' = use_gamma_ s ∧
  ∀ j, (fun r => (r_curve r, r_neighbors r)) <$> ribbon_at (ribbons_ s') j
       = (fun r => (r_curve r, r_neighbors r)) <$> ribbon_at (ribbons_ s) j.
Proof.
  intros (r & Hr & ->)%update_ribbon_Some. cbn. split; [done|].
  intros j. unfold ribbon_at, at_ in *.
  destruct (decide (N.to_nat j = N.to_nat k)) as [E|E].
  - rewrite E in *.
    destruct (ribbons_ s !! N.to_nat k) as [o|] eqn:Ek; [|done].
    rewrite list_lookup_insert_eq by (by eapply lookup_lt_Some).
    cbn in *. by subst o.
  - by rewrite list_lookup_insert_ne.
Qed.

Lemma update_corner_data (cs : CurveStore) (s s' : SurfaceT) (i : N) :
  update cs s = Some s' → (i < n_ s)%N →
  ∃ cd, at_ (corner_data_ s') i = Some cd ∧ corner_of cs s' i cd.
Proof.
  unfold update. intros Hrun Hi. bind_inv Hrun. rename s0 into s1.
  destruct (refresh_domain_frame cs s) as (Hn0 & _ & _).
  pose proof (update_ribbons_loop _ _ _ _ E) as (Hn1 & _ & _ & _).
  unfold updateCorners in Hrun.
  destruct (updateCorner_loop _ _ _ _ (NoDup_iota _) Hrun)
    as (Hn & Hr & _ & _ & _).
  destruct (updateCorner_loop_fields _ _ _ _ (NoDup_iota _) Hrun i)
    as (cd & Hcd & Hof).
  { apply elem_of_iota. cbn. lia. }
  exists cd. split; [done|]. eapply corner_of_ext; [| |exact Hof]; by cbn.
Qed.

(** X17.  After [update()] every corner [i] holds, as its point, the end
    point of curve [i]; as [tangent1], the negated first derivative of
    curve [i] at its end; and as [tangent2], the first derivative of curve
    [next(i)] at its start.  The call sizes the corner vector to [n_] and
    leaves [n_], the gamma flag and, of every ribbon, the curve pointer and
    the neighbours as they were. *)
Theorem update_corners (cs : CurveStore) (s s' : SurfaceT) :
  update cs s = Some s' →
  n_ s' = n_ s ∧ use_gamma_ s' = use_gamma_ s ∧
  length (ribbons_ s') = length (ribbons_ s) ∧
  N.of_nat (length (corner_data_ s')) = n_ s ∧
  (∀ j, (fun r => (r_curve r, r_neighbors r)) <$> ribbon_at (ribbons_ s') j
        = (fun r => (r_curve r, r_neighbors r)) <$> ribbon_at (ribbons_ s) j) ∧
  (∀ i, (i < n_ s)%N →
     ∃ cd, at_ (corner_data_ s') i = Some cd ∧ corner_of cs s' i cd).
Proof.
  intros Hupd. pose proof Hupd as Hrun.
  unfold update in Hrun. bind_inv Hrun. rename s0 into s1.
  assert (use_gamma_ (refresh_domain cs s) = use_gamma_ s) as Hg0.
  { unfold refresh_domain. by destruct (domain_update cs (domain_ s)). }
  destruct (refresh_domain_frame cs s) as (Hn0 & Hr0 & _).
  pose proof (update_ribbons_loop _ _ _ _ E) as (Hn1 & _ & Hl1 & _).
  assert (use_gamma_ s1 = use_gamma_ (refresh_domain cs s) ∧
          ∀ j, (fun r => (r_curve r, r_neighbors r)) <$> ribbon_at (ribbons_ s1) j
               = (fun r => (r_curve r, r_neighbors r))
                 <$> ribbon_at (ribbons_ (refresh_domain cs s)) j) as [Hg1 Hk1].
  { apply (for_each_inv (update_ribbon cs)
             (fun t => use_gamma_ t = use_gamma_ (refresh_domain cs s) ∧
                ∀ j, (fun r => (r_curve r, r_neighbors r)) <$> ribbon_at (ribbons_ t) j
                     = (fun r => (r_curve r, r_neighbors r))
                       <$> ribbon_at (ribbons_ (refresh_domain cs s)) j)
             _ _ _) in E; [done | | done].
    intros k t t' _ [Hg Hk] Hstep.
    apply update_ribbon_keeps in Hstep as [Hg' Hk'].
    split; [congruence|]. intros j. by rewrite Hk', Hk. }
  unfold updateCorners in Hrun.
  destruct (updateCorner_loop _ _ _ _ (NoDup_iota _) Hrun)
    as (Hn & Hr & Hl & _ & _).
  assert (use_gamma_ s' = use_gamma_ s1) as Hg.
  { apply (for_each_inv (updateCorner cs)
             (fun t => use_gamma_ t = use_gamma_ s1) _ _ _) in Hrun; [done | | done].
    intros k t t' _ Ht Hstep.
    apply updateCorner_Some in Hstep as (? & ? & ? & _ & _ & -> & _). by cbn. }
  cbn in Hn, Hr, Hl. rewrite resize_vec_length in Hl.
  split; [congruence|]. split; [congruence|]. split; [congruence|].
  split; [lia|]. split.
  - intros j. rewrite Hr, Hk1, Hr0. done.
  - intros i Hi. by apply (update_corner_data cs s s' i Hupd).
Qed.

(** X18.  The mesh of [eval(resolution)] has the topology the domain
    supplies and, as points, the surface evaluated at the domain's
    parameters, one point per parameter and in the same order.
    [setPoints] followed by [points] gives the points back and keeps the
    triangles; a second [setPoints] replaces the first. *)
Theorem eval_mesh (cs : CurveStore) (s : SurfaceT) (resolution : N)
    (pv pv' : list Point3D) (m : TriMesh) :
  points (setPoints pv m) = pv ∧
  mesh_triangles (setPoints pv m) = mesh_triangles m ∧
  setPoints pv' (setPoints pv m) = setPoints pv' m ∧
  points (eval cs s resolution)
  = eval_uv cs s <$> domain_parameters (domain_ s) resolution ∧
  length (points (eval cs s resolution))
  = length (domain_parameters (domain_ s) resolution) ∧
  mesh_triangles (eval cs s resolution)
  = mesh_triangles (domain_meshTopology (domain_ s) resolution).
Proof.
  assert (∀ l m', points (setPoints l m') = l) as Hround.
  { intros l m'. unfold points, setPoints. cbn.
    rewrite <- list_fmap_compose. rewrite <- (list_fmap_id l) at 2.
    apply list_fmap_ext. intros _ [x y z] _. done. }
  split; [apply Hround|]. split; [done|]. split; [done|].
  unfold eval. rewrite Hround. split; [done|]. split; [|done].
  by rewrite length_fmap.
Qed.

(** X19.  [update(i)] brings the two corners of side [i] up to date: when
    it returns, corners [prev(i)] and [i] hold the point and the tangents
    derived from the curves, as after [update()]. *)
Theorem update_one_corners (cs : CurveStore) (i : N) (s s' : SurfaceT) :
  update_one cs i s = Some s' →
  (∃ cd, at_ (corner_data_ s') i = Some cd ∧ corner_of cs s' i cd) ∧
  (∃ cd, at_ (corner_data_ s') (prev s i) = Some cd ∧
         corner_of cs s' (prev s i) cd).
Proof.
  unfold update_one. intros Hrun. bind_inv Hrun. rename s0 into s1.
  destruct (refresh_domain_frame cs s) as (Hn0 & _ & _).
  apply update_ribbon_frame in E as (Hn1 & _ & _ & _).
  destruct (n_ s1 =? 0)%N; [done|]. bind_inv Hrun. rename s0 into s2.
  assert (prev s1 i = prev s i) as Ep by (unfold prev; congruence).
  rewrite Ep in E.
  destruct (updateCorner_frame _ _ _ _ E) as (Hn2 & Hr2 & _ & _).
  destruct (updateCorner_frame _ _ _ _ Hrun) as (Hn3 & Hr3 & _ & Hf3).
  destruct (updateCorner_fields _ _ _ _ Hrun) as (cd & Hcd & Hof).
  split.
  - exists cd. split; [done|]. by apply (corner_of_ext cs s2).
  - destruct (decide (prev s i = i)) as [Epi|Hne].
    + rewrite Epi. exists cd. split; [done|]. by apply (corner_of_ext cs s2).
    + destruct (updateCorner_fields _ _ _ _ E) as (cdp & Hcdp & Hofp).
      exists cdp. split; [by rewrite Hf3|].
      apply (corner_of_ext cs s1); [congruence | congruence | done].
Qed.

(** X20.  After [update()] the corner correction of corner [i], taken at
    the corner itself (both parameters 0), is the point the curve of
    ribbon [i] reports at its end, parameter 1. *)
Theorem corner_interpolation (cs : CurveStore) (s s' : SurfaceT) (i : N) :
  0 < epsilon → update cs s = Some s' → (i < n_ s)%N →
  ∃ c p, snd <$> curve_at cs (ribbons_ s') i = Some c ∧
         curve_eval_der c 1 1%N !! 0%nat = Some p ∧
         cornerCorrection s' i 0 0 = Some p.
Proof.
  intros Heps Hrun Hi.
  destruct (update_corner_data cs s s' i Hrun Hi)
    as (cd & Hcd & c & cn & der0 & der1 & dern & Hc & _ & H0 & _ & _ & Hp & _).
  exists c, der0. split; [done|]. split; [done|].
  unfold cornerCorrection. cbv zeta. rewrite Hcd. cbn [mbind option_bind].
  rewrite !clamp01_nonpos, gamma_0 by lra. f_equal. rewrite <- Hp.
  unfold rationalTwist.
  rewrite bool_decide_eq_true_2 by (rewrite Rplus_0_l, Rabs_R0; done).
  apply V3_eq; cbn; ring.
Qed.

Lemma boundary_sides_distances (sds sds' : list Point2D) :
  snd <$> sds' = snd <$> sds → boundary_sides sds' = boundary_sides sds.
Proof.
  unfold boundary_sides. revert sds'.
  induction sds as [|[x d] sds IH]; intros [|[x' d'] sds'] Hd; try done.
  cbn in Hd. injection Hd as -> Hd. rewrite !filter_cons. cbn.
  change (near_boundary (x', d)) with (near_boundary (x, d)).
  destruct (decide (near_boundary (x, d) = true)); cbn; by rewrite (IH sds').
Qed.

(** X21.  The blend functions read the distances only: two inputs with
    the same distances [sd[1]], side by side, get the same weights,
    whatever the positions [sd[0]] are, on surfaces with the same number of
    sides. *)
Theorem blend_reads_distances (s s' : SurfaceT) (sds sds' : list Point2D) :
  n_ s' = n_ s → snd <$> sds' = snd <$> sds →
  blendCorner s' sds' = blendCorner s sds ∧
  blendSideSingular s' sds' = blendSideSingular s sds.
Proof.
  intros Hn Hd.
  assert (∀ i, snd <$> at_ sds' i = snd <$> at_ sds i) as Hat.
  { intros i. unfold at_. by rewrite <- !list_lookup_fmap, Hd. }
  assert (close_to_boundary sds' = close_to_boundary sds) as Hclose.
  { by rewrite !close_to_boundary_count, (boundary_sides_distances sds sds'). }
  assert (∀ (G : R → R), (fun sd : Point2D => G sd.2) <$> sds'
                         = (fun sd : Point2D => G sd.2) <$> sds) as Hmap.
  { intros G. change (fun sd : Point2D => G sd.2) with (G ∘ @snd R R).
    by rewrite !list_fmap_compose, Hd. }
  split.
  - unfold blendCorner, next, prev. rewrite Hclose, Hn.
    destruct (0 <? close_to_boundary sds)%N; [|f_equal];
      apply mapM_ext; intros i;
      repeat (match goal with
              | |- context [at_ sds' ?j] =>
                  let E := fresh "E" in
                  pose proof (Hat j) as E;
                  destruct (at_ sds' j) as [[? ?]|], (at_ sds j) as [[? ?]|];
                  cbn in E; simplify_eq; cbn [mbind option_bind]
              end);
      unfold near_boundary; cbn [snd]; done.
  - unfold blendSideSingular. rewrite Hclose.
    destruct (0 <? close_to_boundary sds)%N.
    + exact (Hmap (fun d => if @bool_decide (d < epsilon) (Rlt_decision d epsilon)
                            then 1 / IZR (Z.of_N (close_to_boundary sds)) else 0)).
    + f_equal. apply (Hmap pow_m2).
Qed.

(** *** The life cycle of a surface *)

Lemma orient_curves_keeps (σ σ' : State) :
  ribbons_sized (surf σ) → curves_set (store σ) (surf σ) →
  orient_curves σ = Some σ' →
  ribbons_sized (surf σ') ∧ curves_set (store σ') (surf σ').
Proof.
  intros Hsz Hcs Hrun. unfold orient_curves in Hrun.
  apply (for_each_inv orient_step
           (fun τ => ribbons_sized (surf τ) ∧ curves_set (store τ) (surf τ))
           _ _ _) in Hrun; [done | | done].
  intros i τ τ' Hi%elem_of_iota [Hszτ Hcsτ] Hstep.
  destruct (decide (i < n_ (surf τ))%N) as [Hlt|Hge].
  - destruct (orient_step_Some i τ Hszτ Hcsτ Hlt)
      as (a & c & b & τ0 & _ & _ & Hrun0 & Hshape & Hstore).
    assert (τ0 = τ') as -> by congruence.
    split; [by apply (same_shape_sized (surf τ))|].
    rewrite Hstore. apply (same_shape_curves_set _ (surf τ)); [done|].
    destruct b; [by apply curves_set_insert | done].
  - apply orient_step_inv in Hstep as (r & b & _ & Hlt & _).
    unfold ribbons_sized in Hszτ. lia.
Qed.

Lemma setupLoop_keeps (σ σ' : State) :
  ribbons_sized (surf σ) → setupLoop σ = Some σ' →
  ribbons_sized (surf σ') ∧ curves_set (store σ') (surf σ').
Proof.
  intros Hsz Hrun. pose proof (setupLoop_needs_curves _ _ Hrun) as Hcs.
  unfold setupLoop in Hrun.
  destruct (normalize_curves_defined σ Hcs) as (σ1 & Hσ1 & Hs1 & Hcs1).
  rewrite Hσ1 in Hrun. cbn [mbind option_bind] in Hrun.
  apply (orient_curves_keeps σ1); [by rewrite Hs1 | done | done].
Qed.

(** X22.  The usual call sequence works: after [setCurves] with pointers
    that all refer to curve objects, [setupLoop] and then [update()] are
    defined; the sizes then agree, and the corner correction of every
    corner and the side interpolant of every side are defined for all
    parameters. *)
Theorem life_cycle (cs : CurveStore) (curves : list CurvePtr) (s : SurfaceT) :
  der_filled →
  (∀ c, c ∈ curves → ∃ a, c = Some a ∧ is_Some (cs !! a)) →
  ∃ σ1 s2,
    setupLoop (mkState cs (setCurves curves s)) = Some σ1 ∧
    update (store σ1) (surf σ1) = Some s2 ∧
    sizes_agree s2 ∧ n_ s2 = N.of_nat (length curves) ∧
    ∀ i, (i < N.of_nat (length curves))%N →
      ∀ u v, is_Some (cornerCorrection s2 i u v) ∧
             is_Some (sideInterpolant (store σ1) s2 i u v).
Proof.
  intros Hder Hall.
  assert (ribbons_sized (setCurves curves s)) as Hsz0.
  { unfold ribbons_sized, setCurves. cbn [n_ ribbons_]. by rewrite length_fmap. }
  assert (curves_set cs (setCurves curves s)) as Hcs0.
  { intros i Hi. unfold setCurves in Hi. cbn [n_] in Hi.
    destruct (lookup_lt_is_Some_2 curves (N.to_nat i)) as [c Hc]; [lia|].
    destruct (Hall c) as (a & -> & x & Hx); [by eapply list_elem_of_lookup_2|].
    exists (a, x). apply curve_at_ptr. eexists. split; [|split; [|exact Hx]].
    - unfold ribbon_at, at_, setCurves. cbn [ribbons_].
      by rewrite list_lookup_fmap, Hc.
    - done. }
  destruct (setupLoop_defined (mkState cs (setCurves curves s)) Hsz0 Hcs0)
    as [σ1 Hσ1].
  destruct (setupLoop_keeps (mkState cs (setCurves curves s)) σ1 Hsz0 Hσ1)
    as [Hsz1 Hcs1].
  destruct (update_defined (store σ1) (surf σ1) Hder Hsz1 Hcs1) as [s2 Hs2].
  pose proof (update_sizes _ _ _ Hs2 Hsz1) as Hsizes.
  pose proof (setupLoop_shape _ _ Hσ1) as (Hn1 & _ & _). cbn in Hn1.
  assert (n_ s2 = n_ (surf σ1) ∧ curves_set (store σ1) s2) as [Hn2 Hcs2].
  { pose proof Hs2 as Hrun. unfold update in Hrun. bind_inv Hrun.
    destruct (refresh_domain_frame (store σ1) (surf σ1)) as (Hn0 & Hr0 & _).
    pose proof (update_ribbons_loop _ _ _ _ E) as Hsh.
    pose proof (same_shape_curves_set _ _ _ Hsh
                  (curves_set_ext _ _ _ Hn0 Hr0 Hcs1)) as Hcss.
    destruct Hsh as (En & _).
    unfold updateCorners in Hrun.
    apply updateCorner_loop in Hrun as (Hn & Hr & _); [|apply NoDup_iota].
    cbn in Hn, Hr. split; [congruence|].
    by apply (curves_set_ext _ s0). }
  exists σ1, s2. split; [done|]. split; [done|]. split; [done|].
  split; [congruence|].
  intros i Hi u v. split.
  - unfold cornerCorrection. cbv zeta.
    destruct (at_is_Some (corner_data_ s2) i) as [cd ->]; [|by eexists].
    destruct Hsizes as [_ <-]. congruence.
  - unfold sideInterpolant. cbv zeta.
    destruct (Hcs2 i) as [[a c] Hac]; [congruence|].
    apply curve_at_ptr in Hac as (r & -> & _). by eexists.
Qed.

End Properties.

(** ** The model on concrete inputs *)

Local Open Scope R_scope.

Import Segments.

Lemma near_zero (x : R) : near_boundary (x, 0) = true.
Proof. apply bool_decide_eq_true_2. simpl. lra. Qed.

Lemma near_one (x : R) : near_boundary (x, 1) = false.
Proof. apply bool_decide_eq_false_2. simpl. lra. Qed.

Lemma epsilon_world_pos : 0 < epsilon.
Proof. simpl. lra. Qed.

(** Evaluates the model on a concrete input, leaving the real arithmetic
    and the boundary tests, which [near_zero] and [near_one] settle. *)
Ltac run_model :=
  cbv -[world near_boundary Rplus Rmult Rdiv Rinv Rminus Ropp Rlt Rle
        pow_m2 IZR INR sqrt Rabs Rmin Rmax];
  rewrite ?near_zero, ?near_one.

(** C1, as stated, fails: with four sides of which the two opposite sides 0
    and 2 are on the boundary, [blendCorner] takes the branch for two or
    more boundary sides, finds no corner between two of them, and returns
    four zero weights, whose sum is 0 and not 1. *)
Lemma blendCorner_sum_counterexample :
  n_ (bare 4%N) = N.of_nat (length opposite_sides) ∧
  blendCorner (bare 4%N) opposite_sides = Some [0; 0; 0; 0] ∧
  Rsum [0; 0; 0; 0] ≠ 1.
Proof.
  split; [reflexivity|]. split; [|simpl; lra].
  unfold blendCorner, close_to_boundary, opposite_sides.
  cbn [fold_left]. rewrite !near_zero, !near_one.
  run_model. reflexivity.
Qed.

Lemma boundary_sides_adjacent : boundary_sides adjacent_sides = 2%nat.
Proof.
  unfold boundary_sides, adjacent_sides.
  rewrite !filter_cons, !near_zero, !near_one. reflexivity.
Qed.

Lemma rationalTwist_spec_witness :
  0 < epsilon ∧ rationalTwist 0 0 P1 P2 = V3 0 0 0.
Proof.
  split; [exact epsilon_world_pos|].
  apply (rationalTwist_spec 0 0 P1 P2). exact epsilon_world_pos.
Defined.

Lemma boundary_sides_opposite : boundary_sides opposite_sides = 2%nat.
Proof.
  unfold boundary_sides, opposite_sides.
  rewrite !filter_cons, !near_zero, !near_one. reflexivity.
Qed.

Lemma blendSideSingular_spec_witness :
  opposite_sides !! 0%nat = Some (0, 0) ∧
  (1 <= boundary_sides opposite_sides)%nat ∧
  blendSideSingular (bare 4%N) opposite_sides !! 0%nat
  = Some (if decide ((0, 0).2 < epsilon)
          then 1 / INR (boundary_sides opposite_sides) else 0).
Proof.
  split; [reflexivity|]. split; [rewrite boundary_sides_opposite; lia|].
  apply (blendSideSingular_spec (bare 4%N) opposite_sides 0 (0, 0)).
  - reflexivity.
  - rewrite boundary_sides_opposite. lia.
Defined.

(** The triangle is a well-formed surface over its three segments. *)
Lemma world_der_filled : der_filled.
Proof.
  intros c t k. change (length (seg_eval_der c t k) = S (N.to_nat k)).
  unfold seg_eval_der.
  rewrite length_take, length_app, length_replicate. cbn [length]. lia.
Qed.

Lemma triangle_sized : ribbons_sized triangle.
Proof. reflexivity. Qed.

Lemma triangle_cornered_sizes : sizes_agree triangle_cornered.
Proof. split; reflexivity. Qed.

Lemma index_below_3 (i : N) : (i < 3)%N → i = 0%N ∨ i = 1%N ∨ i = 2%N.
Proof. lia. Qed.

Lemma triangle_curves_set : curves_set triangle_curves triangle.
Proof.
  intros i Hi. cbn in Hi.
  destruct (index_below_3 i Hi) as [-> | [-> | ->]]; eexists; reflexivity.
Qed.

Lemma triangle_cornered_curves_set : curves_set triangle_curves triangle_cornered.
Proof. exact triangle_curves_set. Qed.

Lemma triangle_reachable : reachable triangle_state.
Proof. apply reach_setCurves, reach_new. Qed.

Lemma triangle_normalized :
  normalize_curves triangle_state
  = Some triangle_state.
Proof. reflexivity. Qed.

Lemma triangle_closed : closed_loop triangle_curves triangle.
Proof.
  intros i Hi. cbn in Hi.
  destruct (index_below_3 i Hi) as [-> | [-> | ->]];
    eexists _, _; (split; [reflexivity|]); (split; [reflexivity|]);
    cbn; unfold seg_eval, vadd, vsub, vscale; cbn; f_equal; field.
Qed.

Lemma seg_normalize_idem (c : Segment) :
  seg_normalize (seg_normalize c) = seg_normalize c.
Proof. reflexivity. Qed.


Lemma update_one_frame_witness :
  der_filled ∧ curves_set triangle_curves triangle_cornered ∧
  sizes_agree triangle_cornered ∧ (1 < n_ triangle_cornered)%N ∧
  ∃ s', update_one triangle_curves 1%N triangle_cornered = Some s' ∧
        length (corner_data_ s') = length (corner_data_ triangle_cornered) ∧
        at_ (corner_data_ s') 2%N = at_ (corner_data_ triangle_cornered) 2%N.
Proof.
  split; [exact world_der_filled|].
  split; [exact triangle_cornered_curves_set|].
  split; [exact triangle_cornered_sizes|]. split; [reflexivity|].
  destruct (update_one_frame (H := world) triangle_curves 1%N triangle_cornered)
    as [Hframe Hdef].
  destruct (Hdef world_der_filled triangle_cornered_curves_set
              triangle_cornered_sizes eq_refl) as [s' Hs'].
  exists s'. split; [exact Hs'|].
  destruct (Hframe s' Hs') as [Hlen Hother].
  split; [exact Hlen|]. apply Hother; [lia|].
  intros E. lazy in E. discriminate E.
Defined.


Lemma setupLoop_closed_loop_witness :
  ribbons_sized triangle ∧
  normalize_curves triangle_state
  = Some triangle_state ∧
  closed_loop triangle_curves triangle ∧
  (∀ c, seg_normalize (seg_normalize c) = seg_normalize c) ∧
  ∃ σ2, setupLoop triangle_state = Some σ2 ∧
        store σ2 = triangle_curves.
Proof.
  split; [exact triangle_sized|]. split; [exact triangle_normalized|].
  split; [exact triangle_closed|]. split; [exact seg_normalize_idem|].
  destruct (setupLoop_closed_loop (H := world) triangle_state
              triangle_state
              triangle_sized triangle_normalized triangle_closed
              seg_normalize_idem)
    as (σ2 & σ3 & Hrun & Hstore & _).
  exists σ2. split; [exact Hrun | exact Hstore].
Defined.

Lemma sizes_invariant_witness :
  reachable triangle_state ∧
  (∃ s', update triangle_curves triangle = Some s' ∧ sizes_agree s') ∧
  sizes_agree triangle_cornered ∧
  (∃ σ', setupLoop (mkState triangle_curves triangle_cornered) = Some σ' ∧
         sizes_agree (surf σ')) ∧
  (n_ triangle <= 5)%N ∧ (5 + 1 < SIZE_MOD)%N ∧
  ∃ s', setCurve 5%N (Some 0%nat) triangle = Some s' ∧
        N.of_nat (length (ribbons_ s')) = (5 + 1)%N ∧ n_ s' = (5 + 1)%N.
Proof.
  destruct (sizes_invariant (H := world))
    as (Hupdate & Hloop & _ & _ & _ & Hgrow).
  split; [exact triangle_reachable|]. split.
  { destruct (update_defined (H := world) triangle_curves triangle
                world_der_filled triangle_sized triangle_curves_set)
      as [s' Hs'].
    exists s'. split; [exact Hs'|].
    exact (Hupdate triangle_state s' triangle_reachable Hs'). }
  split; [exact triangle_cornered_sizes|]. split.
  { destruct (setupLoop_defined (H := world)
                (mkState triangle_curves triangle_cornered)
                triangle_sized triangle_cornered_curves_set) as [σ' Hσ'].
    exists σ'. split; [exact Hσ'|].
    exact (Hloop triangle_curves triangle_cornered σ'
             triangle_cornered_sizes Hσ'). }
  split; [cbn; lia|]. split; [reflexivity|].
  apply Hgrow; [cbn; lia | reflexivity].
Defined.

(** *** Further properties on concrete inputs *)

Lemma cornerCorrection_boundary_witness :
  at_ (corner_data_ triangle_cornered) 0%N = Some corner_default ∧
  0 < epsilon ∧ 0 <= 0 ∧
  cornerCorrection triangle_cornered 0%N 0 0 = Some (point corner_default).
Proof.
  split; [reflexivity|]. split; [exact epsilon_world_pos|]. split; [lra|].
  apply (cornerCorrection_boundary triangle_cornered 0%N corner_default 0 0
           eq_refl epsilon_world_pos); lra.
Defined.

Lemma sideInterpolant_range_witness :
  ribbon_at (ribbons_ triangle) 0%N = Some (mkRibbon (Some 0%nat) None tt) ∧
  0 <= 0 ∧
  sideInterpolant triangle_curves triangle 0%N (1 / 2) 0
  = Some (ribbon_eval triangle_curves (ribbons_ triangle)
            (mkRibbon (Some 0%nat) None tt) (clamp01 (1 / 2), 0)).
Proof.
  split; [reflexivity|]. split; [lra|].
  apply (sideInterpolant_range (H := world) triangle_curves triangle 0%N
           (mkRibbon (Some 0%nat) None tt) (1 / 2) 0 eq_refl); [lra|].
  intros _. lra.
Defined.

Lemma boundary_sides_one : boundary_sides one_side = 1%nat.
Proof.
  unfold boundary_sides, one_side.
  rewrite !filter_cons, !near_zero, !near_one. reflexivity.
Qed.

Lemma four_sides_below (i : N) : (i < 4)%N → (i < n_ (bare 4%N))%N.
Proof. cbn. lia. Qed.

Lemma blendCorner_weights_witness :
  n_ (bare 4%N) = N.of_nat (length adjacent_sides) ∧ (0 < n_ (bare 4%N))%N ∧
  at_ adjacent_sides 0%N = Some (0, 0) ∧
  at_ adjacent_sides (next (bare 4%N) 0%N) = Some (0, 0) ∧
  (2 <= boundary_sides adjacent_sides)%nat ∧
  ∃ ws w, blendCorner (bare 4%N) adjacent_sides = Some ws ∧
          at_ ws 0%N = Some w ∧
          w = if decide ((0, 0).2 < epsilon ∧ (0, 0).2 < epsilon) then 1 else 0.
Proof.
  assert (2 <= boundary_sides adjacent_sides)%nat as H2
    by (rewrite boundary_sides_adjacent; lia).
  split; [reflexivity|]. split; [apply four_sides_below; lia|].
  split; [reflexivity|]. split; [reflexivity|]. split; [exact H2|].
  destruct (blendCorner_weights (bare 4%N) adjacent_sides 0%N (0, 0) (0, 0)
              eq_refl (four_sides_below 0%N eq_refl) eq_refl eq_refl)
    as (ws & w & Hws & Hw & _ & Hmulti).
  exists ws, w. split; [exact Hws|]. split; [exact Hw|]. exact (Hmulti H2).
Defined.

Lemma blendCorner_hand_off_witness :
  0 < epsilon ∧ n_ (bare 4%N) = N.of_nat (length one_side) ∧
  (2 <= n_ (bare 4%N))%N ∧ boundary_sides one_side = 1%nat ∧
  (0 < n_ (bare 4%N))%N ∧ side_near one_side 0%N = true ∧
  ∃ ws, blendCorner (bare 4%N) one_side = Some ws ∧
        at_ ws 1%N = Some 0 ∧ at_ ws 2%N = Some 0.
Proof.
  assert (side_near one_side 0%N = true) as H0 by apply near_zero.
  assert (2 <= n_ (bare 4%N))%N as H2 by (cbn; lia).
  split; [exact epsilon_world_pos|]. split; [reflexivity|]. split; [exact H2|].
  split; [exact boundary_sides_one|]. split; [apply four_sides_below; lia|].
  split; [exact H0|].
  destruct (blendCorner_hand_off (bare 4%N) one_side 0%N epsilon_world_pos
              eq_refl H2 boundary_sides_one (four_sides_below 0%N eq_refl) H0)
    as (ws & Hws & _ & _ & _ & _ & Hother).
  exists ws. split; [exact Hws|].
  split; apply Hother; first [apply four_sides_below; lia | lia
                             | intros E; lazy in E; discriminate E].
Defined.

Lemma triangle_grows :
  ∃ s', setCurve 5%N (Some 0%nat) triangle = Some s'.
Proof.
  destruct (setCurve_grows (H := world) 5%N (Some 0%nat) triangle)
    as (s' & Hs' & _); [cbn; lia | reflexivity |].
  by exists s'.
Qed.

Lemma setCurve_ribbon_witness :
  ribbons_sized triangle ∧
  ∃ s', setCurve 5%N (Some 0%nat) triangle = Some s' ∧
        ribbon s' 5%N = Some (Some (mkRibbon (Some 0%nat) None ribbon_fresh)) ∧
        ribbons_sized s'.
Proof.
  split; [exact triangle_sized|].
  destruct triangle_grows as [s' Hs'].
  exists s'. split; [exact Hs'|].
  destruct (setCurve_ribbon (H := world) 5%N (Some 0%nat) triangle s'
              triangle_sized Hs') as (Hi & _ & Hsz & _).
  split; [exact Hi | exact Hsz].
Defined.

Lemma setCurve_gap_witness :
  ribbons_sized triangle ∧ (n_ triangle < 5)%N ∧
  ∃ s', setCurve 5%N (Some 0%nat) triangle = Some s' ∧
        setupLoop (mkState triangle_curves s') = None ∧
        update triangle_curves s' = None.
Proof.
  assert (n_ triangle < 5)%N as H5 by (cbn; lia).
  split; [exact triangle_sized|]. split; [exact H5|].
  destruct triangle_grows as [s' Hs'].
  exists s'. split; [exact Hs'|].
  destruct (setCurve_gap (H := world) triangle_curves 5%N (Some 0%nat)
              triangle s' triangle_sized H5 Hs') as (_ & Hloop & Hupd).
  split; [exact Hloop | exact Hupd].
Defined.

Lemma empty_surface_witness :
  n_ (Surface_new (H := world) tt tt) = 0%N ∧ ribbons_ (Surface_new (H := world) tt tt) = [] ∧
  setupLoop (mkState triangle_curves (Surface_new (H := world) tt tt))
  = Some (mkState triangle_curves (Surface_new (H := world) tt tt)) ∧
  ∀ i, update_one triangle_curves i (Surface_new (H := world) tt tt) = None.
Proof.
  split; [reflexivity|]. split; [reflexivity|].
  destruct (empty_surface (H := world) triangle_curves (Surface_new (H := world) tt tt)
              eq_refl eq_refl) as (Hloop & _ & Hone & _).
  split; [exact Hloop | exact Hone].
Defined.

Lemma triangle_loop : ∃ σ', setupLoop triangle_state = Some σ'.
Proof.
  destruct (setupLoop_defined (H := world) triangle_state
              triangle_sized triangle_curves_set) as [σ' Hσ'].
  by exists σ'.
Qed.

Lemma setupLoop_wiring_witness :
  ∃ σ', setupLoop triangle_state = Some σ' ∧
        n_ (surf σ') = n_ (surf triangle_state) ∧
        length (store σ') = length (store triangle_state).
Proof.
  destruct triangle_loop as [σ' Hσ']. exists σ'. split; [exact Hσ'|].
  destruct (setupLoop_wiring (H := world) triangle_state σ' Hσ')
    as (Hn & _ & _ & _ & _ & Hlen & _).
  split; [exact Hn | exact Hlen].
Defined.






Lemma triangle_update : ∃ s', update triangle_curves triangle = Some s'.
Proof.
  destruct (update_defined (H := world) triangle_curves triangle
              world_der_filled triangle_sized triangle_curves_set) as [s' Hs'].
  by exists s'.
Qed.

Lemma update_corners_witness :
  ∃ s', update triangle_curves triangle = Some s' ∧
        n_ s' = n_ triangle ∧
        N.of_nat (length (corner_data_ s')) = n_ triangle.
Proof.
  destruct triangle_update as [s' Hs']. exists s'. split; [exact Hs'|].
  destruct (update_corners (H := world) triangle_curves triangle s' Hs')
    as (Hn & _ & _ & Hlen & _).
  split; [exact Hn | exact Hlen].
Defined.

Lemma triangle_update_one :
  ∃ s', update_one triangle_curves 1%N triangle_cornered = Some s'.
Proof.
  destruct (update_one_defined (H := world) triangle_curves 1%N
              triangle_cornered world_der_filled triangle_cornered_curves_set
              triangle_cornered_sizes eq_refl) as [s' Hs'].
  by exists s'.
Qed.

Lemma update_one_corners_witness :
  ∃ s', update_one triangle_curves 1%N triangle_cornered = Some s' ∧
        ∃ cd, at_ (corner_data_ s') 1%N = Some cd ∧
              corner_of triangle_curves s' 1%N cd.
Proof.
  destruct triangle_update_one as [s' Hs']. exists s'. split; [exact Hs'|].
  exact (proj1 (update_one_corners (H := world) triangle_curves 1%N
                  triangle_cornered s' Hs')).
Defined.

Lemma corner_interpolation_witness :
  0 < epsilon ∧ (0 < n_ triangle)%N ∧
  ∃ s', update triangle_curves triangle = Some s' ∧
        ∃ c p, snd <$> curve_at triangle_curves (ribbons_ s') 0%N = Some c ∧
               curve_eval_der c 1 1%N !! 0%nat = Some p ∧
               cornerCorrection s' 0%N 0 0 = Some p.
Proof.
  split; [exact epsilon_world_pos|]. split; [reflexivity|].
  destruct triangle_update as [s' Hs']. exists s'. split; [exact Hs'|].
  exact (corner_interpolation (H := world) triangle_curves triangle s' 0%N
           epsilon_world_pos Hs' eq_refl).
Defined.

Lemma blend_reads_distances_witness :
  n_ (bare 4%N) = n_ (bare 4%N) ∧
  snd <$> adjacent_sides_moved = snd <$> adjacent_sides ∧
  blendCorner (bare 4%N) adjacent_sides_moved
  = blendCorner (bare 4%N) adjacent_sides.
Proof.
  split; [reflexivity|]. split; [reflexivity|].
  exact (proj1 (blend_reads_distances (bare 4%N) (bare 4%N)
                  adjacent_sides adjacent_sides_moved eq_refl eq_refl)).
Defined.

Lemma life_cycle_witness :
  der_filled ∧
  (∀ c, c ∈ [Some 0%nat; Some 1%nat; Some 2%nat] →
        ∃ a, c = Some a ∧ is_Some (triangle_curves !! a)) ∧
  ∃ σ1 s2,
    setupLoop (mkState triangle_curves
                 (setCurves [Some 0%nat; Some 1%nat; Some 2%nat]
                    (Surface_new (H := world) tt tt))) = Some σ1 ∧
    update (store σ1) (surf σ1) = Some s2 ∧ n_ s2 = 3%N ∧
    is_Some (cornerCorrection s2 2%N 0 1) ∧
    is_Some (sideInterpolant (store σ1) s2 2%N (1/2) 0).
Proof.
  assert (∀ c : CurvePtr, c ∈ [Some 0%nat; Some 1%nat; Some 2%nat] →
            ∃ a, c = Some a ∧ is_Some (triangle_curves !! a)) as Hall.
  { intros c Hc. repeat (apply elem_of_cons in Hc as [-> | Hc]);
      [by eexists; split; [reflexivity | eexists] ..|].
    by apply elem_of_nil in Hc. }
  split; [exact world_der_filled|]. split; [exact Hall|].
  destruct (life_cycle (H := world) triangle_curves
              [Some 0%nat; Some 1%nat; Some 2%nat]
              (Surface_new (H := world) tt tt) world_der_filled Hall)
    as (σ1 & s2 & Hσ1 & Hs2 & _ & Hn & Hint).
  exists σ1, s2. split; [exact Hσ1|]. split; [exact Hs2|].
  split; [exact Hn|].
  split; [exact (proj1 (Hint 2%N eq_refl 0 1))
         | exact (proj2 (Hint 2%N eq_refl (1/2) 0))].
Defined.

(** *** Rounded arithmetic on concrete inputs *)

Import Arithmetic.

Lemma exact_rounding : rounding_error (H := exact) ∧ rounding_order (H := exact).
Proof.
  split; split; cbn [rnd roundoff min_normal max_finite pow_m2_rnd exact];
    try done; try lra.
  intros x _. rewrite Rminus_diag, Rabs_R0.
  apply Rmult_le_pos; [lra|].
  apply Rle_trans with (Rabs x); [apply Rabs_pos | apply Rmax_l].
Qed.

(** With the exact rounding the rounded functions are the exact ones. *)
Lemma exact_arithmetic (s : SurfaceT) (sds : list Point2D) (x : R) :
  gamma_fl (H0 := exact) s x = gamma s x ∧
  blendHermite_fl (H0 := exact) x = blendHermite x ∧
  blendCorner_fl (H0 := exact) s sds = blendCorner s sds ∧
  blendSideSingular_fl (H0 := exact) s sds = blendSideSingular s sds.
Proof. repeat split. Qed.

Lemma Int_part_mono (x y : R) : x <= y → (Int_part x <= Int_part y)%Z.
Proof.
  intros Hxy. destruct (base_Int_part x) as [Hx _].
  destruct (base_Int_part y) as [_ Hy].
  assert (IZR (Int_part x) < IZR (Int_part y + 1)) as Hlt
    by (rewrite plus_IZR; lra).
  apply lt_IZR in Hlt. lia.
Qed.

Lemma Int_part_half (k : Z) : Int_part (IZR k + 1 / 2) = k.
Proof. symmetry. apply Int_part_spec. lra. Qed.

Lemma grid_point (k : Z) : grid_rnd (IZR k / 1048576) = IZR k / 1048576.
Proof.
  unfold grid_rnd.
  replace (IZR k / 1048576 * 1048576) with (IZR k) by (field; lra).
  by rewrite Int_part_half.
Qed.

Lemma grid_rnd_on_grid (x : R) : ∃ k, grid_rnd x = IZR k / 1048576.
Proof. by eexists. Qed.

Lemma grid_rnd_error (x : R) : Rabs (grid_rnd x - x) <= / 2097152.
Proof.
  unfold grid_rnd. destruct (base_Int_part (x * 1048576 + 1 / 2)) as [H1 H2].
  apply Rabs_le. lra.
Qed.

Lemma grid_rounding_error : rounding_error (H := grid).
Proof.
  split; cbn [rnd roundoff min_normal max_finite pow_m2_rnd grid]; try lra.
  - replace 0 with (IZR 0 / 1048576) by lra. apply grid_point.
  - intros x _. pose proof (grid_rnd_error x).
    assert (1 / 1024 <= Rmax (Rabs x) (1 / 1024)) by apply Rmax_r. lra.
Qed.

Lemma grid_rounding_order : rounding_order (H := grid).
Proof.
  split; cbn [rnd roundoff min_normal max_finite pow_m2_rnd grid].
  - intros x y Hxy. unfold grid_rnd.
    assert (IZR (Int_part (x * 1048576 + 1 / 2))
            <= IZR (Int_part (y * 1048576 + 1 / 2))).
    { apply IZR_le, Int_part_mono. lra. }
    lra.
  - intros x. destruct (grid_rnd_on_grid x) as [k ->]. apply grid_point.
  - intros x. destruct (grid_rnd_on_grid x) as [k ->].
    replace (2 * (IZR k / 1048576)) with (IZR (2 * k) / 1048576)
      by (rewrite mult_IZR; lra).
    apply grid_point.
  - intros z _.
    replace (IZR z) with (IZR (z * 1048576) / 1048576) at 1 2
      by (rewrite mult_IZR; field).
    apply grid_point.
  - replace (1 / 2) with (IZR 524288 / 1048576) by lra. apply grid_point.
  - intros x. destruct (grid_rnd_on_grid (pow_m2 x)) as [k ->].
    apply grid_point.
Qed.

(** The grid does round: a third is not on it, and the three weights of
    three sides at distance 1 sum to less than 1. *)
Lemma grid_third : grid_rnd (1 / 3) = 349525 / 1048576.
Proof.
  unfold grid_rnd. f_equal. f_equal. symmetry. apply Int_part_spec. lra.
Qed.

Lemma grid_int (z : Z) : (Z.abs z <= 2 ^ 53)%Z → grid_rnd (IZR z) = IZR z.
Proof. apply (rnd_int grid_rounding_order z). Qed.

Lemma grid_one : grid_rnd 1 = 1.
Proof. apply (grid_int 1). lia. Qed.

Lemma grid_pow_one : grid_rnd (pow_m2 1) = 1.
Proof.
  rewrite pow_m2_inv. replace (/ (1 * 1)) with 1 by lra. apply grid_one.
Qed.

Lemma far_count : INR (length far_sides) = 3.
Proof. simpl. lra. Qed.

Lemma far_boundary_sides : boundary_sides far_sides = 0%nat.
Proof.
  unfold boundary_sides, far_sides. rewrite !filter_cons, !near_one.
  reflexivity.
Qed.

Lemma far_distance (i : N) : (i < 3)%N → side_distance far_sides i = 1.
Proof.
  intros Hi. destruct (index_below_3 i Hi) as [-> | [-> | ->]]; reflexivity.
Qed.

Lemma far_side_term (i : N) : (i < 3)%N → side_term_fl far_sides i = 1.
Proof.
  intros Hi. unfold side_term_fl. rewrite far_distance by done.
  apply grid_pow_one.
Qed.

Lemma far_corner_term (i : N) :
  (i < 3)%N → corner_term_fl (bare 3%N) far_sides i = 1.
Proof.
  intros Hi. unfold corner_term_fl.
  rewrite !far_distance; [|apply (next_lt (bare 3%N)); cbn; lia | done].
  replace (1 * 1) with 1 by lra.
  change (grid_rnd (pow_m2 (grid_rnd 1)) = 1).
  rewrite grid_one. apply grid_pow_one.
Qed.

(** In the arithmetic of the grid the three weights of three sides at
    distance 1 are a third, rounded: their sum is not 1. *)
Lemma grid_weights_sum :
  blendSideSingular_fl (bare 3%N) far_sides
  = [349525 / 1048576; 349525 / 1048576; 349525 / 1048576] ∧
  Rsum (blendSideSingular_fl (bare 3%N) far_sides) = 1048575 / 1048576.
Proof.
  assert (blendSideSingular_fl (bare 3%N) far_sides
          = [349525 / 1048576; 349525 / 1048576; 349525 / 1048576]) as E.
  { unfold blendSideSingular_fl. rewrite close_to_boundary_count.
    rewrite far_boundary_sides. change (0 <? N.of_nat 0)%N with false.
    cbv iota. unfold normalized_fl, far_sides.
    cbn [fmap list_fmap fold_left snd].
    change (@pow_m2_rnd grid 1) with (grid_rnd (pow_m2 1)).
    change (@rnd grid) with grid_rnd.
    rewrite grid_pow_one. rewrite Rplus_0_l, grid_one.
    replace (1 + 1) with (IZR 2) by lra. rewrite (grid_int 2) by lia.
    replace (IZR 2 + 1) with (IZR 3) by lra. rewrite (grid_int 3) by lia.
    by rewrite grid_third. }
  split; [exact E|]. rewrite E. simpl. lra.
Qed.

(** C6, as stated, fails on doubles: between two adjacent doubles just above
    3/4 the value of [gamma] decreases. *)
Lemma gamma_b64_decreases :
  PrimFloat.ltb Binary64.above_three_quarters
                Binary64.next_above_three_quarters = true ∧
  PrimFloat.ltb (Binary64.gamma_b64 (bare 3%N) Binary64.next_above_three_quarters)
                (Binary64.gamma_b64 (bare 3%N) Binary64.above_three_quarters)
  = true.
Proof. split; reflexivity. Qed.

(** On doubles [blendHermite] leaves the unit interval: at a double just
    below 1 its value is negative. *)
Lemma blendHermite_b64_negative :
  PrimFloat.ltb (Binary64.blendHermite_b64 Binary64.below_one) PrimFloat.zero
  = true.
Proof. reflexivity. Qed.

(** Nor is [blendHermite] decreasing on doubles: between two adjacent doubles
    just above 9/10 its value rises. *)
Lemma blendHermite_b64_rises :
  PrimFloat.ltb Binary64.above_nine_tenths
                Binary64.next_above_nine_tenths = true ∧
  PrimFloat.ltb (Binary64.blendHermite_b64 Binary64.above_nine_tenths)
                (Binary64.blendHermite_b64 Binary64.next_above_nine_tenths)
  = true.
Proof. split; reflexivity. Qed.

(** The doubles nearest to 1/5 and 4/5 add up to the double 1, but their
    [blendHermite] values add up to less than 1. *)
Lemma blendHermite_b64_pair_sum :
  PrimFloat.eqb (PrimFloat.add Binary64.one_fifth Binary64.four_fifths)
                PrimFloat.one = true ∧
  PrimFloat.ltb
    (PrimFloat.add (Binary64.blendHermite_b64 Binary64.one_fifth)
                   (Binary64.blendHermite_b64 Binary64.four_fifths))
    PrimFloat.one = true.
Proof. split; reflexivity. Qed.

(** On doubles [gamma] is not strictly increasing, and it reaches 1/2: the two
    doubles just below 1/2 have the same value, and the value at 2^53 is the
    double 1/2. *)
Lemma gamma_b64_ties :
  PrimFloat.ltb Binary64.below_half Binary64.next_below_half = true ∧
  PrimFloat.eqb (Binary64.gamma_b64 (bare 3%N) Binary64.below_half)
                (Binary64.gamma_b64 (bare 3%N) Binary64.next_below_half)
  = true ∧
  PrimFloat.eqb (Binary64.gamma_b64 (bare 3%N) Binary64.two_pow_53)
                (PrimFloat.div PrimFloat.one PrimFloat.two) = true.
Proof. repeat split; reflexivity. Qed.

Lemma gamma_spec_witness :
  rounding_error ∧ roundoff <= 1 / 8 ∧ 4 * min_normal <= 1 ∧ 1 <= 2 ∧
  4 * 2 <= max_finite ∧
  gamma_fl (bare 3%N) 0 = 0 ∧
  (1 - 4 * roundoff) * gamma_fl (setGamma true (bare 3%N)) 1
  <= (1 + 4 * roundoff) * gamma_fl (setGamma true (bare 3%N)) 2.
Proof.
  assert (roundoff <= 1 / 8) as Hu by (simpl; lra).
  assert (4 * min_normal <= 1) as Hlo by (simpl; lra).
  assert (4 * 2 <= max_finite) as Hhi by (simpl; lra).
  split; [exact grid_rounding_error|]. split; [exact Hu|].
  split; [exact Hlo|]. split; [lra|]. split; [exact Hhi|].
  destruct (gamma_spec (bare 3%N) 1 2 grid_rounding_error)
    as (Hzero & _ & _ & Hclose).
  split; [exact Hzero|]. apply (Hclose Hu Hlo); [lra | exact Hhi].
Defined.

Lemma far_sum_range : sum_range (length far_sides) 1 1.
Proof.
  unfold sum_range. rewrite far_count. simpl. repeat split; lra.
Qed.

Lemma far_side_terms : side_terms_within (bare 3%N) far_sides 1 1.
Proof. intros i Hi _. rewrite far_side_term by exact Hi. lra. Qed.

Lemma far_corner_terms : corner_terms_within (bare 3%N) far_sides 1 1.
Proof. intros i Hi. rewrite far_corner_term by exact Hi. lra. Qed.

Lemma blend_weights_sum_witness :
  0 < epsilon ∧
  n_ (bare 3%N) = N.of_nat (length far_sides) ∧ (1 <= n_ (bare 3%N))%N ∧
  rounding_error ∧ sum_range (length far_sides) 1 1 ∧
  side_terms_within (bare 3%N) far_sides 1 1 ∧
  corner_terms_within (bare 3%N) far_sides 1 1 ∧
  boundary_sides far_sides = 0%nat ∧
  Rabs (Rsum (blendSideSingular_fl (bare 3%N) far_sides) - 1)
  <= 2 * (INR (length far_sides) + 1) * roundoff ∧
  ∃ ws, blendCorner_fl (bare 3%N) far_sides = Some ws ∧
        Rabs (Rsum ws - 1) <= 2 * (INR (length far_sides) + 1) * roundoff.
Proof.
  assert (1 <= n_ (bare 3%N))%N as Hn by (cbn; lia).
  split; [exact epsilon_world_pos|]. split; [reflexivity|].
  split; [exact Hn|]. split; [exact grid_rounding_error|].
  split; [exact far_sum_range|]. split; [exact far_side_terms|].
  split; [exact far_corner_terms|]. split; [exact far_boundary_sides|].
  destruct (blend_weights_sum (bare 3%N) far_sides 1 1
              epsilon_world_pos eq_refl Hn)
    as (Hsum & ws & Hws & _ & Hint & _).
  split; [exact (Hsum grid_rounding_error far_sum_range far_side_terms)|].
  exists ws. split; [exact Hws|].
  exact (Hint far_boundary_sides grid_rounding_error far_sum_range
           far_corner_terms).
Defined.

(** The counterexample to C1 does not depend on the arithmetic: with the
    two opposite sides on the boundary the four weights are 0 under every
    rounding. *)
Lemma blendCorner_fl_opposite `{Rounding} :
  blendCorner_fl (bare 4%N) opposite_sides = Some [0; 0; 0; 0].
Proof.
  unfold blendCorner_fl, close_to_boundary, opposite_sides.
  cbn [fold_left]. rewrite !near_zero, !near_one.
  run_model. reflexivity.
Qed.

Lemma clamp01_inside (x : R) : 0 <= x → x <= 1 → clamp01 x = x.
Proof.
  intros H0 H1. unfold clamp01. rewrite Rmax_left, Rmin_left by lra. done.
Qed.

(** C3, as stated, fails for [cornerCorrection]: it is not the correction
    with the remap disabled taken at the remapped parameters.  At a corner
    whose first twist is (1, 0, 0) and whose other data is zero, the
    parameters 1 and 1/2 give (1/18, 0, 0), while the remapped parameters
    1/3 and 1/4 without the remap give (1/21, 0, 0): [rationalTwist] weighs
    the twists by the parameters as they are. *)
Lemma cornerCorrection_remap_counterexample :
  gamma twisted_corner 1 = 1 / 3 ∧ gamma twisted_corner (1 / 2) = 1 / 4 ∧
  cornerCorrection twisted_corner 0%N 1 (1 / 2) = Some (V3 (1 / 18) 0 0) ∧
  cornerCorrection (setGamma false twisted_corner) 0%N (1 / 3) (1 / 4)
  = Some (V3 (1 / 21) 0 0) ∧
  V3 (1 / 18) 0 0 ≠ V3 (1 / 21) 0 0.
Proof.
  split; [unfold gamma; simpl; lra|]. split; [unfold gamma; simpl; lra|].
  assert (∀ x, epsilon <= x → bool_decide (Rabs x < epsilon) = false) as Hfar.
  { intros x Hx. apply bool_decide_eq_false_2.
    rewrite Rabs_pos_eq; [lra|]. pose proof epsilon_world_pos. lra. }
  assert (at_ (corner_data_ twisted_corner) 0%N
          = Some (mkCorner vzero vzero vzero (V3 1 0 0) vzero)) as Hat
    by reflexivity.
  split; [|split].
  - unfold cornerCorrection, rationalTwist, gamma.
    rewrite !clamp01_inside by lra.
    rewrite Hfar by (simpl; lra). rewrite Hat.
    cbn [mbind option_bind point tangent1 tangent2 twist1 twist2
         use_gamma_ twisted_corner with_corner_data bare].
    f_equal. apply V3_eq; cbn [vx vy vz vadd vscale vdiv vzero]; field.
  - unfold cornerCorrection, rationalTwist, gamma.
    rewrite !clamp01_inside by lra.
    rewrite Hfar by (simpl; lra).
    change (corner_data_ (setGamma false twisted_corner))
      with (corner_data_ twisted_corner). rewrite Hat.
    cbn [mbind option_bind point tangent1 tangent2 twist1 twist2
         use_gamma_ setGamma].
    f_equal. apply V3_eq; cbn [vx vy vz vadd vscale vdiv vzero]; field.
  - intros E. apply (f_equal vx) in E. simpl in E. lra.
Qed.

Lemma gamma_only_in_interpolants_witness :
  ribbon_at (ribbons_ triangle_cornered) 0%N
  = Some (mkRibbon (Some 0%nat) None tt) ∧
  at_ (corner_data_ triangle_cornered) 0%N = Some corner_default ∧
  blendCorner (setGamma false triangle_cornered) far_sides
  = blendCorner triangle_cornered far_sides ∧
  sideInterpolant triangle_curves (setGamma true triangle_cornered) 0%N
    (1 / 2) 1
  = sideInterpolant triangle_curves (setGamma false triangle_cornered) 0%N
      (1 / 2) (1 / (2 * 1 + 1)).
Proof.
  split; [reflexivity|]. split; [reflexivity|].
  destruct (gamma_only_in_interpolants (H := world) triangle_curves
              triangle_cornered false far_sides 0%N
              (mkRibbon (Some 0%nat) None tt) corner_default (1 / 2) 1 0
              eq_refl eq_refl)
    as (Hblend & _ & _ & _ & Hside & _).
  split; [exact Hblend | exact Hside].
Defined.

Lemma blendHermite_unit_interval_witness :
  rounding_error ∧ rounding_order ∧ roundoff <= 1 / 8 ∧
  0 <= 1 / 4 ∧ 1 / 4 <= 3 / 4 ∧ 3 / 4 <= 1 ∧
  blendHermite_fl (3 / 4) <= blendHermite_fl (1 / 4) + 44 * roundoff.
Proof.
  assert (roundoff <= 1 / 8) as Hu by (simpl; lra).
  split; [exact grid_rounding_error|]. split; [exact grid_rounding_order|].
  split; [exact Hu|]. split; [lra|]. split; [lra|]. split; [lra|].
  apply (blendHermite_unit_interval (1 / 4) (3 / 4) grid_rounding_error
           grid_rounding_order Hu);
    lra.
Defined.

Lemma gamma_enabled_range_witness :
  rounding_order ∧ rnd 1 = 1 ∧ 0 <= 1 ∧
  gamma_fl (setGamma true (bare 3%N)) 1 <= 1 / 2.
Proof.
  split; [exact grid_rounding_order|]. split; [exact grid_one|].
  split; [lra|].
  apply (gamma_enabled_range (bare 3%N) 1 grid_rounding_order grid_one).
  lra.
Defined.

Lemma one_side_term (i : N) :
  (i < n_ (bare 4%N))%N → side_near one_side i = false →
  0 < side_term_fl one_side i.
Proof.
  intros Hi Hfar.
  assert (i = 0 ∨ i = 1 ∨ i = 2 ∨ i = 3)%N as Hcases by (cbn in Hi; lia).
  destruct Hcases as [-> | [-> | [-> | ->]]].
  - exfalso. rewrite (near_zero 0 : side_near one_side 0%N = true) in Hfar.
    discriminate Hfar.
  - change (0 < grid_rnd (pow_m2 1)). rewrite grid_pow_one. lra.
  - change (0 < grid_rnd (pow_m2 1)). rewrite grid_pow_one. lra.
  - change (0 < grid_rnd (pow_m2 1)). rewrite grid_pow_one. lra.
Qed.

Lemma blend_weights_unit_range_witness :
  rounding_order ∧ n_ (bare 4%N) = N.of_nat (length one_side) ∧
  (boundary_sides one_side = 1%nat → (2 <= n_ (bare 4%N))%N) ∧
  (∀ i, (i < n_ (bare 4%N))%N → side_near one_side i = false →
        0 < side_term_fl one_side i) ∧
  (boundary_sides one_side = 0%nat →
   ∀ i, (i < n_ (bare 4%N))%N → 0 < corner_term_fl (bare 4%N) one_side i) ∧
  ∃ ws, blendCorner_fl (bare 4%N) one_side = Some ws ∧
        ∀ w, w ∈ ws → 0 <= w ∧ w <= 1.
Proof.
  assert (boundary_sides one_side = 1%nat → (2 <= n_ (bare 4%N))%N) as H2
    by (intros _; cbn; lia).
  assert (boundary_sides one_side = 0%nat →
          ∀ i, (i < n_ (bare 4%N))%N →
               0 < corner_term_fl (bare 4%N) one_side i) as Hcorner.
  { intros E. rewrite boundary_sides_one in E. discriminate E. }
  split; [exact grid_rounding_order|]. split; [reflexivity|].
  split; [exact H2|]. split; [exact one_side_term|]. split; [exact Hcorner|].
  apply (blend_weights_unit_range (bare 4%N) one_side grid_rounding_order
           eq_refl H2 one_side_term Hcorner).
Defined.
